(** * A shallow embedding of the C+ to C++98 converter ([C+.cpp])

    The converter reads a file written in the C+ dialect (optional
    semicolons, [.] for every member access), and writes a sibling
    [.cpp] file.  This development embeds its passes as Rocq functions,
    in the order of the source file, and proves properties of them.

    Conventions of the embedding:
    - a [std::string] holding file contents is a [list ascii]; the text
      of a token is a [string];
    - [int] fields ([line], [col], [scope_id], [parent], pointer levels)
      are [Z]; [size_t] positions in a vector are [nat];
    - [std::map<std::string, VarInfo>] is a [gmap string VarInfo],
      [std::set<std::string>] a [gset string];
    - a loop that is not structurally recursive takes a [fuel] argument
      and returns [None] when the fuel runs out; the entry points supply
      enough fuel, which is proved where a theorem depends on it;
    - character classes are those of the "C" locale (the program never
      calls [setlocale]). *)

From Stdlib Require Import Ascii String ZArith Lia.
From stdpp Require Import gmap strings list fin_maps sorting.

Open Scope Z_scope.

(** ** Characters *)

Definition code (c : ascii) : N := N_of_ascii c.

Definition ch_nl : ascii := "010"%char.
Definition ch_cr : ascii := "013"%char.
Definition ch_bs : ascii := "\"%char.
Definition ch_dq : ascii := "034"%char.

Definition ch_eq (a b : ascii) : bool := Ascii.eqb a b.

Definition isspace (c : ascii) : bool :=
  ((9 <=? code c)%N && (code c <=? 13)%N) || (code c =? 32)%N.
Definition isdigit (c : ascii) : bool :=
  (48 <=? code c)%N && (code c <=? 57)%N.
Definition isalpha (c : ascii) : bool :=
  ((65 <=? code c)%N && (code c <=? 90)%N) ||
  ((97 <=? code c)%N && (code c <=? 122)%N).
Definition isalnum (c : ascii) : bool := isalpha c || isdigit c.

Definition isIdentStart (c : ascii) : bool := isalpha c || ch_eq c "_".
Definition isIdentChar (c : ascii) : bool := isalnum c || ch_eq c "_".

(** [s[i + 1] == d], false when [i + 1] is past the end; [r] is the text
    after position [i]. *)
Definition next_is (d : ascii) (r : list ascii) : bool :=
  match r with
  | e :: _ => ch_eq e d
  | [] => false
  end.

(** ** Output path: [replace_ext] *)

(** [std::string::find_last_of]: the position of the last character of
    [s] that is one of [set]; [None] is [npos]. *)
Fixpoint find_last_of (set : list ascii) (s : list ascii) : option nat :=
  match s with
  | [] => None
  | c :: r =>
      match find_last_of set r with
      | Some k => Some (S k)
      | None => if existsb (ch_eq c) set then Some 0%nat else None
      end
  end.

Definition replace_ext (path newext : list ascii) : list ascii :=
  let sep := find_last_of ["/"%char; ch_bs] path in
  let dot := find_last_of ["."%char] path in
  match dot, sep with
  | None, _ => path ++ newext
  | Some d, Some sp =>
      if (d <? sp)%nat then path ++ newext else take d path ++ newext
  | Some d, None => take d path ++ newext
  end.

(** ** Line normalizer: [preprocess_physical_lines] *)

(** First loop: a CR followed by LF is dropped (the LF is pushed by the
    next iteration), a lone CR becomes LF. *)
Fixpoint normalize_cr (s : list ascii) : list ascii :=
  match s with
  | [] => []
  | c :: r =>
      if ch_eq c ch_cr then
        if next_is ch_nl r then normalize_cr r
        else ch_nl :: normalize_cr r
      else c :: normalize_cr r
  end.

(** Second loop: a backslash followed by LF is skipped with that LF. *)
Fixpoint splice_continuations (t : list ascii) : list ascii :=
  match t with
  | [] => []
  | c :: r =>
      match r with
      | d :: r' =>
          if ch_eq c ch_bs && ch_eq d ch_nl then splice_continuations r'
          else c :: splice_continuations r
      | [] => [c]
      end
  end.

Definition preprocess_physical_lines (s : list ascii) : list ascii :=
  splice_continuations (normalize_cr s).

(** ** Tokens *)

Inductive TokenType :=
  | Identifier | Number | StringLit | Keyword
  | Operator | Punct | Preprocessor | Unknown.

Global Instance TokenType_eq_dec : EqDecision TokenType.
Proof. solve_decision. Defined.

Record Token := mkToken {
  type : TokenType;
  text : string;
  line : Z;
  col : Z;
  scope_id : Z
}.

Global Instance Token_eq_dec : EqDecision Token.
Proof. solve_decision. Defined.

(** A token as the lexer builds it: [scope_id] keeps the constructor's 0. *)
Definition lexed (ty : TokenType) (txt : list ascii) (ln cl : Z) : Token :=
  mkToken ty (string_of_list_ascii txt) ln cl 0.

Definition ty_is (t : Token) (ty : TokenType) : bool :=
  bool_decide (type t = ty).
Definition txt_is (t : Token) (s : string) : bool :=
  String.eqb (text t) s.

Definition make_keywords : list string :=
  [ "auto"; "break"; "case"; "char"; "const";
    "continue"; "default"; "do"; "double"; "else";
    "enum"; "extern"; "float"; "for"; "goto";
    "if"; "inline"; "int"; "long"; "register";
    "return"; "short"; "signed"; "sizeof"; "static";
    "struct"; "switch"; "typedef"; "union"; "unsigned";
    "void"; "volatile"; "while"; "bool" ]%string.

Definition str_in (w : string) (l : list string) : bool :=
  existsb (String.eqb w) l.

(** [std::strchr(ops, c) != 0]: the terminating NUL of [ops] belongs to
    the string that [strchr] searches, so the character of code 0 is found
    as well. *)
Definition is_op_char (c : ascii) : bool :=
  existsb (ch_eq c) (list_ascii_of_string "+-*/%=&|!<>^~?:") ||
  ch_eq c "000".

Definition is_punct_char (c : ascii) : bool :=
  existsb (ch_eq c) (list_ascii_of_string "(){}[];,.").

Definition two_char_ops : list string :=
  [ "++"; "--"; "=="; "!="; ">="; "<="; "+="; "-=";
    "*="; "/="; "&&"; "||"; "&="; "|="; "^="; "<<"; ">>" ]%string.

(** ** Lexer: [lex] *)

(** [while (i < src.size() && src[i] != '\n') { ++i; ++col; }], returning
    the characters passed over, the rest and the column. *)
Fixpoint scan_line (s : list ascii) (cl : Z) : list ascii * list ascii * Z :=
  match s with
  | [] => ([], [], cl)
  | c :: r =>
      if ch_eq c ch_nl then ([], s, cl)
      else let '(t, rest, cl') := scan_line r (cl + 1) in (c :: t, rest, cl')
  end.

(** The body of a block comment, after its opening: the loop runs while
    [i + 1 < src.size()], so an unterminated comment leaves the last
    character of the file to the main loop. *)
Fixpoint skip_block (s : list ascii) (ln cl : Z) : list ascii * Z * Z :=
  match s with
  | c :: r =>
      match r with
      | d :: r' =>
          if ch_eq c ch_nl then skip_block r (ln + 1) 1
          else if ch_eq c "*" && ch_eq d "/" then (r', ln, cl + 2)
          else skip_block r ln (cl + 1)
      | [] => (s, ln, cl)
      end
  | [] => (s, ln, cl)
  end.

(** The body of a string literal, after its opening quote. *)
Fixpoint scan_string (s : list ascii) (ln cl : Z)
  : list ascii * list ascii * Z * Z :=
  match s with
  | [] => ([], [], ln, cl)
  | d :: r =>
      if ch_eq d ch_bs then
        match r with
        | e :: r' =>
            let '(t, rest, ln', cl') := scan_string r' ln (cl + 2) in
            (d :: e :: t, rest, ln', cl')
        | [] => ([d], [], ln, cl + 1)
        end
      else if ch_eq d ch_dq then ([d], r, ln, cl + 1)
      else if ch_eq d ch_nl then
        let '(t, rest, ln', cl') := scan_string r (ln + 1) 1 in
        (d :: t, rest, ln', cl')
      else
        let '(t, rest, ln', cl') := scan_string r ln (cl + 1) in
        (d :: t, rest, ln', cl')
  end.

(** Digits with at most one dot. *)
Fixpoint scan_number (s : list ascii) (dot : bool) : list ascii * list ascii :=
  match s with
  | [] => ([], [])
  | d :: r =>
      if isdigit d then
        let '(t, rest) := scan_number r dot in (d :: t, rest)
      else if ch_eq d "." && negb dot then
        let '(t, rest) := scan_number r true in (d :: t, rest)
      else ([], s)
  end.

Fixpoint scan_ident (s : list ascii) : list ascii * list ascii :=
  match s with
  | [] => ([], [])
  | d :: r =>
      if isIdentChar d then
        let '(t, rest) := scan_ident r in (d :: t, rest)
      else ([], s)
  end.

Definition len (t : list ascii) : Z := Z.of_nat (length t).

Inductive lex_result :=
  | LexOk (out : list Token)
  | LexArrow (ln cl : Z).   (* the diagnostic, then [std::exit(2)] *)

Fixpoint lex_loop (fuel : nat) (s : list ascii) (ln cl : Z) (out : list Token)
  : option lex_result :=
  match s with
  | [] => Some (LexOk out)
  | c :: r =>
    match fuel with
    | O => None
    | S fuel =>
      if ch_eq c ch_nl then lex_loop fuel r (ln + 1) 1 out
      else if isspace c then lex_loop fuel r ln (cl + 1) out
      else if ch_eq c "#" then
        let '(t, rest, cl') := scan_line s cl in
        lex_loop fuel rest ln cl' (out ++ [lexed Preprocessor t ln cl])
      else if ch_eq c "/" && next_is "/" r then
        let '(_, rest, cl') := scan_line (tail r) (cl + 2) in
        lex_loop fuel rest ln cl' out
      else if ch_eq c "/" && next_is "*" r then
        let '(rest, ln', cl') := skip_block (tail r) ln (cl + 2) in
        lex_loop fuel rest ln' cl' out
      else if ch_eq c ch_dq then
        let '(t, rest, ln', cl') := scan_string r ln (cl + 1) in
        lex_loop fuel rest ln' cl' (out ++ [lexed StringLit (c :: t) ln' cl])
      else if isdigit c then
        let '(t, rest) := scan_number s false in
        lex_loop fuel rest ln (cl + len t) (out ++ [lexed Number t ln cl])
      else if isIdentStart c then
        let '(t, rest) := scan_ident r in
        let w := c :: t in
        let ty := if str_in (string_of_list_ascii w) make_keywords
                  then Keyword else Identifier in
        lex_loop fuel rest ln (cl + len w) (out ++ [lexed ty w ln cl])
      else if is_op_char c then
        match r with
        | d :: r' =>
            if ch_eq c "-" && ch_eq d ">" then Some (LexArrow ln cl)
            else if str_in (string_of_list_ascii [c; d]) two_char_ops then
              lex_loop fuel r' ln (cl + 2) (out ++ [lexed Operator [c; d] ln cl])
            else
              lex_loop fuel r ln (cl + 1) (out ++ [lexed Operator [c] ln cl])
        | [] => lex_loop fuel r ln (cl + 1) (out ++ [lexed Operator [c] ln cl])
        end
      else if is_punct_char c then
        lex_loop fuel r ln (cl + 1) (out ++ [lexed Punct [c] ln cl])
      else
        lex_loop fuel r ln (cl + 1) (out ++ [lexed Unknown [c] ln cl])
    end
  end.

Definition lex (src : list ascii) : option lex_result :=
  lex_loop (length src) src 1 1 [].

Definition bytes (s : string) : list ascii := list_ascii_of_string s.

Close Scope Z_scope.


(** ** Token helpers *)

(** [TKIs]: false when [i] is out of range; [txt = None] is the null
    default of the C++ parameter. *)
Definition TKIs (v : list Token) (i : nat) (t : TokenType)
    (txt : option string) : bool :=
  match v !! i with
  | None => false
  | Some tok =>
      ty_is tok t && match txt with Some s => txt_is tok s | None => true end
  end.
Definition is_kw (v : list Token) (i : nat) (k : string) : bool :=
  TKIs v i Keyword (Some k).
Definition is_p (v : list Token) (i : nat) (p : string) : bool :=
  TKIs v i Punct (Some p).
Definition is_op (v : list Token) (i : nat) (o : string) : bool :=
  TKIs v i Operator (Some o).

Definition tok_p (t : Token) (p : string) : bool := ty_is t Punct && txt_is t p.
Definition tok_op (t : Token) (o : string) : bool :=
  ty_is t Operator && txt_is t o.

Definition builtin_types : gset string :=
  list_to_set [ "void"; "char"; "short"; "int"; "long";
                "float"; "double"; "signed"; "unsigned"; "bool" ]%string.

Record Param := mkParam { p_name : string; stars : Z }.

(** [while (i < n && p tk[i]) ++i], on the tokens from [i] on. *)
Fixpoint scan_while (p : Token -> bool) (l : list Token) (i : nat) : nat :=
  match l with
  | t :: l' => if p t then scan_while p l' (S i) else i
  | [] => i
  end.
Definition skip_while (p : Token -> bool) (tk : list Token) (i : nat) : nat :=
  scan_while p (drop i tk) i.
(** The same loop with the bound [rp] in place of [tk.size()]. *)
Definition skip_while_lt (p : Token -> bool) (tk : list Token) (i rp : nat)
  : nat :=
  scan_while p (take (rp - i) (drop i tk)) i.

(** The bracket matching loops: [for (; k < n; ++k)] counting [o] up and
    [c] down, stopping at the [c] that brings [depth] to 0.  [Some k] is
    the position of that [c]; [None] means [k] reached [n]. *)
Fixpoint match_close (o c : string) (l : list Token) (k : nat) (depth : Z)
  : option nat :=
  match l with
  | [] => None
  | t :: l' =>
      if tok_p t o then match_close o c l' (S k) (depth + 1)
      else if tok_p t c then
        if (depth - 1 =? 0)%Z then Some k
        else match_close o c l' (S k) (depth - 1)
      else match_close o c l' (S k) depth
  end.

Definition sig_prefix (t : Token) : bool :=
  ty_is t Keyword || tok_op t "*" || tok_op t "&".
Definition sig_suffix (t : Token) : bool :=
  ty_is t Keyword || ty_is t Identifier || tok_op t "*" || tok_op t "&".

(** [looks_like_func_signature]: [Some (i_name, i_lbrace, i_lp, i_rp)]
    when the C++ function returns true, [i_lbrace = None] standing for -1. *)
Definition looks_like_func_signature (tk : list Token) (i_type : nat)
  : option (nat * option nat * nat * nat) :=
  let n := length tk in
  let i := skip_while sig_prefix tk (i_type + 1) in
  if negb (TKIs tk i Identifier None) then None
  else if is_p tk (i + 1) "(" then
    match match_close "(" ")" (drop (i + 1) tk) (i + 1) 0 with
    | None => None
    | Some rp =>
        let j := rp + 1 in
        if j <? n then
          let j' := skip_while sig_suffix tk j in
          Some (i, (if is_p tk j' "{" then Some j' else None), i + 1, rp)
        else None
    end
  else None.

Definition type_start_tok (known_types : gset string) (t : Token) : bool :=
  (ty_is t Identifier && bool_decide (text t ∈ known_types)) ||
  (ty_is t Keyword &&
     (bool_decide (text t ∈ builtin_types) || txt_is t "struct" ||
      txt_is t "enum" || txt_is t "union")).

Definition is_tag_kw (tk : list Token) (i : nat) : bool :=
  is_kw tk i "struct" || is_kw tk i "enum" || is_kw tk i "union".

Definition kw_or_ident (t : Token) : bool :=
  ty_is t Keyword || ty_is t Identifier.

(** [while (j < rp && is_p(tk, j, "[")) { while (j < rp && !is_p(tk, j, "]"))
    ++j; if (j < rp) ++j; }] of [parse_params]: brackets are passed over,
    nothing is counted. *)
Fixpoint skip_param_brackets (fuel : nat) (tk : list Token) (j rp : nat)
  : option nat :=
  if (j <? rp) && is_p tk j "[" then
    match fuel with
    | O => None
    | S fuel =>
        let j1 := skip_while_lt (fun t => negb (tok_p t "]")) tk j rp in
        skip_param_brackets fuel tk (if j1 <? rp then j1 + 1 else j1) rp
    end
  else Some j.

Fixpoint parse_params_loop (fuel : nat) (tk : list Token) (i rp : nat)
    (known_types : gset string) (out : list Param) : option (list Param) :=
  if negb (i <? rp) then Some out
  else
    match fuel with
    | O => None
    | S fuel =>
      if is_p tk i "," then parse_params_loop fuel tk (i + 1) rp known_types out
      else
        match tk !! i with
        | None => None
        | Some t =>
          if negb (type_start_tok known_types t) then
            parse_params_loop fuel tk (i + 1) rp known_types out
          else
            let oj :=
              if is_tag_kw tk i then
                if (i + 1 <? rp) && TKIs tk (i + 1) Identifier None
                then Some (i + 2) else None
              else Some (skip_while_lt kw_or_ident tk i rp) in
            match oj with
            | None => parse_params_loop fuel tk (i + 1) rp known_types out
            | Some j =>
              let j1 := skip_while_lt (fun t => tok_op t "*") tk j rp in
              let nstars := Z.of_nat (j1 - j) in
              match tk !! j1 with
              | Some tn =>
                if (j1 <? rp) && ty_is tn Identifier then
                  match skip_param_brackets (length tk) tk (j1 + 1) rp with
                  | None => None
                  | Some j2 =>
                    let j3 :=
                      skip_while_lt (fun t => negb (tok_p t ",")) tk j2 rp in
                    parse_params_loop fuel tk j3 rp known_types
                      (out ++ [mkParam (text tn) nstars])
                  end
                else parse_params_loop fuel tk j1 rp known_types out
              | None => parse_params_loop fuel tk j1 rp known_types out
              end
            end
        end
    end.

Definition parse_params (tk : list Token) (lp rp : nat)
    (known_types : gset string) : option (list Param) :=
  parse_params_loop (length tk) tk (lp + 1) rp known_types [].

(** ** Relaxed declaration detection *)

(** The bracket loop of [detect_relaxed_declaration]: an unclosed [[]
    stops the loop without being counted. *)
Fixpoint relaxed_arrays (fuel : nat) (tk : list Token) (j : nat) (arrays : Z)
  : option (nat * Z) :=
  if is_p tk j "[" then
    match fuel with
    | O => None
    | S fuel =>
        let k := skip_while (fun t => negb (tok_p t "]")) tk (j + 1) in
        if k =? length tk then Some (j, arrays)
        else relaxed_arrays fuel tk (k + 1) (arrays + 1)
    end
  else Some (j, arrays).

(** [Some (Some (j_out, name_out, stars_out, arrays_out))] when the C++
    function returns true, [Some None] when it returns false. *)
Definition detect_relaxed_declaration (tk : list Token) (i : nat)
  : option (option (nat * string * Z * Z)) :=
  match tk !! i with
  | None => None
  | Some t =>
    if negb (ty_is t Identifier ||
             (ty_is t Keyword &&
                (txt_is t "struct" || txt_is t "enum" || txt_is t "union")))
    then Some None
    else
      let oj :=
        if ty_is t Keyword then
          if TKIs tk (i + 1) Identifier None then Some (i + 2) else None
        else Some (i + 1) in
      match oj with
      | None => Some None
      | Some j =>
        let j1 := skip_while kw_or_ident tk j in
        let j2 := skip_while (fun t => tok_op t "*") tk j1 in
        let nstars := Z.of_nat (j2 - j1) in
        match tk !! j2 with
        | None => Some None
        | Some tn =>
          if negb (ty_is tn Identifier) then Some None
          else
            '(j3, arrays) ← relaxed_arrays (length tk) tk (j2 + 1) 0;
            Some (if is_p tk j3 ";" || is_p tk j3 "," || is_p tk j3 "[" ||
                     is_op tk j3 "=" || is_p tk j3 "{"
                  then Some (j3, text tn, nstars, arrays)
                  else None)
        end
      end
  end.

(** ** Scope and declaration analysis *)

Record Scope := mkScope {
  id : Z;
  parent : Z;
  kind : string;   (* "Global", "Function", "Struct", "Enum", "Union", "Block" *)
  name : string
}.

Record VarInfo := mkVarInfo {
  pointer_level : Z;   (* 999 until a declarator has been seen *)
  array_rank : Z
}.

(** [VarInfo& vi = scope_vars[cur][name]] followed by the update of a
    declarator: [operator[]] creates the record (999, 0) when absent. *)
Definition observe_var (m : gmap string VarInfo) (nm : string)
    (nstars arrays : Z) : gmap string VarInfo :=
  let vi := default (mkVarInfo 999 0) (m !! nm) in
  let pl := if (pointer_level vi =? 999)%Z then nstars
            else if (nstars <? pointer_level vi)%Z then nstars
            else pointer_level vi in
  let ar := if (array_rank vi <? arrays)%Z then arrays else array_rank vi in
  <[nm := mkVarInfo pl ar]> m.

(** The update made for a deposited parameter: the array rank is not
    written. *)
Definition observe_param (m : gmap string VarInfo) (p : Param)
  : gmap string VarInfo :=
  let vi := default (mkVarInfo 999 0) (m !! p_name p) in
  let pl := if (pointer_level vi =? 999)%Z then stars p
            else if (stars p <? pointer_level vi)%Z then stars p
            else pointer_level vi in
  <[p_name p := mkVarInfo pl (array_rank vi)]> m.

Definition deposit_params (ps : list Param) (m : gmap string VarInfo)
  : gmap string VarInfo :=
  foldl observe_param m ps.

(** The scan of a [typedef]: [last_ident] is the index of the last
    Identifier before the first [;] or [}] Punct ([None] for -1). *)
Fixpoint typedef_scan (l : list Token) (j : nat) (last_ident : option nat)
  : option nat :=
  match l with
  | [] => last_ident
  | t :: l' =>
      if ty_is t Punct && (txt_is t ";" || txt_is t "}") then last_ident
      else typedef_scan l' (S j)
             (if ty_is t Identifier then Some j else last_ident)
  end.

Definition typedef_observe (tk : list Token) (i : nat)
    (known_types : gset string) : gset string :=
  match typedef_scan (drop (S i) tk) (S i) None with
  | Some last_ident =>
      match tk !! last_ident with
      | Some t => {[ text t ]} ∪ known_types
      | None => known_types
      end
  | None => known_types
  end.

(** The bracket loop of the strict declarator path: an unclosed [[] is
    counted. *)
Fixpoint strict_arrays (fuel : nat) (tk : list Token) (j : nat) (arrays : Z)
  : option (nat * Z) :=
  if is_p tk j "[" then
    match fuel with
    | O => None
    | S fuel =>
        let j1 := skip_while (fun t => negb (tok_p t "]")) tk j in
        strict_arrays fuel tk (if j1 <? length tk then j1 + 1 else j1)
          (arrays + 1)
    end
  else Some (j, arrays).

(** The declarator list of the strict path; returns the variables of the
    current scope and [handled_decl]. *)
Fixpoint declarators_loop (fuel : nat) (tk : list Token) (j : nat)
    (m : gmap string VarInfo) (handled_decl : bool)
  : option (gmap string VarInfo * bool) :=
  if negb (j <? length tk) then Some (m, handled_decl)
  else
    match fuel with
    | O => None
    | S fuel =>
        let j1 := skip_while (fun t => tok_op t "*") tk j in
        let nstars := Z.of_nat (j1 - j) in
        match tk !! j1 with
        | None => Some (m, handled_decl)
        | Some tn =>
          if negb (ty_is tn Identifier) then Some (m, handled_decl)
          else
            '(j2, arrays) ← strict_arrays (length tk) tk (j1 + 1) 0;
            let m' := observe_var m (text tn) nstars arrays in
            if is_p tk j2 "," then declarators_loop fuel tk (j2 + 1) m' true
            else Some (m', true)
        end
    end.

Record analysis := mkAnalysis {
  a_tk : list Token;
  a_scopes : list Scope;
  a_scope_vars : list (gmap string VarInfo);
  a_known_types : gset string;
  a_cur : Z;
  a_pending_kind : string;
  a_pending_name : string;
  a_params_at_lbrace : gmap nat (list Param)
}.

Definition set_scope_id (t : Token) (c : Z) : Token :=
  mkToken (type t) (text t) (line t) (col t) c.

Definition at_scope {A} (l : list A) (c : Z) : option A :=
  if (c <? 0)%Z then None else l !! Z.to_nat c.

(** One iteration of the loop of [analyze_scopes_and_vars]. *)
Definition analyze_step (i : nat) (st : analysis) : option analysis :=
  t ← a_tk st !! i;
  let cur := a_cur st in
  let tk := <[i := set_scope_id t cur]> (a_tk st) in
  (* typedef adds a new known type *)
  let known1 :=
    if is_kw tk i "typedef" then typedef_observe tk i (a_known_types st)
    else a_known_types st in
  (* tag names of struct/union/enum become known types *)
  let next_ident := TKIs tk (i + 1) Identifier None in
  let next_text := default EmptyString (text <$> tk !! (i + 1)) in
  let known2 :=
    if is_tag_kw tk i && next_ident then {[ next_text ]} ∪ known1
    else known1 in
  let '(pk1, pn1) :=
    if is_tag_kw tk i then
      ((if is_kw tk i "struct" then "Struct"
        else if is_kw tk i "enum" then "Enum" else "Union")%string,
       (if next_ident then next_text else EmptyString))
    else (a_pending_kind st, a_pending_name st) in
  (* function detection *)
  let type_start := type_start_tok known2 t in
  let sig := if type_start then looks_like_func_signature tk i else None in
  '(pk2, pn2, params) ←
    match sig with
    | Some (i_name, Some i_lbrace, lp, rp) =>
        ps ← parse_params tk lp rp known2;
        Some ("Function"%string,
              default EmptyString (text <$> tk !! i_name),
              <[i_lbrace := ps]> (a_params_at_lbrace st))
    | _ => Some (pk1, pn1, a_params_at_lbrace st)
    end;
  (* variable declarators (non-function) *)
  m ← at_scope (a_scope_vars st) cur;
  '(m1, handled_decl) ←
    (if type_start then
       match sig with
       | Some _ => Some (m, false)
       | None =>
           let j :=
             if is_tag_kw tk i then
               if TKIs tk (i + 1) Identifier None then i + 2 else i
             else skip_while kw_or_ident tk i in
           declarators_loop (length tk) tk j m false
       end
     else Some (m, false));
  (* relaxed path (type unknown) *)
  m2 ←
    (if negb handled_decl && ty_is t Identifier then
       r ← detect_relaxed_declaration tk i;
       match r with
       | Some (_, vname, nstars, arrays) =>
           Some (observe_var m1 vname nstars arrays)
       | None => Some m1
       end
     else Some m1);
  let vars1 := <[Z.to_nat cur := m2]> (a_scope_vars st) in
  (* scope open *)
  let '(scopes3, vars3, cur3, pk3, pn3) :=
    if is_p tk i "{" then
      let s := mkScope (Z.of_nat (length (a_scopes st))) cur
                 (if String.eqb pk2 EmptyString then "Block"%string else pk2) pn2 in
      let m0 : gmap string VarInfo :=
        match params !! i with
        | Some ps => deposit_params ps ∅
        | None => ∅
        end in
      (a_scopes st ++ [s], vars1 ++ [m0], id s, EmptyString, EmptyString)
    else (a_scopes st, vars1, cur, pk2, pn2) in
  (* scope close *)
  '(cur4, pk4, pn4) ←
    (if is_p tk i "}" then
       if (cur3 =? 0)%Z then Some (cur3, EmptyString, EmptyString)
       else sc ← at_scope scopes3 cur3;
            Some (parent sc, EmptyString, EmptyString)
     else Some (cur3, pk3, pn3));
  Some (mkAnalysis tk scopes3 vars3 known2 cur4 pk4 pn4 params).

(** [for (size_t i = 0; i < tk.size(); ++i)]: [k] counts the iterations
    left; the token vector keeps its size during the analysis. *)
Fixpoint analyze_loop (k : nat) (i : nat) (st : analysis) : option analysis :=
  match k with
  | O => Some st
  | S k => st' ← analyze_step i st; analyze_loop k (S i) st'
  end.

Definition analyze_scopes_and_vars (tk : list Token)
    (known_types : gset string) : option analysis :=
  analyze_loop (length tk) 0
    (mkAnalysis tk [mkScope 0 (-1) "Global" EmptyString] [∅] known_types 0
       EmptyString EmptyString ∅).

(** [resolve_ptr_level]: the pair is (returned pointer level,
    [array_rank_out]).  The walk up the parents ends at -1; the fuel is
    the number of scopes. *)
Fixpoint resolve_loop (fuel : nat) (scopes : list Scope)
    (scope_vars : list (gmap string VarInfo)) (cur : Z) (nm : string)
  : option (Z * Z) :=
  if (cur =? -1)%Z then Some (999, 0)%Z
  else
    match fuel with
    | O => None
    | S fuel =>
        m ← at_scope scope_vars cur;
        match m !! nm with
        | Some vi => Some (pointer_level vi, array_rank vi)
        | None =>
            sc ← at_scope scopes cur;
            resolve_loop fuel scopes scope_vars (parent sc) nm
        end
    end.

Definition resolve_ptr_level (scopes : list Scope)
    (scope_vars : list (gmap string VarInfo)) (scope_id : Z) (nm : string)
  : option (Z * Z) :=
  resolve_loop (length scopes) scopes scope_vars scope_id nm.

(** ** Enum bodies and type blocks *)

Definition scope_kind_is (scopes : list Scope) (sid : Z) (k : string) : bool :=
  match at_scope scopes sid with
  | Some sc => String.eqb (kind sc) k
  | None => false
  end.

Definition remove_semicolons_inside_enums (toks : list Token)
    (scopes : list Scope) : list Token :=
  filter (fun t => ¬ (tok_p t ";" && scope_kind_is scopes (scope_id t) "Enum"))
    toks.

Definition retag (t : Token) (ty : TokenType) (txt : string) : Token :=
  mkToken ty txt (line t) (col t) (scope_id t).

(** [line.insert(line.begin() + i, x)] *)
Definition insert_at {A} (i : nat) (x : A) (l : list A) : list A :=
  take i l ++ x :: drop i l.

Definition closes_type_block (scopes : list Scope) (t : Token) : bool :=
  tok_p t "}" &&
  (scope_kind_is scopes (scope_id t) "Struct" ||
   scope_kind_is scopes (scope_id t) "Union" ||
   scope_kind_is scopes (scope_id t) "Enum").

(** The lookahead of [add_semicolon_after_type_blocks], from position
    [j = i + 1]: skip Preprocessor tokens, then test the token found. *)
Definition declarator_follows (toks : list Token) (j : nat) : bool :=
  let j' := skip_while (fun t => ty_is t Preprocessor) toks j in
  match toks !! j' with
  | Some n =>
      ty_is n Identifier || tok_op n "*" ||
      (ty_is n Punct && (txt_is n "(" || txt_is n "[" || txt_is n ";"))
  | None => false
  end.

(** The loop of [add_semicolon_after_type_blocks] on the vector it edits
    in place: [k] bounds the iterations left. *)
Fixpoint type_blocks_loop (k : nat) (toks : list Token) (scopes : list Scope)
    (i : nat) : option (list Token) :=
  match toks !! i with
  | None => Some toks
  | Some t =>
      match k with
      | O => None
      | S k =>
          if closes_type_block scopes t && negb (declarator_follows toks (i + 1))
          then type_blocks_loop k (insert_at (i + 1) (retag t Punct ";") toks)
                 scopes (i + 2)
          else type_blocks_loop k toks scopes (i + 1)
      end
  end.

Definition add_semicolon_after_type_blocks (toks : list Token)
    (scopes : list Scope) : option (list Token) :=
  type_blocks_loop (length toks) toks scopes 0.

(** ** Lines *)

(** The loop of [split_into_lines]; [byline.back().push_back(t)] appends
    to the last group. *)
Fixpoint split_loop (toks : list Token) (current : Z)
    (byline : list (list Token)) (line_scope : list Z)
  : list (list Token) * list Z :=
  match toks with
  | [] => (byline, line_scope)
  | t :: toks' =>
      let '(current, byline, line_scope) :=
        if negb (line t =? current)%Z
        then (line t, byline ++ [[]], line_scope ++ [scope_id t])
        else (current, byline, line_scope) in
      split_loop toks' current
        (match last byline with
         | Some g => removelast byline ++ [g ++ [t]]
         | None => byline
         end)
        line_scope
  end.

Definition split_into_lines (toks : list Token)
  : list (list Token) * list Z :=
  match toks with
  | [] => ([], [])
  | t :: _ => split_loop toks (line t) [[]] [scope_id t]
  end.

Definition last_tok (l : list Token) : option Token := last l.

Definition is_ctrl (t : Token) : bool :=
  ty_is t Keyword &&
  (txt_is t "if" || txt_is t "for" || txt_is t "while" || txt_is t "switch").

(** [needs_semicolon] *)
Definition needs_semicolon (ln : list Token) (scope_kind : string) : bool :=
  match ln, last ln with
  | first :: _, Some lst =>
      if String.eqb scope_kind "Enum" then false
      else if ty_is first Preprocessor then false
      else if tok_p lst "}" then
        let body := removelast ln in   (* indices i with i + 1 < size *)
        let has_eq := existsb (fun t => tok_op t "=") body in
        let has_lbrace := existsb (fun t => tok_p t "{") body in
        has_eq && has_lbrace
      else if ty_is lst Punct && (txt_is lst "{" || txt_is lst ";") then false
      else
        let has_ctrl := existsb is_ctrl ln in
        if has_ctrl && tok_p lst ")" then false
        else if ty_is lst Identifier || ty_is lst Number ||
                ty_is lst StringLit ||
                (ty_is lst Punct && (txt_is lst ")" || txt_is lst "]"))
        then true
        else false
  | _, _ => false
  end.

(** ** Member chains: [rewrite_member_chains] *)

(** What a subscript does to the effective depth. *)
Definition subscript (cur_ptr cur_arr : Z) : Z * Z :=
  if (0 <? cur_arr)%Z then (cur_ptr, (cur_arr - 1)%Z)
  else if (0 <? cur_ptr)%Z then ((cur_ptr - 1)%Z, cur_arr)
  else (cur_ptr, cur_arr).

(** The walk over postfix [[ ... ]] and [( ... )]; returns [j] and the
    depth reached. *)
Fixpoint postfix_walk (fuel : nat) (ln : list Token) (j : nat)
    (cur_ptr cur_arr : Z) : option (nat * Z * Z) :=
  if is_p ln j "[" then
    match match_close "[" "]" (drop j ln) j 0 with
    | Some k =>
        match fuel with
        | O => None
        | S fuel =>
            let '(p, a) := subscript cur_ptr cur_arr in
            postfix_walk fuel ln (k + 1) p a
        end
    | None => Some (j, cur_ptr, cur_arr)
    end
  else if is_p ln j "(" then
    match match_close "(" ")" (drop j ln) j 0 with
    | Some k =>
        match fuel with
        | O => None
        | S fuel => postfix_walk fuel ln (k + 1) cur_ptr cur_arr
        end
    | None => Some (j, cur_ptr, cur_arr)
    end
  else Some (j, cur_ptr, cur_arr).

(** [line[j].type = Token::Operator; line[j].text = "->";] *)
Definition to_arrow (ln : list Token) (j : nat) : list Token :=
  match ln !! j with
  | Some t => <[j := retag t Operator "->"]> ln
  | None => ln
  end.

(** The loop over [. IDENT] segments; [i] is the position of the base. *)
Fixpoint dot_loop (fuel : nat) (ln : list Token) (i j : nat) (cur_ptr : Z)
  : option (list Token * nat) :=
  if is_p ln j "." && TKIs ln (j + 1) Identifier None then
    match fuel with
    | O => None
    | S fuel =>
        if (cur_ptr =? 1)%Z then dot_loop fuel (to_arrow ln j) i (j + 2) cur_ptr
        else if (1 <? cur_ptr)%Z then
          match ln !! i, ln !! j with
          | Some ti, Some tj =>
              let lpar := retag ti Punct "(" in
              let star := retag ti Operator "*" in
              let rpar := retag tj Punct ")" in
              let ln1 := insert_at i lpar ln in
              let ln2 := insert_at (i + 1) star ln1 in
              let j1 := j + 2 in
              let ln3 := insert_at j1 rpar ln2 in
              let j2 := j1 + 1 in
              dot_loop fuel (to_arrow ln3 j2) i (j2 + 2) (cur_ptr - 1)
          | _, _ => None
          end
        else dot_loop fuel ln i (j + 2) cur_ptr
    end
  else Some (ln, j).

Section Rewriter.
Variable scopes : list Scope.
Variable scope_vars : list (gmap string VarInfo).
Variable sid : Z.

(** The body of the outer loop at position [i]; returns the line and the
    value of [i] before the loop's [++i]. *)
Definition rewrite_at (ln : list Token) (i : nat)
  : option (list Token * nat) :=
  match ln !! i with
  | None => None
  | Some t =>
    if negb (ty_is t Identifier) then Some (ln, i)
    else
      '(ptr, base_arrays) ← resolve_ptr_level scopes scope_vars sid (text t);
      if (ptr =? 999)%Z && (base_arrays =? 0)%Z then Some (ln, i)
      else
        let cur_ptr := if (ptr =? 999)%Z then 0%Z else ptr in
        '(j, cur_ptr, _) ←
           postfix_walk (length ln) ln (i + 1) cur_ptr base_arrays;
        '(ln', j') ← dot_loop (length ln) ln i j cur_ptr;
        Some (ln', if 0 <? j' then j' - 1 else i)
    end.

Fixpoint rewrite_loop (fuel : nat) (ln : list Token) (i : nat)
  : option (list Token) :=
  if i <? length ln then
    match fuel with
    | O => None
    | S fuel => '(ln', i') ← rewrite_at ln i; rewrite_loop fuel ln' (i' + 1)
    end
  else Some ln.

Definition rewrite_member_chains (ln : list Token) : option (list Token) :=
  rewrite_loop (length ln) ln 0.
End Rewriter.

(** ** Semicolons before a closing brace on the same line *)

Definition value_closing (prev : Token) : bool :=
  (ty_is prev Identifier || ty_is prev Number || ty_is prev StringLit) ||
  (ty_is prev Punct && (txt_is prev ")" || txt_is prev "]")) ||
  ty_is prev Operator.

Fixpoint before_brace_loop (k : nat) (ln : list Token) (i : nat)
  : option (list Token) :=
  match ln !! i with
  | None => Some ln
  | Some t =>
      match k with
      | O => None
      | S k =>
          if tok_p t "}" then
            match ln !! (i - 1) with
            | Some prev =>
                if ty_is prev Punct && (txt_is prev ";" || txt_is prev "{")
                then before_brace_loop k ln (i + 1)
                else if value_closing prev then
                  before_brace_loop k (insert_at i (retag prev Punct ";") ln)
                    (i + 2)
                else before_brace_loop k ln (i + 1)
            | None => None
            end
          else before_brace_loop k ln (i + 1)
      end
  end.

Definition insert_semicolon_before_closing_brace_on_line (ln : list Token)
    (scope_kind : string) : option (list Token) :=
  if String.eqb scope_kind "Enum" then Some ln
  else before_brace_loop (length ln) ln 1.

(** ** Emitter: [emit_line], the text written to the stream *)

Definition nl : string := String ch_nl EmptyString.

Fixpoint emit_tokens (ln : list Token) (bol : bool) : string :=
  match ln with
  | [] => nl
  | t :: ln' =>
      if ty_is t Preprocessor then
        ((if bol then EmptyString else nl) ++ text t ++ nl)%string
      else
        let space := negb bol in
        let space :=
          if ty_is t Punct &&
             (txt_is t "," || txt_is t ")" || txt_is t "]" || txt_is t ";")
          then false else space in
        ((if space then " " else EmptyString) ++ text t ++ emit_tokens ln' false)%string
  end.

Definition emit_line (ln : list Token) : string :=
  match ln with
  | [] => nl
  | _ => emit_tokens ln true
  end.

(** ** [main]: one file, then the loop over the arguments *)

Definition kind_of (scopes : list Scope) (sid : Z) : string :=
  match at_scope scopes sid with
  | Some sc => kind sc
  | None => "Global"
  end.

(** [if (!line.empty() && needs_semicolon(line, kind)) line.push_back(semi)] *)
Definition terminate_line (ln : list Token) (knd : string) : list Token :=
  match last ln with
  | Some lst =>
      if needs_semicolon ln knd
      then ln ++ [mkToken Punct ";" (line lst) (col lst + 1) 0]
      else ln
  | None => ln
  end.

(** The body of the loop over [lines]: the tokens of the line as they
    reach [emit_line]. *)
Definition process_line (scopes : list Scope)
    (scope_vars : list (gmap string VarInfo)) (ln : list Token) (sid : Z)
  : option (list Token) :=
  ln1 ← rewrite_member_chains scopes scope_vars sid ln;
  let knd := kind_of scopes sid in
  ln2 ← insert_semicolon_before_closing_brace_on_line ln1 knd;
  Some (terminate_line ln2 knd).

Fixpoint process_lines (scopes : list Scope)
    (scope_vars : list (gmap string VarInfo)) (lines : list (list Token))
    (line_scope : list Z) (li : nat) : option (list (list Token)) :=
  match lines with
  | [] => Some []
  | ln :: lines' =>
      let sid := default 0%Z (line_scope !! li) in
      ln' ← process_line scopes scope_vars ln sid;
      rest ← process_lines scopes scope_vars lines' line_scope (S li);
      Some (ln' :: rest)
  end.

(** The lines of a file as they reach the emitter, with the analysis. *)
Definition edited_lines (known_types : gset string) (toks : list Token)
  : option (list (list Token) * analysis) :=
  a ← analyze_scopes_and_vars toks known_types;
  let toks1 := remove_semicolons_inside_enums (a_tk a) (a_scopes a) in
  toks2 ← add_semicolon_after_type_blocks toks1 (a_scopes a);
  let '(lines, line_scope) := split_into_lines toks2 in
  ls ← process_lines (a_scopes a) (a_scope_vars a) lines line_scope 0;
  Some (ls, a).

Inductive file_result :=
  | Exit2 (ln cl : Z)                                 (* [std::exit(2)] in [lex] *)
  | Wrote (outcpp : string) (known_types : gset string).

(** The body of the loop of [main] for a file that was read. *)
Definition translate (known_types : gset string) (src : list ascii)
  : option file_result :=
  let pre := preprocess_physical_lines src in
  r ← lex pre;
  match r with
  | LexArrow ln cl => Some (Exit2 ln cl)
  | LexOk toks =>
      '(ls, a) ← edited_lines known_types toks;
      Some (Wrote (foldr (fun l acc => (emit_line l ++ acc)%string) EmptyString ls)
              (a_known_types a))
  end.

(** [main] on the contents of the files named by the arguments ([None] for
    a file that cannot be read; writing is taken to succeed): the exit
    code and the outputs written, in order. *)
Fixpoint main_loop (files : list (option (list ascii)))
    (known_types : gset string) (exit_code : Z) (written : list string)
  : option (Z * list string) :=
  match files with
  | [] => Some (exit_code, written)
  | None :: files' => main_loop files' known_types 1%Z written
  | Some src :: files' =>
      r ← translate known_types src;
      match r with
      | Exit2 _ _ => Some (2%Z, written)
      | Wrote out known' => main_loop files' known' exit_code (written ++ [out])
      end
  end.

Definition main (files : list (option (list ascii))) : option (Z * list string) :=
  match files with
  | [] => Some (1%Z, [])
  | _ => main_loop files builtin_types 0%Z []
  end.

(** ** Specification-level definitions

    These follow the words of the specification, not the code; the
    theorems below compare them with the embedded functions. *)

(** "Every [\r\n] and lone [\r] is replaced by [\n]." *)
Fixpoint crlf_to_lf (s : list ascii) : list ascii :=
  match s with
  | [] => []
  | c :: r =>
      if ch_eq c ch_cr then
        match r with
        | d :: r' =>
            if ch_eq d ch_nl then ch_nl :: crlf_to_lf r'
            else ch_nl :: crlf_to_lf r
        | [] => [ch_nl]
        end
      else c :: crlf_to_lf r
  end.

(** Some backslash of [s] is immediately followed by a newline. *)
Fixpoint has_continuation (s : list ascii) : bool :=
  match s with
  | [] => false
  | c :: r => (ch_eq c ch_bs && next_is ch_nl r) || has_continuation r
  end.

(** "Every backslash immediately followed by [\n] is removed along with
    that newline", and nothing else: each character of the text is judged
    by its neighbours in the text itself.  It goes when it is a backslash
    with a newline after it, or a newline with a backslash before it, and
    stays otherwise; [prev] is the character before [t]. *)
Fixpoint without_continuations (prev : option ascii) (t : list ascii)
  : list ascii :=
  match t with
  | [] => []
  | c :: r =>
      let goes :=
        (ch_eq c ch_bs && next_is ch_nl r) ||
        (match prev with Some b => ch_eq b ch_bs | None => false end &&
         ch_eq c ch_nl) in
      (if goes then [] else [c]) ++ without_continuations (Some c) r
  end.

(** Where a character of the normalized text lies, as section 4.2 of the
    specification divides it: in code, in a [//] comment, in a block
    comment, in a string literal, or in a preprocessor line. *)
Inductive region :=
  | InCode | InLineComment | InBlockComment | InString | InPreprocessor.

(** [arrow_in_code rg s]: scanning [s] from region [rg], a [-] that
    starts an operator in code is immediately followed by [>].  The [-]
    that ends the operator [--] does not start one. *)
Fixpoint arrow_in_code (rg : region) (s : list ascii) {struct s} : bool :=
  match s with
  | [] => false
  | c :: r =>
    match rg with
    | InCode =>
        if ch_eq c "#" then arrow_in_code InPreprocessor r
        else if ch_eq c "/" then
          match r with
          | d :: r' =>
              if ch_eq d "/" then arrow_in_code InLineComment r'
              else if ch_eq d "*" then arrow_in_code InBlockComment r'
              else arrow_in_code InCode r
          | [] => false
          end
        else if ch_eq c ch_dq then arrow_in_code InString r
        else if ch_eq c "-" then
          match r with
          | d :: r' =>
              if ch_eq d ">" then true
              else if ch_eq d "-" then arrow_in_code InCode r'
              else arrow_in_code InCode r
          | [] => false
          end
        else arrow_in_code InCode r
    | InLineComment =>
        if ch_eq c ch_nl then arrow_in_code InCode r
        else arrow_in_code InLineComment r
    | InPreprocessor =>
        if ch_eq c ch_nl then arrow_in_code InCode r
        else arrow_in_code InPreprocessor r
    | InBlockComment =>
        match r with
        | d :: r' =>
            if ch_eq c "*" && ch_eq d "/" then arrow_in_code InCode r'
            else arrow_in_code InBlockComment r
        | [] => false
        end
    | InString =>
        if ch_eq c ch_bs then
          match r with
          | _ :: r' => arrow_in_code InString r'
          | [] => false
          end
        else if ch_eq c ch_dq then arrow_in_code InCode r
        else arrow_in_code InString r
    end
  end.

(** The wording "a [->] outside a comment or string": the text holds
    [-] [>] somewhere outside a comment and a string literal, whatever
    stands before the [-]. *)
Fixpoint arrow_outside_comment_and_string (rg : region) (s : list ascii)
    {struct s} : bool :=
  match s with
  | [] => false
  | c :: r =>
    match rg with
    | InCode | InPreprocessor =>
        if ch_eq c "/" then
          match r with
          | d :: r' =>
              if ch_eq d "/" then arrow_outside_comment_and_string InLineComment r'
              else if ch_eq d "*"
              then arrow_outside_comment_and_string InBlockComment r'
              else arrow_outside_comment_and_string InCode r
          | [] => false
          end
        else if ch_eq c ch_dq then arrow_outside_comment_and_string InString r
        else if ch_eq c "-" && next_is ">" r then true
        else arrow_outside_comment_and_string InCode r
    | InLineComment =>
        if ch_eq c ch_nl then arrow_outside_comment_and_string InCode r
        else arrow_outside_comment_and_string InLineComment r
    | InBlockComment =>
        match r with
        | d :: r' =>
            if ch_eq c "*" && ch_eq d "/"
            then arrow_outside_comment_and_string InCode r'
            else arrow_outside_comment_and_string InBlockComment r
        | [] => false
        end
    | InString =>
        if ch_eq c ch_bs then
          match r with
          | _ :: r' => arrow_outside_comment_and_string InString r'
          | [] => false
          end
        else if ch_eq c ch_dq then arrow_outside_comment_and_string InCode r
        else arrow_outside_comment_and_string InString r
    end
  end.

(** A character that neither opens a region nor starts an arrow. *)
Definition neutral (c : ascii) : bool :=
  negb (ch_eq c "#" || ch_eq c "/" || ch_eq c ch_dq || ch_eq c "-").

(** The outcome of the lexer agrees with the scan of the regions. *)
Definition lex_agrees (s : list ascii) (r : option lex_result) : Prop :=
  if arrow_in_code InCode s
  then exists ln cl, r = Some (LexArrow ln cl)
  else exists toks, r = Some (LexOk toks).

(** Whether [translate] ended the process with code 2. *)
Definition exits_2 (r : option file_result) : Prop :=
  exists ln cl, r = Some (Exit2 ln cl).

(** "Scan forward to the next [;] or [}] and take the last Identifier
    seen in that range." *)
Definition typedef_terminator (t : Token) : bool :=
  ty_is t Punct && (txt_is t ";" || txt_is t "}").

Fixpoint before_terminator (l : list Token) : list Token :=
  match l with
  | [] => []
  | t :: l' => if typedef_terminator t then [] else t :: before_terminator l'
  end.

Definition last_identifier (l : list Token) : option Token :=
  last (filter (fun t => type t = Identifier) l).

(** The name a [typedef] keyword at position [i] contributes. *)
Definition typedef_name (tk : list Token) (i : nat) : option string :=
  text <$> last_identifier (before_terminator (drop (S i) tk)).


(** "Scope ids are assigned in creation order": the parent of a scope
    was created before it. *)
Definition parents_first (scopes : list Scope) : Prop :=
  forall k sc, scopes !! k = Some sc -> (parent sc < Z.of_nat k)%Z.

(** The invariant of the scope tree during the analysis: parents come
    first, every scope but the root has a parent, and the current scope
    is one of the tree. *)
Definition scopes_wf (scopes : list Scope) (cur : Z) : Prop :=
  parents_first scopes /\
  (forall k sc, scopes !! k = Some sc -> k <> 0 -> (0 <= parent sc)%Z) /\
  (0 <= cur < Z.of_nat (length scopes))%Z.

(** "Look at the next non-Preprocessor token." *)
Fixpoint next_code_token (l : list Token) : option Token :=
  match l with
  | [] => None
  | t :: l' => if ty_is t Preprocessor then next_code_token l' else Some t
  end.

(** "An Identifier, a [*] Operator, or a [(], [[], or [;] Punct." *)
Definition declarator_or_terminator (n : Token) : bool :=
  ty_is n Identifier || tok_op n "*" ||
  (ty_is n Punct && (txt_is n "(" || txt_is n "[" || txt_is n ";")).

Definition leaves_closer_alone (rest : list Token) : bool :=
  match next_code_token rest with
  | Some n => declarator_or_terminator n
  | None => false
  end.

(** "For each [}] whose scope has kind Struct, Union, or Enum: ...
    leave the closer alone ... Otherwise, insert a [;] Punct token
    immediately after the [}]." *)
Fixpoint terminate_type_blocks (scopes : list Scope) (toks : list Token)
  : list Token :=
  match toks with
  | [] => []
  | t :: rest =>
      if closes_type_block scopes t && negb (leaves_closer_alone rest)
      then t :: retag t Punct ";" :: terminate_type_blocks scopes rest
      else t :: terminate_type_blocks scopes rest
  end.

(** [nm] has no variable record in scope [cur] nor in any ancestor up to
    the root, whose parent is -1. *)
Inductive no_record (scopes : list Scope)
    (scope_vars : list (gmap string VarInfo)) (nm : string) : Z -> Prop :=
  | no_record_root : no_record scopes scope_vars nm (-1)
  | no_record_scope (cur : Z) (m : gmap string VarInfo) (sc : Scope) :
      (0 <= cur)%Z ->
      scope_vars !! Z.to_nat cur = Some m ->
      m !! nm = None ->
      scopes !! Z.to_nat cur = Some sc ->
      no_record scopes scope_vars nm (parent sc) ->
      no_record scopes scope_vars nm cur.

(** The wrapping of a base [x] whose dot [d] selects [f]:
    [( * x ) -> f], the new tokens copied from [x] and [d]. *)
Definition wrapped_once (x d f : Token) : list Token :=
  [ retag x Punct "("; retag x Operator "*"; x;
    retag d Punct ")"; retag d Operator "->"; f ].

(** [post] does not go on with [. IDENT]. *)
Definition chain_ends (post : list Token) : Prop :=
  is_p post 0 "." && TKIs post 1 Identifier None = false.

(** Token shapes, as propositions. *)
Definition punct (t : Token) (p : string) : Prop := type t = Punct /\ text t = p.
Definition oper (t : Token) (o : string) : Prop :=
  type t = Operator /\ text t = o.
Definition ctrl_keyword (t : Token) : Prop :=
  type t = Keyword /\
  (text t = "if" \/ text t = "for" \/ text t = "while" \/ text t = "switch")%string.
Definition value_end (t : Token) : Prop :=
  type t = Identifier \/ type t = Number \/ type t = StringLit \/
  punct t ")" \/ punct t "]".

(** A segment of a member chain: a [.] and the Identifier it selects; the
    tokens of a chain of segments. *)
Definition segment (s : Token * Token) : Prop :=
  punct s.1 "." /\ type s.2 = Identifier.

Definition chain_tokens (segs : list (Token * Token)) : list Token :=
  flat_map (fun s => [s.1; s.2]) segs.

(** "Each wrapping dereferences one level until [cur_ptr] reaches 1, at
    which point the [.] becomes [->]", one segment at a time: what the
    chain [segs] becomes behind the expression [h :: rest] of effective
    pointer depth [depth].  At depth 1 the [.] becomes [->] and the depth
    stays; at a depth of 2 or more the whole expression so far is wrapped
    as [( * ... ) -> f], the [(] and [*] copied from the first token and
    the [)] from the [.], and the depth goes down by one; at depth 0 the
    [.] stays. *)
Fixpoint chain_rewritten (depth : Z) (h : Token) (rest : list Token)
    (segs : list (Token * Token)) : list Token :=
  match segs with
  | [] => h :: rest
  | (d, f) :: segs' =>
      if (depth =? 1)%Z then
        chain_rewritten depth h (rest ++ [retag d Operator "->"; f]) segs'
      else if (1 <? depth)%Z then
        chain_rewritten (depth - 1) (retag h Punct "(")
          (retag h Operator "*" :: h :: rest ++
           [retag d Punct ")"; retag d Operator "->"; f]) segs'
      else chain_rewritten depth h (rest ++ [d; f]) segs'
  end.

(** "A line needs a terminator iff all of the following hold", read as
    the conjunction the specification lists. *)
Definition listed_conditions (ln : list Token) (scope_kind : string) : Prop :=
  exists first lst,
    head ln = Some first /\ last ln = Some lst /\
    scope_kind <> "Enum"%string /\
    type first <> Preprocessor /\
    ~ punct lst "{" /\ ~ punct lst ";" /\
    (punct lst "}" ->
       (exists t, t ∈ removelast ln /\ oper t "=") /\
       (exists t, t ∈ removelast ln /\ punct t "{")) /\
    ((exists t, t ∈ ln /\ ctrl_keyword t) -> ~ punct lst ")") /\
    value_end lst.

(** The same conditions with the initializer-list case as an alternative
    to the last one: a line ending in [}] is terminated when it holds a
    [=] and a [{] before that [}]. *)
Definition needs_terminator (ln : list Token) (scope_kind : string) : Prop :=
  exists first lst,
    head ln = Some first /\ last ln = Some lst /\
    scope_kind <> "Enum"%string /\
    type first <> Preprocessor /\
    ((punct lst "}" /\
        (exists t, t ∈ removelast ln /\ oper t "=") /\
        (exists t, t ∈ removelast ln /\ punct t "{")) \/
     (~ punct lst "}" /\ ~ punct lst "{" /\ ~ punct lst ";" /\
      ((exists t, t ∈ ln /\ ctrl_keyword t) -> ~ punct lst ")") /\
      value_end lst)).

(** ** Inputs of the examples *)

(** The tokens of a text. *)
Definition tokens_of (s : string) : list Token :=
  match lex (preprocess_physical_lines (bytes s)) with
  | Some (LexOk toks) => toks
  | _ => []
  end.

(** The analysis of a text under the built-in types. *)
Definition analysis_of (s : string) : option analysis :=
  match lex (preprocess_physical_lines (bytes s)) with
  | Some (LexOk toks) => analyze_scopes_and_vars toks builtin_types
  | _ => None
  end.

Definition initial_analysis (tk : list Token) : analysis :=
  mkAnalysis tk [mkScope 0 (-1) "Global" EmptyString] [∅] builtin_types 0
    EmptyString EmptyString ∅.

(** Type and text of a token; the lines of a text as they reach the
    emitter; the text written for it. *)
Definition tok_view (t : Token) : TokenType * string := (type t, text t).

Definition edited_views (s : string)
  : option (list (list (TokenType * string))) :=
  '(ls, _) ← edited_lines builtin_types (tokens_of s);
  Some (map (map tok_view) ls).

Definition written_text (s : string) : option string :=
  match translate builtin_types (bytes s) with
  | Some (Wrote outcpp _) => Some outcpp
  | _ => None
  end.


(** What the name [nm] resolves to in the global scope of [s]. *)
Definition global_record (s : string) (nm : string) : option (Z * Z) :=
  a ← analysis_of s;
  resolve_ptr_level (a_scopes a) (a_scope_vars a) 0 nm.

(** Texts with an arrow in code, in a preprocessor line, behind the
    operator [--], and inside comments and a string literal. *)
Definition arrow_text : list ascii := bytes ("q = a->b" ++ nl).
Definition define_text : list ascii := bytes ("#define A p->x" ++ nl).
Definition countdown_text : list ascii := bytes ("while (n-->0) f(n)" ++ nl).
(** A [-] and a [>] that only the splicing of a continuation brings
    together. *)
Definition spliced_text : list ascii := bytes ("q = a-\" ++ nl ++ ">b" ++ nl).
Definition quoted_text : list ascii :=
  bytes ("x = 1 // a->b" ++ nl ++ "/* c->d */ s = " ++
         String ch_dq "e->f" ++ String ch_dq nl).

(** The state before the first iteration of the analysis of
    [typedef int T;], and after it. *)
Definition typedef_int_before : analysis :=
  initial_analysis (tokens_of "typedef int T;").
Definition typedef_int_after : analysis :=
  default typedef_int_before (analyze_step 0 typedef_int_before).

(** A function taking an array of pointers, and a use of it in the body. *)
Definition array_param_text : string :=
  "struct Vec2 { int x; }" ++ nl ++
  "void f(Vec2* a[4]) {" ++ nl ++
  "a[0].x = 1" ++ nl ++
  "}" ++ nl.




Definition struct_text : string := "struct S { int x; int y; }" ++ nl.

(** The tokens of [struct_text] after the analysis, with its scopes. *)
Definition struct_tokens : list Token :=
  match analysis_of struct_text with
  | Some a => a_tk a
  | None => []
  end.
Definition struct_scopes : list Scope :=
  match analysis_of struct_text with
  | Some a => a_scopes a
  | None => []
  end.

(** The [}] that closes the struct of [struct_text] (token 9). *)
Definition struct_closer : Token :=
  default (mkToken Unknown EmptyString 0 0 0) (struct_tokens !! 9).

(** A declared pointer [p] and a chain through members that are not
    variables. *)
Definition chain_text : string := "T* p;" ++ nl ++ "p.u.v" ++ nl.
Definition chain_analysis : analysis :=
  default (initial_analysis []) (analysis_of chain_text).
Definition chain_scopes : list Scope := a_scopes chain_analysis.
Definition chain_vars : list (gmap string VarInfo) :=
  a_scope_vars chain_analysis.
(** The second line, [p . u . v]. *)
Definition chain_line : list Token := drop 4 (a_tk chain_analysis).

(** A pointer of level 4 and one member access through it. *)
Definition deep_text : string := "T**** x;" ++ nl ++ "x.f" ++ nl.
Definition deep_analysis : analysis :=
  default (initial_analysis []) (analysis_of deep_text).
Definition deep_scopes : list Scope := a_scopes deep_analysis.
Definition deep_vars : list (gmap string VarInfo) := a_scope_vars deep_analysis.
(** The second line, [x . f] (tokens 7 to 9, after [T * * * * x ;]). *)
Definition deep_line : list Token := drop 7 (a_tk deep_analysis).

(** The token texts of the form with three wrappings and one arrow. *)
Definition three_wrappings : list string :=
  [ "("; "*"; "("; "*"; "("; "*"; "x"; ")"; ")"; ")"; "->"; "f" ]%string.

(** The line [x = { }]. *)
Definition init_list_line : list Token :=
  [ mkToken Identifier "x" 1 1 0; mkToken Operator "=" 1 3 0;
    mkToken Punct "{" 1 5 0; mkToken Punct "}" 1 7 0 ].

(** The lines [p . x], [p -> x] and [f ( a , v [ 0 ] ) ;]. *)
Definition dot_line : list Token :=
  [ mkToken Identifier "p" 2 1 0; mkToken Punct "." 2 2 0;
    mkToken Identifier "x" 2 3 0 ].
Definition arrow_line : list Token :=
  [ mkToken Identifier "p" 2 1 0; mkToken Operator "->" 2 2 0;
    mkToken Identifier "x" 2 3 0 ].
Definition call_line : list Token :=
  [ mkToken Identifier "f" 1 1 0; mkToken Punct "(" 1 2 0;
    mkToken Identifier "a" 1 3 0; mkToken Punct "," 1 4 0;
    mkToken Identifier "v" 1 5 0; mkToken Punct "[" 1 6 0;
    mkToken Number "0" 1 7 0; mkToken Punct "]" 1 8 0;
    mkToken Punct ")" 1 9 0; mkToken Punct ";" 1 10 0 ].

(** The input of the third scenario, and the same with the declaration
    terminated in the source. *)
Definition vec_text : string := "Vec2* p" ++ nl ++ "p.x = 3" ++ nl.
Definition vec_text_terminated : string := "Vec2* p;" ++ nl ++ "p.x = 3" ++ nl.
(** The same two lines with a built-in type. *)
Definition int_text : string := "int* p" ++ nl ++ "p.x = 3" ++ nl.

(** A case analysis over the 256 characters. *)
Ltac by_cases_on_char c :=
  destruct c as [[] [] [] [] [] [] [] []]; try discriminate; reflexivity.

(** ** Definitions for the further properties *)

(** A path separator; a character of a file name proper. *)
Definition is_sep (c : ascii) : bool := ch_eq c "/" || ch_eq c ch_bs.
Definition plain_char (c : ascii) : bool := negb (ch_eq c "." || is_sep c).

(** [dir] is empty or ends with a separator. *)
Definition dir_prefix (dir : list ascii) : Prop :=
  dir = [] \/ exists d0 c, dir = d0 ++ [c] /\ is_sep c = true.

(** One iteration of the loop of [lex] on the text [c :: r]: the arrow
    error, or the text left, the position and the token pushed. *)
Inductive lex_step_result :=
  | StepArrow (ln cl : Z)
  | StepNext (rest : list ascii) (ln cl : Z) (tok : option Token).

Definition lex_step (c : ascii) (r : list ascii) (ln cl : Z)
  : lex_step_result :=
  if ch_eq c ch_nl then StepNext r (ln + 1) 1 None
  else if isspace c then StepNext r ln (cl + 1) None
  else if ch_eq c "#" then
    let '(t, rest, cl') := scan_line (c :: r) cl in
    StepNext rest ln cl' (Some (lexed Preprocessor t ln cl))
  else if ch_eq c "/" && next_is "/" r then
    let '(_, rest, cl') := scan_line (tail r) (cl + 2) in
    StepNext rest ln cl' None
  else if ch_eq c "/" && next_is "*" r then
    let '(rest, ln', cl') := skip_block (tail r) ln (cl + 2) in
    StepNext rest ln' cl' None
  else if ch_eq c ch_dq then
    let '(t, rest, ln', cl') := scan_string r ln (cl + 1) in
    StepNext rest ln' cl' (Some (lexed StringLit (c :: t) ln' cl))
  else if isdigit c then
    let '(t, rest) := scan_number (c :: r) false in
    StepNext rest ln (cl + len t)%Z (Some (lexed Number t ln cl))
  else if isIdentStart c then
    let '(t, rest) := scan_ident r in
    let w := c :: t in
    let ty := if str_in (string_of_list_ascii w) make_keywords
              then Keyword else Identifier in
    StepNext rest ln (cl + len w)%Z (Some (lexed ty w ln cl))
  else if is_op_char c then
    match r with
    | d :: r' =>
        if ch_eq c "-" && ch_eq d ">" then StepArrow ln cl
        else if str_in (string_of_list_ascii [c; d]) two_char_ops then
          StepNext r' ln (cl + 2)%Z (Some (lexed Operator [c; d] ln cl))
        else StepNext r ln (cl + 1)%Z (Some (lexed Operator [c] ln cl))
    | [] => StepNext r ln (cl + 1)%Z (Some (lexed Operator [c] ln cl))
    end
  else if is_punct_char c then
    StepNext r ln (cl + 1)%Z (Some (lexed Punct [c] ln cl))
  else StepNext r ln (cl + 1)%Z (Some (lexed Unknown [c] ln cl)).

(** The characters of a token. *)
Definition chars (t : Token) : list ascii := list_ascii_of_string (text t).

(** What the text of a token of each type looks like when it comes from
    the lexer. *)
Definition token_shape (t : Token) : Prop :=
  scope_id t = 0%Z /\
  match type t, chars t with
  | Identifier, c :: w =>
      isIdentStart c = true /\ Forall (fun d => isIdentChar d = true) w /\
      str_in (text t) make_keywords = false
  | Keyword, _ => str_in (text t) make_keywords = true
  | Number, c :: w =>
      isdigit c = true /\
      Forall (fun d => isdigit d || ch_eq d "." = true) w
  | StringLit, c :: _ => c = ch_dq
  | Operator, [c] => is_op_char c = true
  | Operator, _ => str_in (text t) two_char_ops = true
  | Punct, [c] => is_punct_char c = true
  | Preprocessor, c :: w => c = "#"%char /\ ch_nl ∉ w
  | Unknown, [c] =>
      isspace c = false /\ is_op_char c = false /\ is_punct_char c = false /\
      isIdentStart c = false /\ isdigit c = false
  | _, _ => False
  end.

(** Tokens in the order of their lines. *)
Definition by_line (a b : Token) : Prop := (line a <= line b)%Z.

(** Two tokens that differ at most in their scope id. *)
Definition same_token (t u : Token) : Prop :=
  type u = type t /\ text u = text t /\ line u = line t /\ col u = col t.

(** The kinds of the scopes that a [{] opens, and the values of
    [pending_kind] between two iterations. *)
Definition opened_kinds : list string :=
  ["Function"; "Struct"; "Enum"; "Union"; "Block"]%string.

Definition pending_kinds : list string :=
  [EmptyString; "Function"; "Struct"; "Enum"; "Union"]%string.

(** The state of the analysis of [tk] before iteration [i]. *)
Definition analysis_inv (tk : list Token) (i : nat) (st : analysis) : Prop :=
  Forall2 same_token tk (a_tk st) /\
  drop i (a_tk st) = drop i tk /\
  (forall k u, k < i -> a_tk st !! k = Some u ->
     (0 <= scope_id u < Z.of_nat (length (a_scopes st)))%Z) /\
  length (a_scope_vars st) = length (a_scopes st) /\
  a_scopes st !! 0 = Some (mkScope 0 (-1) "Global" EmptyString) /\
  (forall k sc, a_scopes st !! k = Some sc ->
     id sc = Z.of_nat k /\ (k <> 0 -> kind sc ∈ opened_kinds)) /\
  a_pending_kind st ∈ pending_kinds /\
  scopes_wf (a_scopes st) (a_cur st).

(** The token at [k] makes [nm] a known type: a [typedef] whose scan ends
    on the Identifier [nm], or a [struct], [enum] or [union] keyword that
    the Identifier [nm] follows. *)
Definition declares_type (tk : list Token) (k : nat) (nm : string) : Prop :=
  (is_kw tk k "typedef" = true /\ typedef_name tk k = Some nm) \/
  (is_tag_kw tk k = true /\
   exists t, tk !! (k + 1) = Some t /\ type t = Identifier /\ text t = nm).

(** A pointer [p] declared in the global scope and again in the body of
    a function. *)
Definition shadow_text : string :=
  "T** p;" ++ nl ++ "void f() {" ++ nl ++ "T* p;" ++ nl ++ "p.x = q" ++ nl ++
  "}" ++ nl.
Definition shadow_analysis : analysis :=
  default (initial_analysis []) (analysis_of shadow_text).

(** A group of [split_into_lines] with its representative scope: the
    group is not empty, its tokens are on the line of the first one, and
    the scope is that of the first one. *)
Definition line_group (g : list Token) (s : Z) : Prop :=
  exists t r, g = t :: r /\ s = scope_id t /\
    Forall (fun u => line u = line t) r.

(** The line number of a group. *)
Definition line_of (g : list Token) : option Z := line <$> head g.

(** Two groups that follow each other are on different lines. *)
Definition lines_change (gs : list (list Token)) : Prop :=
  forall k g1 g2, gs !! k = Some g1 -> gs !! S k = Some g2 ->
    line_of g1 <> line_of g2.

(** The line with a [;] put before every [}] that follows a token ending
    a value ([prev] is the token before [l]); the [;] is a copy of that
    token. *)
Fixpoint semis_before_braces (prev : Token) (l : list Token) : list Token :=
  match l with
  | [] => []
  | t :: l' =>
      (if tok_p t "}" && value_closing prev
       then [retag prev Punct ";"] else []) ++
      t :: semis_before_braces t l'
  end.

Definition close_values (ln : list Token) : list Token :=
  match ln with
  | [] => []
  | t :: l => t :: semis_before_braces t l
  end.

(** A file that does not stop the run: one that cannot be read, or one
    whose text has no arrow where the lexer starts an operator. *)
Definition clean (f : option (list ascii)) : Prop :=
  match f with
  | Some src => arrow_in_code InCode (preprocess_physical_lines src) = false
  | None => True
  end.

(** The files that were read. *)
Definition readable (files : list (option (list ascii))) : list (list ascii) :=
  omap (fun f => f) files.

(** The edits of the member rewriter: a line and what it may become by
    keeping a token, turning a [.] into [->], or inserting a [(], a [*]
    or a [)]. *)
Inductive rewritten : list Token -> list Token -> Prop :=
  | rewritten_nil : rewritten [] []
  | rewritten_keep (t : Token) (l l' : list Token) :
      rewritten l l' -> rewritten (t :: l) (t :: l')
  | rewritten_arrow (t : Token) (l l' : list Token) :
      tok_p t "." = true -> rewritten l l' ->
      rewritten (t :: l) (retag t Operator "->" :: l')
  | rewritten_insert (u : Token) (l l' : list Token) :
      tok_p u "(" || tok_op u "*" || tok_p u ")" = true ->
      rewritten l l' -> rewritten l (u :: l').

(** A by-value object line: [v] is a [struct Vec2], [w] an array of them. *)
Definition value_text : string :=
  "struct Vec2 { int x; }" ++ nl ++ "struct Vec2 v, w[4];" ++ nl ++
  "v.x = w[1].x" ++ nl.
Definition value_analysis : analysis :=
  default (initial_analysis []) (analysis_of value_text).
(** The third line, [v . x = w [ 1 ] . x]. *)
Definition value_line : list Token := drop 16 (a_tk value_analysis).

(** A parameter as [parse_params] records it from the tokens between
    [lp] and [rp]: the name is an Identifier that follows [stars p] stars,
    and a name without a star follows the tag of a [struct], [enum] or
    [union]. *)
Definition recorded_param (tk : list Token) (lp rp : nat) (p : Param) : Prop :=
  exists k t ns,
    stars p = Z.of_nat ns /\ p_name p = text t /\
    tk !! k = Some t /\ type t = Identifier /\ lp < k - ns /\ k < rp /\
    (forall d, k - ns <= d < k -> is_op tk d "*" = true) /\
    (ns = 0 -> 2 <= k /\ lp < k - 2 /\ is_tag_kw tk (k - 2) = true).

(** The nesting depth that a run of tokens adds: one up for each opening
    bracket [o], one down for each closing bracket [c]. *)
Definition nesting (o c : string) (l : list Token) : Z :=
  foldr (fun t acc =>
           ((if tok_p t o then 1 else if tok_p t c then -1 else 0) + acc)%Z)
    0%Z l.

(** The bracket at [k] closes the one opened at [j]: the depth is back at
    0 at [k] for the first time. *)
Definition closes (o c : string) (tk : list Token) (j k : nat) : Prop :=
  j < k /\ is_p tk j o = true /\ is_p tk k c = true /\
  nesting o c (take (S (k - j)) (drop j tk)) = 0%Z /\
  forall n, 1 <= n <= k - j -> (1 <= nesting o c (take n (drop j tk)))%Z.


(** * Theorems *)

(** ** The line normalizer *)

Lemma ch_eq_true (a b : ascii) : ch_eq a b = true <-> a = b.
Proof. apply Ascii.eqb_eq. Qed.

Lemma ch_eq_false (a b : ascii) : ch_eq a b = false <-> a <> b.
Proof. apply Ascii.eqb_neq. Qed.

Lemma list_ind2 {A} (P : list A -> Prop) :
  P [] -> (forall a, P [a]) ->
  (forall a b l, P l -> P (b :: l) -> P (a :: b :: l)) ->
  forall l, P l.
Proof.
  intros H0 H1 H2 l.
  assert (H : P l /\ forall a, P (a :: l)); [|tauto].
  induction l as [|b l [IH1 IH2]]; split; auto.
Qed.

Lemma normalize_cr_spec (s : list ascii) : normalize_cr s = crlf_to_lf s.
Proof.
  induction s as [| a | a b l IHl IHbl] using list_ind2; [done| |].
  - simpl. by destruct (ch_eq a ch_cr).
  - change (normalize_cr (a :: b :: l)) with
      (if ch_eq a ch_cr
       then if ch_eq b ch_nl then normalize_cr (b :: l)
            else ch_nl :: normalize_cr (b :: l)
       else a :: normalize_cr (b :: l)).
    change (crlf_to_lf (a :: b :: l)) with
      (if ch_eq a ch_cr
       then if ch_eq b ch_nl then ch_nl :: crlf_to_lf l
            else ch_nl :: crlf_to_lf (b :: l)
       else a :: crlf_to_lf (b :: l)).
    rewrite IHbl.
    destruct (ch_eq a ch_cr); [|done].
    destruct (ch_eq b ch_nl) eqn:Eb; [|done].
    apply ch_eq_true in Eb as ->. simpl. by rewrite <- IHl.
Qed.

Lemma normalize_cr_no_cr (s : list ascii) : ch_cr ∉ normalize_cr s.
Proof.
  induction s as [|c r IH]; simpl; [apply not_elem_of_nil|].
  destruct (ch_eq c ch_cr) eqn:Ec.
  - destruct (next_is ch_nl r); [done|].
    apply not_elem_of_cons; split; [done|done].
  - apply not_elem_of_cons; split; [|done].
    apply ch_eq_false in Ec. congruence.
Qed.

Lemma splice_sublist (t : list ascii) : splice_continuations t `sublist_of` t.
Proof.
  induction t as [| a | a b l IHl IHbl] using list_ind2; [done|done|].
  change (splice_continuations (a :: b :: l)) with
    (if ch_eq a ch_bs && ch_eq b ch_nl then splice_continuations l
     else a :: splice_continuations (b :: l)).
  destruct (ch_eq a ch_bs && ch_eq b ch_nl).
  - by do 2 apply sublist_cons.
  - by apply sublist_skip.
Qed.

Lemma normalize_cr_id (s : list ascii) : ch_cr ∉ s -> normalize_cr s = s.
Proof.
  induction s as [|c r IH]; simpl; [done|].
  intros [Hc Hr]%not_elem_of_cons.
  destruct (ch_eq c ch_cr) eqn:Ec.
  - apply ch_eq_true in Ec. congruence.
  - by rewrite IH.
Qed.

Lemma splice_id (s : list ascii) :
  has_continuation s = false -> splice_continuations s = s.
Proof.
  induction s as [| a | a b l IHl IHbl] using list_ind2; [done|done|].
  change (splice_continuations (a :: b :: l)) with
    (if ch_eq a ch_bs && ch_eq b ch_nl then splice_continuations l
     else a :: splice_continuations (b :: l)).
  change (has_continuation (a :: b :: l)) with
    ((ch_eq a ch_bs && ch_eq b ch_nl) || has_continuation (b :: l)).
  intros [-> H]%orb_false_elim. by rewrite IHbl.
Qed.

Lemma preprocess_no_cr (s : list ascii) : ch_cr ∉ preprocess_physical_lines s.
Proof.
  intros H. apply (normalize_cr_no_cr s).
  eapply (sublist_subseteq _ _ (splice_sublist _)), H.
Qed.

Lemma preprocess_id (s : list ascii) :
  ch_cr ∉ s -> has_continuation s = false -> preprocess_physical_lines s = s.
Proof.
  intros Hcr Hc. unfold preprocess_physical_lines.
  rewrite normalize_cr_id by done. by apply splice_id.
Qed.

(** Each continuation is removed with its newline, whatever surrounds it. *)
Lemma splice_removes_pair (pre post : list ascii) :
  splice_continuations (pre ++ ch_bs :: ch_nl :: post) =
  splice_continuations pre ++ splice_continuations post.
Proof.
  induction pre as [| a | a b l IHl IHbl] using list_ind2.
  - done.
  - simpl. destruct (ch_eq a ch_bs); done.
  - change (splice_continuations ((a :: b :: l) ++ ch_bs :: ch_nl :: post)) with
      (if ch_eq a ch_bs && ch_eq b ch_nl
       then splice_continuations (l ++ ch_bs :: ch_nl :: post)
       else a :: splice_continuations ((b :: l) ++ ch_bs :: ch_nl :: post)).
    change (splice_continuations (a :: b :: l)) with
      (if ch_eq a ch_bs && ch_eq b ch_nl then splice_continuations l
       else a :: splice_continuations (b :: l)).
    rewrite IHl, IHbl. by destruct (ch_eq a ch_bs && ch_eq b ch_nl).
Qed.

(** The second loop, which skips two characters at a backslash-newline,
    removes exactly the characters that the text itself marks. *)
Lemma splice_continuations_spec (t : list ascii) :
  forall prev,
    match prev with Some b => ch_eq b ch_bs | None => false end &&
    next_is ch_nl t = false ->
    splice_continuations t = without_continuations prev t.
Proof.
  induction t as [| a | a b l IHl IHbl] using list_ind2; intros prev Hprev.
  - done.
  - simpl in *. rewrite andb_false_r. simpl. by rewrite Hprev.
  - change (splice_continuations (a :: b :: l)) with
      (if ch_eq a ch_bs && ch_eq b ch_nl then splice_continuations l
       else a :: splice_continuations (b :: l)).
    change (without_continuations prev (a :: b :: l)) with
      ((if (ch_eq a ch_bs && ch_eq b ch_nl) ||
           (match prev with Some b => ch_eq b ch_bs | None => false end &&
            ch_eq a ch_nl)
        then [] else [a]) ++
       (if (ch_eq b ch_bs && next_is ch_nl l) || (ch_eq a ch_bs && ch_eq b ch_nl)
        then [] else [b]) ++
       without_continuations (Some b) l).
    change (next_is ch_nl (a :: b :: l)) with (ch_eq a ch_nl) in Hprev.
    rewrite Hprev, orb_false_r.
    destruct (ch_eq a ch_bs && ch_eq b ch_nl) eqn:Epair.
    + rewrite orb_true_r. simpl. apply IHl.
      apply andb_true_iff in Epair as [_ Hb]. apply ch_eq_true in Hb as ->.
      done.
    + rewrite (IHbl (Some a) Epair).
      change (without_continuations (Some a) (b :: l)) with
        ((if (ch_eq b ch_bs && next_is ch_nl l) ||
             (ch_eq a ch_bs && ch_eq b ch_nl)
          then [] else [b]) ++ without_continuations (Some b) l).
      rewrite Epair, !orb_false_r. reflexivity.
Qed.

(** C8, as amended: the normalizer replaces every CR LF pair and every
    lone CR by LF and then removes every backslash that a newline
    follows, with that newline, and nothing else; its output has no CR;
    it leaves a text without CR and without backslash-newline as it is
    (no other edits); and it returns its own output unchanged whenever
    that output has no backslash immediately followed by a newline. *)
Theorem C8_normalizer_contract (s : list ascii) :
  preprocess_physical_lines s = without_continuations None (crlf_to_lf s) /\
  (ch_cr ∉ preprocess_physical_lines s) /\
  (ch_cr ∉ s -> has_continuation s = false ->
   preprocess_physical_lines s = s) /\
  (has_continuation (preprocess_physical_lines s) = false ->
   preprocess_physical_lines (preprocess_physical_lines s) =
   preprocess_physical_lines s).
Proof.
  split; [|split; [|split]].
  - unfold preprocess_physical_lines.
    by rewrite normalize_cr_spec, (splice_continuations_spec _ None).
  - apply preprocess_no_cr.
  - apply preprocess_id.
  - intros H. apply preprocess_id; [apply preprocess_no_cr | exact H].
Qed.

Lemma C8_normalizer_contract_witness :
  let s := bytes ("a" ++ String ch_cr nl ++ "b\" ++ nl ++ "c") in
  preprocess_physical_lines (preprocess_physical_lines s) =
  preprocess_physical_lines s.
Proof.
  intros s.
  apply (proj2 (proj2 (proj2 (C8_normalizer_contract s)))).
  vm_compute. reflexivity.
Defined.

(** The normalizer is not idempotent: on backslash, backslash, newline,
    newline the first pass leaves backslash, newline, which a second
    pass removes. *)
Lemma C8_not_idempotent :
  let s := [ch_bs; ch_bs; ch_nl; ch_nl] in
  preprocess_physical_lines s = [ch_bs; ch_nl] /\
  preprocess_physical_lines (preprocess_physical_lines s) <>
  preprocess_physical_lines s.
Proof. split; [reflexivity | vm_compute; discriminate]. Qed.

(** ** The lexer and the forbidden arrow *)

Lemma isspace_neutral (c : ascii) : isspace c = true -> neutral c = true.
Proof. by_cases_on_char c. Qed.

Lemma isdigit_neutral (c : ascii) : isdigit c = true -> neutral c = true.
Proof. by_cases_on_char c. Qed.

Lemma isIdentChar_neutral (c : ascii) : isIdentChar c = true -> neutral c = true.
Proof. by_cases_on_char c. Qed.

Lemma isIdentStart_neutral (c : ascii) :
  isIdentStart c = true -> neutral c = true.
Proof. by_cases_on_char c. Qed.

Lemma nl_neutral (c : ascii) : ch_eq c ch_nl = true -> neutral c = true.
Proof. by_cases_on_char c. Qed.

Lemma dot_neutral (c : ascii) : ch_eq c "." = true -> neutral c = true.
Proof. by_cases_on_char c. Qed.

Lemma not_op_neutral (c : ascii) :
  ch_eq c "#" = false -> ch_eq c ch_dq = false -> is_op_char c = false ->
  neutral c = true.
Proof. by_cases_on_char c. Qed.

Lemma arrow_neutral (c : ascii) (r : list ascii) :
  neutral c = true -> arrow_in_code InCode (c :: r) = arrow_in_code InCode r.
Proof.
  unfold neutral. intros H. apply negb_true_iff in H.
  apply orb_false_elim in H as [H H4]. apply orb_false_elim in H as [H H3].
  apply orb_false_elim in H as [H1 H2].
  simpl. by rewrite H1, H2, H3, H4.
Qed.

Lemma arrow_single (c : ascii) : arrow_in_code InCode [c] = false.
Proof.
  simpl. destruct (ch_eq c "#"); [done|]. destruct (ch_eq c "/"); [done|].
  destruct (ch_eq c ch_dq); [done|]. by destruct (ch_eq c "-").
Qed.

Lemma scan_line_spec (s : list ascii) :
  forall cl t rest cl', scan_line s cl = (t, rest, cl') ->
    length rest <= length s /\
    arrow_in_code InLineComment s = arrow_in_code InCode rest /\
    arrow_in_code InPreprocessor s = arrow_in_code InCode rest.
Proof.
  induction s as [|c r IH]; intros cl t rest cl' H; simpl in H.
  - by injection H as <- <- <-.
  - destruct (ch_eq c ch_nl) eqn:Ec.
    + injection H as <- <- <-. simpl length. split; [lia|].
      rewrite (arrow_neutral c r (nl_neutral c Ec)). simpl. by rewrite Ec.
    + destruct (scan_line r (cl + 1)) as [[t0 rest0] cl0] eqn:Er.
      injection H as <- <- <-.
      destruct (IH _ _ _ _ Er) as (Hlen & H1 & H2).
      simpl. rewrite Ec. split; [lia | done].
Qed.

Lemma skip_block_spec (s : list ascii) :
  forall ln cl rest ln' cl', skip_block s ln cl = (rest, ln', cl') ->
    length rest <= length s /\
    arrow_in_code InBlockComment s = arrow_in_code InCode rest.
Proof.
  induction s as [|c r IH]; intros ln cl rest ln' cl' H.
  - simpl in H. by injection H as <- <- <-.
  - destruct r as [|d r'].
    + simpl in H. injection H as <- <- <-. split; [done|].
      by rewrite arrow_single.
    + change (skip_block (c :: d :: r') ln cl) with
        (if ch_eq c ch_nl then skip_block (d :: r') (ln + 1) 1
         else if ch_eq c "*" && ch_eq d "/" then (r', ln, (cl + 2)%Z)
         else skip_block (d :: r') ln (cl + 1)) in H.
      change (arrow_in_code InBlockComment (c :: d :: r')) with
        (if ch_eq c "*" && ch_eq d "/" then arrow_in_code InCode r'
         else arrow_in_code InBlockComment (d :: r')).
      destruct (ch_eq c ch_nl) eqn:Enl.
      * assert (ch_eq c "*" = false) as ->
          by (revert Enl; by_cases_on_char c).
        destruct (IH _ _ _ _ _ H) as [Hlen Harr].
        simpl in *. split; [lia | done].
      * destruct (ch_eq c "*" && ch_eq d "/").
        -- injection H as <- <- <-. simpl. split; [lia | done].
        -- destruct (IH _ _ _ _ _ H) as [Hlen Harr].
           simpl in *. split; [lia | done].
Qed.

Lemma scan_string_spec (n : nat) :
  forall s, length s <= n ->
  forall ln cl t rest ln' cl', scan_string s ln cl = (t, rest, ln', cl') ->
    length rest <= length s /\
    arrow_in_code InString s = arrow_in_code InCode rest.
Proof.
  induction n as [|n IH]; intros s Hn ln cl t rest ln' cl' H.
  - destruct s; [|simpl in Hn; lia]. simpl in H. by injection H as <- <- <- <-.
  - destruct s as [|d r]; [simpl in H; by injection H as <- <- <- <-|].
    simpl in Hn. simpl in H. simpl arrow_in_code.
    destruct (ch_eq d ch_bs) eqn:Ebs.
    + destruct r as [|e r'].
      * injection H as <- <- <- <-. simpl. split; [lia | done].
      * destruct (scan_string r' ln (cl + 2)) as [[[t0 rest0] ln0] cl0] eqn:Er.
        injection H as <- <- <- <-.
        destruct (IH r' ltac:(simpl in Hn; lia) _ _ _ _ _ _ Er) as [Hlen Harr].
        simpl. split; [lia | done].
    + destruct (ch_eq d ch_dq) eqn:Edq.
      * injection H as <- <- <- <-. simpl. split; [lia | done].
      * destruct (ch_eq d ch_nl).
        -- destruct (scan_string r (ln + 1) 1) as [[[t0 rest0] ln0] cl0] eqn:Er.
           injection H as <- <- <- <-.
           destruct (IH r ltac:(lia) _ _ _ _ _ _ Er) as [Hlen Harr].
           simpl. split; [lia | done].
        -- destruct (scan_string r ln (cl + 1)) as [[[t0 rest0] ln0] cl0] eqn:Er.
           injection H as <- <- <- <-.
           destruct (IH r ltac:(lia) _ _ _ _ _ _ Er) as [Hlen Harr].
           simpl. split; [lia | done].
Qed.

Lemma scan_number_spec (s : list ascii) :
  forall dot t rest, scan_number s dot = (t, rest) ->
    length rest <= length s /\
    arrow_in_code InCode s = arrow_in_code InCode rest.
Proof.
  induction s as [|d r IH]; intros dot t rest H; simpl in H.
  - by injection H as <- <-.
  - destruct (isdigit d) eqn:Ed.
    + destruct (scan_number r dot) as [t0 rest0] eqn:Er.
      injection H as <- <-. destruct (IH _ _ _ Er) as [Hlen Harr].
      rewrite (arrow_neutral d r (isdigit_neutral d Ed)).
      simpl. split; [lia | done].
    + destruct (ch_eq d "." && negb dot) eqn:Edot.
      * destruct (scan_number r true) as [t0 rest0] eqn:Er.
        injection H as <- <-. destruct (IH _ _ _ Er) as [Hlen Harr].
        apply andb_true_iff in Edot as [Edot _].
        rewrite (arrow_neutral d r (dot_neutral d Edot)).
        simpl. split; [lia | done].
      * by injection H as <- <-.
Qed.

Lemma scan_ident_spec (s : list ascii) :
  forall t rest, scan_ident s = (t, rest) ->
    length rest <= length s /\
    arrow_in_code InCode s = arrow_in_code InCode rest.
Proof.
  induction s as [|d r IH]; intros t rest H; simpl in H.
  - by injection H as <- <-.
  - destruct (isIdentChar d) eqn:Ed.
    + destruct (scan_ident r) as [t0 rest0] eqn:Er.
      injection H as <- <-. destruct (IH _ _ eq_refl) as [Hlen Harr].
      rewrite (arrow_neutral d r (isIdentChar_neutral d Ed)).
      simpl. split; [lia | done].
    + by injection H as <- <-.
Qed.

Lemma two_char_op_scan (c d : ascii) (r : list ascii) :
  str_in (string_of_list_ascii [c; d]) two_char_ops = true ->
  arrow_in_code InCode (c :: d :: r) = arrow_in_code InCode r.
Proof.
  unfold str_in, two_char_ops. cbn [existsb string_of_list_ascii].
  rewrite !orb_true_iff, !String.eqb_eq.
  intros H.
  repeat (destruct H as [H|H]); try done; injection H as -> ->; reflexivity.
Qed.

Lemma op_not_neutral (c : ascii) :
  is_op_char c = true -> neutral c = false -> c = "/"%char \/ c = "-"%char.
Proof.
  destruct c as [[] [] [] [] [] [] [] []]; try discriminate; auto.
Qed.

Lemma single_op_scan (c : ascii) (r : list ascii) :
  is_op_char c = true ->
  ch_eq c "/" && next_is "/" r = false ->
  ch_eq c "/" && next_is "*" r = false ->
  match r with
  | d :: _ => ch_eq c "-" && ch_eq d ">" = false /\
              str_in (string_of_list_ascii [c; d]) two_char_ops = false
  | [] => True
  end ->
  arrow_in_code InCode (c :: r) = arrow_in_code InCode r.
Proof.
  intros Hop Hlc Hbc Hr.
  destruct (neutral c) eqn:Hn; [by apply arrow_neutral|].
  destruct (op_not_neutral c Hop Hn) as [-> | ->].
  - destruct r as [|d r']; [done|]. simpl in Hlc, Hbc. simpl.
    by rewrite Hlc, Hbc.
  - destruct r as [|d r']; [done|]. destruct Hr as [Harrow Htwo].
    simpl in Harrow. simpl. rewrite Harrow.
    destruct (ch_eq d "-") eqn:Ed; [|done].
    apply ch_eq_true in Ed as ->. discriminate Htwo.
Qed.

Lemma lex_agrees_eq (s s' : list ascii) (r : option lex_result) :
  arrow_in_code InCode s = arrow_in_code InCode s' ->
  lex_agrees s' r -> lex_agrees s r.
Proof. unfold lex_agrees. by intros ->. Qed.

Lemma lex_loop_agrees (fuel : nat) :
  forall s ln cl out, length s <= fuel ->
    lex_agrees s (lex_loop fuel s ln cl out).
Proof.
  induction fuel as [|fuel IH]; intros s ln cl out Hlen.
  { destruct s; [|simpl in Hlen; lia]. unfold lex_agrees. simpl. by eexists. }
  destruct s as [|c r]; [unfold lex_agrees; simpl; by eexists|].
  simpl in Hlen. cbn [lex_loop].
  destruct (ch_eq c ch_nl) eqn:Enl.
  { eapply lex_agrees_eq; [apply arrow_neutral, nl_neutral, Enl|].
    apply IH. lia. }
  destruct (isspace c) eqn:Esp.
  { eapply lex_agrees_eq; [apply arrow_neutral, isspace_neutral, Esp|].
    apply IH. lia. }
  destruct (ch_eq c "#") eqn:Ehash.
  { simpl scan_line. rewrite Enl.
    destruct (scan_line r (cl + 1)) as [[t rest] cl'] eqn:Er.
    destruct (scan_line_spec _ _ _ _ _ Er) as (Hl & _ & Harr).
    eapply lex_agrees_eq; [|apply IH; lia].
    simpl. by rewrite Ehash. }
  destruct (ch_eq c "/" && next_is "/" r) eqn:Elc.
  { apply andb_true_iff in Elc as [->%ch_eq_true Hd].
    destruct r as [|d r']; [done|]. simpl in Hd. simpl tail.
    destruct (scan_line r' (cl + 2)) as [[t rest] cl'] eqn:Er.
    destruct (scan_line_spec _ _ _ _ _ Er) as (Hl & Harr & _).
    eapply lex_agrees_eq; [|apply IH; simpl in Hlen; lia].
    simpl. by rewrite Hd. }
  destruct (ch_eq c "/" && next_is "*" r) eqn:Ebc.
  { apply andb_true_iff in Ebc as [->%ch_eq_true Hd].
    destruct r as [|d r']; [done|]. simpl in Hd, Elc. simpl tail.
    destruct (skip_block r' ln (cl + 2)) as [[rest ln'] cl'] eqn:Er.
    destruct (skip_block_spec _ _ _ _ _ _ Er) as (Hl & Harr).
    eapply lex_agrees_eq; [|apply IH; simpl in Hlen; lia].
    simpl. by rewrite Elc, Hd. }
  destruct (ch_eq c ch_dq) eqn:Edq.
  { apply ch_eq_true in Edq as ->.
    destruct (scan_string r ln (cl + 1)) as [[[t rest] ln'] cl'] eqn:Er.
    destruct (scan_string_spec _ r (le_n _) _ _ _ _ _ _ Er) as (Hl & Harr).
    eapply lex_agrees_eq; [|apply IH; lia]. done. }
  destruct (isdigit c) eqn:Edig.
  { simpl scan_number. rewrite Edig.
    destruct (scan_number r false) as [t rest] eqn:Er.
    destruct (scan_number_spec _ _ _ _ Er) as (Hl & Harr).
    eapply lex_agrees_eq; [|apply IH; lia].
    by rewrite (arrow_neutral c r (isdigit_neutral c Edig)). }
  destruct (isIdentStart c) eqn:Eid.
  { destruct (scan_ident r) as [t rest] eqn:Er.
    destruct (scan_ident_spec _ _ _ Er) as (Hl & Harr).
    eapply lex_agrees_eq; [|apply IH; lia].
    by rewrite (arrow_neutral c r (isIdentStart_neutral c Eid)). }
  destruct (is_op_char c) eqn:Eop.
  { destruct r as [|d r'].
    - eapply lex_agrees_eq; [by apply single_op_scan|]. apply IH. simpl. lia.
    - destruct (ch_eq c "-" && ch_eq d ">") eqn:Earrow.
      + apply andb_true_iff in Earrow as [->%ch_eq_true ->%ch_eq_true].
        unfold lex_agrees. simpl. by do 2 eexists.
      + destruct (str_in (string_of_list_ascii [c; d]) two_char_ops) eqn:Etwo.
        * eapply lex_agrees_eq; [by apply two_char_op_scan|].
          apply IH. simpl in Hlen. lia.
        * eapply lex_agrees_eq; [by apply single_op_scan|].
          apply IH. lia. }
  assert (Hn : neutral c = true) by by apply not_op_neutral.
  destruct (is_punct_char c);
    (eapply lex_agrees_eq; [by apply arrow_neutral|]; apply IH; lia).
Qed.

Lemma lex_total (src : list ascii) : is_Some (lex src).
Proof.
  pose proof (lex_loop_agrees (length src) src 1 1 [] (le_n _)) as H.
  unfold lex_agrees in H. fold (lex src) in H.
  destruct (arrow_in_code InCode src).
  - destruct H as (ln & cl & ->). by eexists.
  - destruct H as (toks & ->). by eexists.
Qed.

Lemma lex_arrow_iff (src : list ascii) :
  (exists ln cl, lex src = Some (LexArrow ln cl)) <->
  arrow_in_code InCode src = true.
Proof.
  pose proof (lex_loop_agrees (length src) src 1 1 [] (le_n _)) as H.
  unfold lex_agrees in H. fold (lex src) in H.
  destruct (arrow_in_code InCode src).
  - split; [done | by intros _].
  - destruct H as (toks & ->). split; [|done]. by intros (ln & cl & ?).
Qed.

Lemma translate_exits_iff (known : gset string) (src : list ascii) :
  exits_2 (translate known src) <->
  arrow_in_code InCode (preprocess_physical_lines src) = true.
Proof.
  rewrite <- lex_arrow_iff. unfold exits_2, translate.
  destruct (lex_total (preprocess_physical_lines src)) as [r Hr].
  rewrite Hr. simpl. destruct r as [toks | ln cl].
  - split.
    + intros (ln & cl & H).
      destruct (edited_lines known toks) as [[ls a]|]; discriminate H.
    + by intros (ln & cl & ?).
  - split; intros _; by do 2 eexists.
Qed.

(** C2, as amended: the process exits with code 2, in the lexer, before
    any later pass runs and with nothing written for that input, if and
    only if the normalized input holds a [-] immediately followed by [>]
    where the lexer starts an operator: outside a comment, a string
    literal and a preprocessor line, and not with the [-] that ends the
    operator [--].  A [->] inside a [//] comment, a block comment or a
    string literal does not make the process exit. *)
Theorem C2_forbidden_arrow :
  (forall known src,
     exits_2 (translate known src) <->
     arrow_in_code InCode (preprocess_physical_lines src) = true) /\
  (forall known src files exit_code written,
     arrow_in_code InCode (preprocess_physical_lines src) = true ->
     main_loop (Some src :: files) known exit_code written =
     Some (2%Z, written)) /\
  (arrow_in_code InCode quoted_text = false /\
   exists out known, translate builtin_types quoted_text = Some (Wrote out known)).
Proof.
  split; [exact translate_exits_iff|]. split.
  - intros known src files exit_code written Harrow.
    apply translate_exits_iff with (known := known) in Harrow as (ln & cl & H).
    simpl. by rewrite H.
  - split; [vm_compute; reflexivity|].
    do 2 eexists. vm_compute. reflexivity.
Qed.

Lemma C2_forbidden_arrow_witness :
  main_loop [Some arrow_text] builtin_types 0 [] = Some (2%Z, []).
Proof.
  apply (proj1 (proj2 C2_forbidden_arrow)). vm_compute. reflexivity.
Defined.

(** A [->] in a preprocessor line, or one whose [-] ends the operator
    [--], is outside every comment and string literal, and the process
    does not exit with code 2 on it; and a text without any [->] makes
    the process exit with code 2 when the normalizer splices a [-] and a
    [>] together. *)
Lemma C2_arrow_without_exit :
  (arrow_outside_comment_and_string InCode define_text = true /\
   ~ exits_2 (translate builtin_types define_text)) /\
  (arrow_outside_comment_and_string InCode countdown_text = true /\
   ~ exits_2 (translate builtin_types countdown_text)) /\
  (arrow_outside_comment_and_string InCode spliced_text = false /\
   exits_2 (translate builtin_types spliced_text)).
Proof.
  assert (H : forall src,
    arrow_in_code InCode (preprocess_physical_lines src) = false ->
    ~ exits_2 (translate builtin_types src)).
  { intros src Hno Hex. apply translate_exits_iff in Hex. congruence. }
  split; [|split].
  - split; [vm_compute; reflexivity | apply H; vm_compute; reflexivity].
  - split; [vm_compute; reflexivity | apply H; vm_compute; reflexivity].
  - split; [vm_compute; reflexivity|].
    apply translate_exits_iff. vm_compute. reflexivity.
Qed.

(** ** Reflection of the token tests *)

Lemma ty_is_true (t : Token) (ty : TokenType) : ty_is t ty = true <-> type t = ty.
Proof. unfold ty_is. apply bool_decide_eq_true. Qed.

Lemma ty_is_false (t : Token) (ty : TokenType) :
  ty_is t ty = false <-> type t <> ty.
Proof. unfold ty_is. apply bool_decide_eq_false. Qed.

Lemma txt_is_true (t : Token) (s : string) : txt_is t s = true <-> text t = s.
Proof. unfold txt_is. apply String.eqb_eq. Qed.

Lemma tok_p_true (t : Token) (p : string) : tok_p t p = true <-> punct t p.
Proof.
  unfold tok_p, punct. rewrite andb_true_iff, ty_is_true, txt_is_true. done.
Qed.

Lemma tok_p_false (t : Token) (p : string) : tok_p t p = false <-> ~ punct t p.
Proof. rewrite <- tok_p_true. by destruct (tok_p t p). Qed.

Lemma tok_op_true (t : Token) (o : string) : tok_op t o = true <-> oper t o.
Proof.
  unfold tok_op, oper. rewrite andb_true_iff, ty_is_true, txt_is_true. done.
Qed.

Lemma is_ctrl_true (t : Token) : is_ctrl t = true <-> ctrl_keyword t.
Proof.
  unfold is_ctrl, ctrl_keyword.
  rewrite andb_true_iff, !orb_true_iff, ty_is_true, !txt_is_true. tauto.
Qed.

Lemma existsb_elem_of {A} (f : A -> bool) (l : list A) :
  existsb f l = true <-> exists x, x ∈ l /\ f x = true.
Proof.
  rewrite existsb_exists. split; intros (x & H1 & H2); exists x;
    (split; [by apply list_elem_of_In | done]).
Qed.

Lemma value_end_true (t : Token) :
  ty_is t Identifier || ty_is t Number || ty_is t StringLit ||
  (ty_is t Punct && (txt_is t ")" || txt_is t "]")) = true <-> value_end t.
Proof.
  unfold value_end, punct.
  rewrite !orb_true_iff, andb_true_iff, orb_true_iff, !ty_is_true,
    !txt_is_true. tauto.
Qed.

Lemma is_p_other (tk : list Token) (i : nat) (a b : string) :
  is_p tk i a = true -> a <> b -> is_p tk i b = false.
Proof.
  unfold is_p, TKIs. destruct (tk !! i) as [u|]; [|done].
  unfold txt_is. intros [_ ->%String.eqb_eq]%andb_true_iff Hne.
  apply andb_false_iff. right. by apply String.eqb_neq.
Qed.

(** ** Resolution of names *)

Lemma at_scope_nonneg {A} (l : list A) (c : Z) :
  (0 <= c)%Z -> at_scope l c = l !! Z.to_nat c.
Proof.
  intros H. unfold at_scope. destruct (Z.ltb_spec c 0); [lia | done].
Qed.

Lemma resolve_loop_no_record (scopes : list Scope)
    (scope_vars : list (gmap string VarInfo)) (nm : string) (cur : Z) :
  parents_first scopes ->
  no_record scopes scope_vars nm cur ->
  forall fuel, (cur < Z.of_nat fuel)%Z ->
    resolve_loop fuel scopes scope_vars cur nm = Some (999, 0)%Z.
Proof.
  intros Hwf Hno. induction Hno as [|cur m sc Hge Hm Hnm Hsc Hpar IH];
    intros fuel Hfuel.
  - by destruct fuel.
  - destruct fuel as [|fuel]; [lia|]. simpl.
    destruct (Z.eqb_spec cur (-1)); [lia|].
    rewrite !at_scope_nonneg by done. rewrite Hm. simpl. rewrite Hnm, Hsc.
    simpl. apply IH. apply Hwf in Hsc. lia.
Qed.

Lemma resolve_ptr_level_no_record (scopes : list Scope)
    (scope_vars : list (gmap string VarInfo)) (nm : string) (sid : Z) :
  parents_first scopes ->
  no_record scopes scope_vars nm sid ->
  resolve_ptr_level scopes scope_vars sid nm = Some (999, 0)%Z.
Proof.
  intros Hwf Hno. apply resolve_loop_no_record; [done|done|].
  destruct Hno as [|cur m sc Hge _ _ Hsc _]; [lia|].
  apply lookup_lt_Some in Hsc. lia.
Qed.

Lemma parents_first_singleton (sc : Scope) :
  (parent sc < 0)%Z -> parents_first [sc].
Proof.
  intros H [|k] sc' Hk; simpl in Hk; [|by destruct k].
  injection Hk as <-. done.
Qed.

(** ** The scope tree built by the analysis *)

Lemma scopes_wf_open (scopes : list Scope) (cur : Z) (k n : string) :
  scopes_wf scopes cur ->
  scopes_wf (scopes ++ [mkScope (Z.of_nat (length scopes)) cur k n])
    (Z.of_nat (length scopes)).
Proof.
  intros (Hpf & Hpar & Hcur). split; [|split].
  - intros j sc Hj. apply lookup_app_Some in Hj as [Hj | [Hlen Hj]].
    + by apply Hpf.
    + apply list_lookup_singleton_Some in Hj as [_ <-]. simpl. lia.
  - intros j sc Hj Hne. apply lookup_app_Some in Hj as [Hj | [Hlen Hj]].
    + by eapply Hpar.
    + apply list_lookup_singleton_Some in Hj as [_ <-]. simpl. lia.
  - rewrite length_app. simpl. lia.
Qed.

Lemma scopes_wf_close (scopes : list Scope) (cur : Z) (sc : Scope) :
  scopes_wf scopes cur -> cur <> 0%Z -> at_scope scopes cur = Some sc ->
  scopes_wf scopes (parent sc).
Proof.
  intros (Hpf & Hpar & Hcur) Hne Hsc.
  rewrite at_scope_nonneg in Hsc by lia.
  split; [done|]. split; [done|].
  pose proof (Hpf _ _ Hsc). pose proof (Hpar _ _ Hsc ltac:(lia)). lia.
Qed.

Lemma analyze_step_scopes_wf (i : nat) (st st' : analysis) :
  analyze_step i st = Some st' ->
  scopes_wf (a_scopes st) (a_cur st) ->
  scopes_wf (a_scopes st') (a_cur st').
Proof.
  unfold analyze_step. intros H Hwf.
  apply bind_Some in H as (t & Ht & H).
  set (tk := <[i := set_scope_id t (a_cur st)]> (a_tk st)) in *.
  destruct (if is_tag_kw tk i then _ else _) as [pk1 pn1] in H.
  apply bind_Some in H as ([[pk2 pn2] params] & _ & H).
  apply bind_Some in H as (m & _ & H).
  apply bind_Some in H as ([m1 handled] & _ & H).
  apply bind_Some in H as (m2 & _ & H).
  destruct (is_p tk i "{") eqn:Eopen.
  - rewrite (is_p_other _ _ _ "}" Eopen) in H by done.
    simpl in H. injection H as <-. simpl. by apply scopes_wf_open.
  - destruct (is_p tk i "}").
    + destruct (a_cur st =? 0)%Z eqn:Ecur; simpl in H.
      * injection H as <-. done.
      * apply bind_Some in H as ([[cur4 pk4] pn4] & Hsc & H).
        apply bind_Some in Hsc as (sc & Hsc & [= <- <- <-]).
        injection H as <-. simpl.
        apply (scopes_wf_close _ (a_cur st)); [done| |done].
        by apply Z.eqb_neq.
    + simpl in H. injection H as <-. done.
Qed.

Lemma analyze_loop_scopes_wf (k : nat) :
  forall i st st',
    analyze_loop k i st = Some st' ->
    scopes_wf (a_scopes st) (a_cur st) ->
    scopes_wf (a_scopes st') (a_cur st').
Proof.
  induction k as [|k IH]; intros i st st' H Hwf; simpl in H.
  - by injection H as <-.
  - apply bind_Some in H as (st1 & H1 & H).
    eapply IH; [exact H|]. by eapply analyze_step_scopes_wf.
Qed.

(** The scopes that the analysis returns have their parents first. *)
Lemma analysis_parents_first (tk : list Token) (known : gset string)
    (a : analysis) :
  analyze_scopes_and_vars tk known = Some a -> parents_first (a_scopes a).
Proof.
  intros H. unfold analyze_scopes_and_vars in H.
  apply analyze_loop_scopes_wf in H as (Hpf & _); [done|].
  simpl. split; [|split].
  - by apply parents_first_singleton.
  - intros [|k] sc Hk Hne; [done | by destruct k].
  - simpl. lia.
Qed.

(** ** Typedef observation *)

Lemma last_identifier_cons (t : Token) (l : list Token) :
  last_identifier (t :: l) =
  match last_identifier l with
  | Some u => Some u
  | None => if ty_is t Identifier then Some t else None
  end.
Proof.
  unfold last_identifier, ty_is. rewrite filter_cons.
  destruct (decide (type t = Identifier)) as [H|H].
  - rewrite last_cons, bool_decide_eq_true_2 by done. done.
  - rewrite bool_decide_eq_false_2 by done. by destruct (last _).
Qed.

Lemma typedef_scan_spec (l : list Token) (j : nat) (acc : option nat) :
  match last_identifier (before_terminator l) with
  | Some t => exists k, typedef_scan l j acc = Some (j + k) /\ l !! k = Some t
  | None => typedef_scan l j acc = acc
  end.
Proof.
  revert j acc. induction l as [|t l IH]; intros j acc; simpl; [done|].
  fold (typedef_terminator t). destruct (typedef_terminator t); [done|].
  rewrite last_identifier_cons.
  specialize (IH (S j) (if ty_is t Identifier then Some j else acc)).
  destruct (last_identifier (before_terminator l)) as [u|].
  - destruct IH as (k & -> & Hk). exists (S k). split; [f_equal; lia | done].
  - rewrite IH. destruct (ty_is t Identifier); [|done].
    exists 0. split; [f_equal; lia | done].
Qed.

Lemma typedef_observe_spec (tk : list Token) (i : nat) (known : gset string) :
  typedef_observe tk i known =
  match typedef_name tk i with
  | Some nm => {[ nm ]} ∪ known
  | None => known
  end.
Proof.
  unfold typedef_observe, typedef_name.
  pose proof (typedef_scan_spec (drop (S i) tk) (S i) None) as H.
  destruct (last_identifier _) as [t|]; simpl.
  - destruct H as (k & -> & Hk). rewrite lookup_drop in Hk. by rewrite Hk.
  - by rewrite H.
Qed.

Lemma TKIs_insert_scope (tk : list Token) (i j : nat) (t : Token) (c : Z)
    (ty : TokenType) (txt : option string) :
  tk !! i = Some t ->
  TKIs (<[i := set_scope_id t c]> tk) j ty txt = TKIs tk j ty txt.
Proof.
  intros Hi. unfold TKIs. destruct (decide (i = j)) as [->|Hne].
  - rewrite list_lookup_insert_eq by (by eapply lookup_lt_Some).
    by rewrite Hi.
  - by rewrite list_lookup_insert_ne.
Qed.

Lemma typedef_name_insert_scope (tk : list Token) (i : nat) (t : Token) (c : Z) :
  typedef_name (<[i := set_scope_id t c]> tk) i = typedef_name tk i.
Proof. unfold typedef_name. by rewrite drop_insert_lt by lia. Qed.

Lemma is_tag_kw_typedef (tk : list Token) (i : nat) :
  is_kw tk i "typedef" = true -> is_tag_kw tk i = false.
Proof.
  unfold is_tag_kw, is_kw, TKIs. destruct (tk !! i) as [t|]; [|done].
  unfold txt_is. intros [_ ->%String.eqb_eq]%andb_true_iff.
  by rewrite !andb_false_r.
Qed.

(** What an iteration of the analysis leaves in the known-type set. *)
Lemma analyze_step_known_types (i : nat) (st st' : analysis) :
  analyze_step i st = Some st' ->
  exists t, a_tk st !! i = Some t /\
    let tk := <[i := set_scope_id t (a_cur st)]> (a_tk st) in
    let known1 := if is_kw tk i "typedef"
                  then typedef_observe tk i (a_known_types st)
                  else a_known_types st in
    a_known_types st' =
      if is_tag_kw tk i && TKIs tk (i + 1) Identifier None
      then {[ default EmptyString (text <$> tk !! (i + 1)) ]} ∪ known1
      else known1.
Proof.
  unfold analyze_step. intros H.
  apply bind_Some in H as (t & Ht & H). exists t. split; [done|].
  repeat match type of H with
  | (let '(_, _) := ?x in _) = _ => destruct x
  | mbind _ _ = Some _ => apply bind_Some in H as (? & _ & H)
  | (let (_, _) := ?x in _) = _ => destruct x
  end.
  by injection H as <-.
Qed.

(** At a [typedef] keyword the analyzer adds to the known-type set
    exactly the text of the last Identifier token between the keyword and
    the first [;] or [}] Punct after it, and nothing when there is none. *)
Lemma typedef_observation_step (i : nat) (st st' : analysis) :
  analyze_step i st = Some st' ->
  is_kw (a_tk st) i "typedef" = true ->
  a_known_types st' =
    match typedef_name (a_tk st) i with
    | Some nm => {[ nm ]} ∪ a_known_types st
    | None => a_known_types st
    end.
Proof.
  intros H Hkw. apply analyze_step_known_types in H as (t & Ht & H).
  cbv zeta in H. rewrite H. clear H.
  assert (Hkw' : is_kw (<[i := set_scope_id t (a_cur st)]> (a_tk st)) i
                   "typedef" = true)
    by (unfold is_kw; by rewrite TKIs_insert_scope).
  rewrite (is_tag_kw_typedef _ _ Hkw'), Hkw'. simpl.
  by rewrite typedef_observe_spec, typedef_name_insert_scope.
Qed.

Lemma typedef_observation_int :
  a_known_types typedef_int_after = {[ "T"%string ]} ∪ builtin_types.
Proof.
  apply (typedef_observation_step 0 typedef_int_before typedef_int_after).
  - vm_compute. reflexivity.
  - vm_compute. reflexivity.
Qed.

(** C6 at its failing input: for [typedef struct { int x; } T;] the scan
    stops at the [;] inside the braces; the member name [x] becomes a
    known type, and the name [T] that the typedef declares does not. *)
Theorem C6_typedef_struct_name_missed :
  exists a, analysis_of "typedef struct { int x; } T;" = Some a /\
    ("T"%string ∉ a_known_types a) /\ ("x"%string ∈ a_known_types a).
Proof.
  eexists. split; [vm_compute; reflexivity|]. split.
  - eapply (bool_decide_eq_false_1 _). vm_compute. reflexivity.
  - eapply (bool_decide_eq_true_1 _). vm_compute. reflexivity.
Qed.

(** ** Parameter deposits *)





(** ** The type-block terminator *)

Lemma scan_while_lookup (p : Token -> bool) (toks l : list Token) (j : nat) :
  drop j toks = l ->
  toks !! scan_while p l j =
  (fix first (l : list Token) : option Token :=
     match l with
     | [] => None
     | t :: l' => if p t then first l' else Some t
     end) l.
Proof.
  revert j. induction l as [|t l IH]; intros j Hd; simpl.
  - apply lookup_ge_None. apply drop_nil_inv in Hd. lia.
  - assert (Hj : toks !! j = Some t).
    { rewrite <- (Nat.add_0_r j), <- lookup_drop, Hd. done. }
    destruct (p t); [|done]. apply IH.
    rewrite (drop_S _ _ _ Hj) in Hd. congruence.
Qed.

Lemma declarator_follows_spec (toks : list Token) (j : nat) :
  declarator_follows toks j = leaves_closer_alone (drop j toks).
Proof.
  unfold declarator_follows, leaves_closer_alone, skip_while.
  rewrite (scan_while_lookup _ toks (drop j toks) j eq_refl).
  assert (H : forall l,
    (fix first (l : list Token) : option Token :=
       match l with
       | [] => None
       | t :: l' => if ty_is t Preprocessor then first l' else Some t
       end) l = next_code_token l)
    by (induction l as [|t l IH]; simpl; [done | by rewrite IH]).
  by rewrite H.
Qed.

Lemma insert_at_take_drop {A} (i : nat) (x : A) (l : list A) :
  i <= length l ->
  take (S i) (insert_at i x l) = take i l ++ [x] /\
  drop (S i) (insert_at i x l) = drop i l.
Proof.
  intros Hi. unfold insert_at.
  assert (Hlen : length (take i l) = i) by (rewrite length_take; lia).
  split.
  - rewrite take_app_ge by lia. rewrite Hlen.
    replace (S i - i) with 1 by lia. done.
  - rewrite drop_app_ge by lia. rewrite Hlen.
    replace (S i - i) with 1 by lia. done.
Qed.

Lemma length_insert_at {A} (i : nat) (x : A) (l : list A) :
  length (insert_at i x l) = S (length l).
Proof.
  unfold insert_at.
  rewrite length_app, length_take, length_cons, length_drop. lia.
Qed.

Lemma type_blocks_loop_spec (scopes : list Scope) (k : nat) :
  forall (toks : list Token) (i : nat),
    length toks - i <= k ->
    type_blocks_loop k toks scopes i =
    Some (take i toks ++ terminate_type_blocks scopes (drop i toks)).
Proof.
  induction k as [|k IH]; intros toks i Hk.
  - assert (Hi : length toks <= i) by lia.
    simpl. rewrite (proj2 (lookup_ge_None toks i) Hi).
    rewrite drop_ge, take_ge, app_nil_r by done. done.
  - simpl. destruct (toks !! i) as [t|] eqn:Ht.
    + pose proof (lookup_lt_Some _ _ _ Ht) as Hlt.
      rewrite (drop_S _ _ _ Ht). simpl.
      rewrite declarator_follows_spec.
      replace (i + 1) with (S i) by lia.
      destruct (closes_type_block scopes t &&
                negb (leaves_closer_alone (drop (S i) toks))).
      * replace (i + 2) with (S (S i)) by lia.
        rewrite IH; cycle 1.
        { rewrite length_insert_at. lia. }
        destruct (insert_at_take_drop (S i) (retag t Punct ";") toks)
          as [-> ->]; [lia|].
        rewrite (take_S_r _ _ _ Ht), <- !app_assoc. done.
      * rewrite IH by lia. rewrite (take_S_r _ _ _ Ht), <- app_assoc. done.
    + apply lookup_ge_None in Ht.
      rewrite drop_ge, take_ge, app_nil_r by done. done.
Qed.

Lemma add_semicolon_after_type_blocks_spec (toks : list Token)
    (scopes : list Scope) :
  add_semicolon_after_type_blocks toks scopes =
  Some (terminate_type_blocks scopes toks).
Proof.
  unfold add_semicolon_after_type_blocks.
  rewrite type_blocks_loop_spec by lia. done.
Qed.

Lemma closes_type_block_punct (scopes : list Scope) (t : Token) :
  closes_type_block scopes t = true -> punct t "}".
Proof.
  unfold closes_type_block. intros [H _]%andb_true_iff. by apply tok_p_true.
Qed.

Lemma next_code_token_terminate (scopes : list Scope) (l : list Token) :
  next_code_token (terminate_type_blocks scopes l) = next_code_token l.
Proof.
  induction l as [|t l IH]; simpl; [done|].
  destruct (closes_type_block scopes t) eqn:Hc; simpl.
  - apply closes_type_block_punct in Hc as [Hty _].
    assert (ty_is t Preprocessor = false) as Hpp
      by (apply ty_is_false; congruence).
    destruct (negb _); simpl; by rewrite Hpp.
  - destruct (ty_is t Preprocessor); done.
Qed.

Lemma terminate_type_blocks_idempotent (scopes : list Scope) (l : list Token) :
  terminate_type_blocks scopes (terminate_type_blocks scopes l) =
  terminate_type_blocks scopes l.
Proof.
  induction l as [|t l IH]; simpl; [done|].
  destruct (closes_type_block scopes t) eqn:Hc; simpl.
  - destruct (leaves_closer_alone l) eqn:Hl; simpl.
    + rewrite Hc. unfold leaves_closer_alone at 1.
      rewrite next_code_token_terminate.
      fold (leaves_closer_alone l). rewrite Hl. simpl. by rewrite IH.
    + rewrite Hc. simpl. rewrite IH. done.
  - rewrite Hc. simpl. by rewrite IH.
Qed.

Lemma terminate_type_blocks_app (scopes : list Scope) (pre suf : list Token) :
  exists pre', pre `sublist_of` pre' /\
    terminate_type_blocks scopes (pre ++ suf) =
    pre' ++ terminate_type_blocks scopes suf.
Proof.
  induction pre as [|a pre (pre' & Hsub & IH)]; simpl.
  - by exists [].
  - rewrite IH.
    destruct (closes_type_block scopes a && negb _).
    + exists (a :: retag a Punct ";" :: pre'). split; [|done].
      by apply sublist_skip, sublist_cons.
    + exists (a :: pre'). split; [|done]. by apply sublist_skip.
Qed.

(** C5: the pass that edits the token vector in place computes
    [terminate_type_blocks]: after each [}] whose scope has kind Struct,
    Union or Enum a [;] Punct is inserted immediately when the next
    non-Preprocessor token is missing or is none of Identifier, [*]
    Operator, [(], [[], [;] Punct, and nothing is inserted there
    otherwise; the pass changes nothing when run on its own result; and
    the one-line input [struct S { int x; int y; }] is written as
    [struct S { int x; int y; };]. *)
Theorem C5_type_block_terminator :
  (forall scopes toks,
     add_semicolon_after_type_blocks toks scopes =
     Some (terminate_type_blocks scopes toks)) /\
  (forall scopes toks pre t rest,
     toks = pre ++ t :: rest ->
     closes_type_block scopes t = true ->
     exists pre', pre `sublist_of` pre' /\
       add_semicolon_after_type_blocks toks scopes =
         Some (pre' ++ t ::
               (if leaves_closer_alone rest then [] else [retag t Punct ";"])
               ++ terminate_type_blocks scopes rest) /\
       next_code_token (terminate_type_blocks scopes rest) =
         next_code_token rest) /\
  (forall scopes toks,
     add_semicolon_after_type_blocks (terminate_type_blocks scopes toks) scopes
     = Some (terminate_type_blocks scopes toks)) /\
  written_text struct_text = Some ("struct S { int x; int y; };" ++ nl)%string.
Proof.
  split; [|split; [|split]].
  - intros. apply add_semicolon_after_type_blocks_spec.
  - intros scopes toks pre t rest -> Hc.
    destruct (terminate_type_blocks_app scopes pre (t :: rest))
      as (pre' & Hsub & Happ).
    exists pre'. split; [done|]. split; [|apply next_code_token_terminate].
    rewrite add_semicolon_after_type_blocks_spec, Happ. simpl. rewrite Hc.
    by destruct (leaves_closer_alone rest).
  - intros. rewrite add_semicolon_after_type_blocks_spec.
    by rewrite terminate_type_blocks_idempotent.
  - vm_compute. reflexivity.
Qed.

Lemma C5_type_block_terminator_witness :
  exists pre', take 9 struct_tokens `sublist_of` pre' /\
    add_semicolon_after_type_blocks struct_tokens struct_scopes =
      Some (pre' ++ struct_closer ::
            (if leaves_closer_alone (drop 10 struct_tokens) then []
             else [retag struct_closer Punct ";"])
            ++ terminate_type_blocks struct_scopes (drop 10 struct_tokens)) /\
    next_code_token (terminate_type_blocks struct_scopes (drop 10 struct_tokens))
    = next_code_token (drop 10 struct_tokens).
Proof.
  apply (proj1 (proj2 C5_type_block_terminator)).
  - vm_compute. reflexivity.
  - vm_compute. reflexivity.
Defined.

(** ** The member rewriter *)

Section RewriterFacts.
Variable scopes : list Scope.
Variable scope_vars : list (gmap string VarInfo).
Variable sid : Z.

Lemma rewrite_at_skips (ln : list Token) (i : nat) (t : Token) :
  ln !! i = Some t ->
  (type t = Identifier ->
   resolve_ptr_level scopes scope_vars sid (text t) = Some (999, 0)%Z) ->
  rewrite_at scopes scope_vars sid ln i = Some (ln, i).
Proof.
  intros Ht Hres. unfold rewrite_at. rewrite Ht.
  destruct (ty_is t Identifier) eqn:Hty; [|done].
  apply ty_is_true in Hty. rewrite (Hres Hty). done.
Qed.

Lemma rewrite_loop_unresolved (ln : list Token) :
  (forall t, t ∈ ln -> type t = Identifier ->
     resolve_ptr_level scopes scope_vars sid (text t) = Some (999, 0)%Z) ->
  forall fuel i, length ln - i <= fuel ->
    rewrite_loop scopes scope_vars sid fuel ln i = Some ln.
Proof.
  intros Hall. induction fuel as [|fuel IH]; intros i Hi; simpl.
  - destruct (Nat.ltb_spec i (length ln)); [lia | done].
  - destruct (Nat.ltb_spec i (length ln)) as [Hlt|]; [|done].
    destruct (lookup_lt_is_Some_2 _ _ Hlt) as [t Ht].
    rewrite (rewrite_at_skips ln i t Ht).
    + simpl. apply IH. lia.
    + apply Hall. by eapply list_elem_of_lookup_2.
Qed.
Lemma rewrite_loop_step (fuel : nat) (ln : list Token) (i : nat)
    (ln' : list Token) (i' : nat) :
  i < length ln ->
  rewrite_at scopes scope_vars sid ln i = Some (ln', i') ->
  rewrite_loop scopes scope_vars sid (S fuel) ln i =
  rewrite_loop scopes scope_vars sid fuel ln' (i' + 1).
Proof.
  intros Hi Hat. simpl. destruct (Nat.ltb_spec i (length ln)); [|lia].
  by rewrite Hat.
Qed.

Lemma rewrite_loop_done (fuel : nat) (ln : list Token) (i : nat) :
  length ln <= i -> rewrite_loop scopes scope_vars sid fuel ln i = Some ln.
Proof.
  intros Hi. destruct fuel; simpl;
    by destruct (Nat.ltb_spec i (length ln)); [lia|].
Qed.
End RewriterFacts.

(** C9, as amended: in a scope tree whose parents come first (as the
    analysis builds it, [analysis_parents_first]), when the scan of the
    member rewriter stands on an Identifier whose name has no variable
    record in the line's scope nor in any ancestor scope up to the root,
    that iteration changes nothing (no [.] becomes [->], no [(], [*], [)]
    is inserted) and the scan moves to the next token; a line all of
    whose Identifiers are such is left as it is. *)
Theorem C9_unknown_base_untouched (scopes : list Scope)
    (scope_vars : list (gmap string VarInfo)) (sid : Z) :
  parents_first scopes ->
  (forall ln i t,
     ln !! i = Some t -> type t = Identifier ->
     no_record scopes scope_vars (text t) sid ->
     rewrite_at scopes scope_vars sid ln i = Some (ln, i)) /\
  (forall ln,
     (forall t, t ∈ ln -> type t = Identifier ->
        no_record scopes scope_vars (text t) sid) ->
     rewrite_member_chains scopes scope_vars sid ln = Some ln).
Proof.
  intros Hwf. split.
  - intros ln i t Ht Hty Hno. apply (rewrite_at_skips _ _ _ ln i t Ht).
    intros _. by apply resolve_ptr_level_no_record.
  - intros ln Hall. apply rewrite_loop_unresolved; [|lia].
    intros t Ht Hty. apply resolve_ptr_level_no_record; auto.
Qed.

Lemma chain_no_record_u : no_record chain_scopes chain_vars "u" 0.
Proof.
  eapply (no_record_scope _ _ _ 0%Z).
  - lia.
  - vm_compute. reflexivity.
  - vm_compute. reflexivity.
  - vm_compute. reflexivity.
  - apply no_record_root.
Qed.

Lemma C9_unknown_base_untouched_witness :
  rewrite_at chain_scopes chain_vars 0 chain_line 2 = Some (chain_line, 2).
Proof.
  apply (proj1 (C9_unknown_base_untouched chain_scopes chain_vars 0
                  (parents_first_singleton (mkScope 0 (-1) "Global" EmptyString)
                     ltac:(simpl; lia)))
           chain_line 2 (mkToken Identifier "u" 2 3 0)).
  - vm_compute. reflexivity.
  - reflexivity.
  - exact chain_no_record_u.
Defined.

(** In [p.u.v], with [p] a pointer of level 1, the Identifier [u] has no
    variable record, and the [.] that follows it is rewritten to [->]:
    [u] is passed over as a member name in the chain of [p]. *)
Lemma C9_dot_after_member_rewritten :
  tok_view <$> chain_line !! 2 = Some (Identifier, "u"%string) /\
  no_record chain_scopes chain_vars "u" 0 /\
  tok_view <$> chain_line !! 3 = Some (Punct, "."%string) /\
  tok_view <$> (rewrite_member_chains chain_scopes chain_vars 0 chain_line
                  ≫= (.!! 3)) = Some (Operator, "->"%string) /\
  (map tok_view <$> rewrite_member_chains chain_scopes chain_vars 0 chain_line)
  = Some [ (Identifier, "p"); (Operator, "->"); (Identifier, "u");
           (Operator, "->"); (Identifier, "v") ]%string.
Proof.
  split; [vm_compute; reflexivity|].
  split; [exact chain_no_record_u|].
  repeat split; vm_compute; reflexivity.
Qed.

(** *** Positions behind a prefix *)

Lemma lookup_app_add {A} (pre l : list A) (k : nat) :
  (pre ++ l) !! (length pre + k) = l !! k.
Proof.
  rewrite lookup_app_r by lia. f_equal. lia.
Qed.

Lemma TKIs_app_add (pre l : list Token) (k : nat) (ty : TokenType)
    (txt : option string) :
  TKIs (pre ++ l) (length pre + k) ty txt = TKIs l k ty txt.
Proof. unfold TKIs. by rewrite lookup_app_add. Qed.

Lemma insert_at_app_add {A} (pre l : list A) (k : nat) (x : A) :
  insert_at (length pre + k) x (pre ++ l) = pre ++ insert_at k x l.
Proof.
  unfold insert_at. rewrite take_app_add, drop_app_add, <- app_assoc. done.
Qed.

Lemma to_arrow_app_add (pre l : list Token) (k : nat) :
  to_arrow (pre ++ l) (length pre + k) = pre ++ to_arrow l k.
Proof.
  unfold to_arrow. rewrite lookup_app_add.
  destruct (l !! k) as [t|]; [|done].
  rewrite insert_app_r_alt by lia. do 2 f_equal. lia.
Qed.

Lemma dot_loop_app_add (pre : list Token) (fuel : nat) :
  forall (l : list Token) (i j : nat) (cur_ptr : Z),
    dot_loop fuel (pre ++ l) (length pre + i) (length pre + j) cur_ptr =
    (fun r => (pre ++ r.1, length pre + r.2)) <$> dot_loop fuel l i j cur_ptr.
Proof.
  induction fuel as [|fuel IH]; intros l i j cur_ptr; simpl.
  - unfold is_p. rewrite <- (Nat.add_assoc (length pre) j 1), !TKIs_app_add.
    by destruct (_ && _).
  - unfold is_p. rewrite <- (Nat.add_assoc (length pre) j 1), !TKIs_app_add.
    destruct (_ && _); [|done].
    destruct (cur_ptr =? 1)%Z.
    { rewrite to_arrow_app_add, <- (Nat.add_assoc (length pre) j 2). apply IH. }
    destruct (1 <? cur_ptr)%Z.
    + rewrite !lookup_app_add.
      destruct (l !! i) as [ti|]; [|done]. destruct (l !! j) as [tj|]; [|done].
      rewrite insert_at_app_add.
      rewrite <- (Nat.add_assoc (length pre) i 1), insert_at_app_add.
      rewrite <- (Nat.add_assoc (length pre) j 2), insert_at_app_add.
      rewrite <- (Nat.add_assoc (length pre) (j + 2) 1), to_arrow_app_add.
      rewrite <- (Nat.add_assoc (length pre) (j + 2 + 1) 2). apply IH.
    + rewrite <- (Nat.add_assoc (length pre) j 2). apply IH.
Qed.

Lemma dot_loop_app_base (pre : list Token) (fuel : nat) (l : list Token)
    (j : nat) (cur_ptr : Z) :
  dot_loop fuel (pre ++ l) (length pre) (length pre + j) cur_ptr =
  (fun r => (pre ++ r.1, length pre + r.2)) <$> dot_loop fuel l 0 j cur_ptr.
Proof.
  rewrite <- dot_loop_app_add. by rewrite Nat.add_0_r.
Qed.

Lemma postfix_walk_stops (fuel : nat) (ln : list Token) (j : nat)
    (cur_ptr cur_arr : Z) :
  is_p ln j "[" = false -> is_p ln j "(" = false ->
  postfix_walk fuel ln j cur_ptr cur_arr = Some (j, cur_ptr, cur_arr).
Proof. intros H1 H2. destruct fuel; simpl; by rewrite H1, H2. Qed.

Lemma is_p_punct (ln : list Token) (j : nat) (t : Token) (p : string) :
  ln !! j = Some t -> is_p ln j p = tok_p t p.
Proof. intros H. unfold is_p, TKIs. by rewrite H. Qed.

Lemma tok_p_other (t : Token) (a b : string) :
  punct t a -> a <> b -> tok_p t b = false.
Proof.
  intros [Hty Htx] Hne. apply tok_p_false. intros [_ H]. congruence.
Qed.

Lemma dot_loop_stops (fuel : nat) (ln : list Token) (i j : nat) (cur_ptr : Z) :
  is_p ln j "." && TKIs ln (j + 1) Identifier None = false ->
  dot_loop fuel ln i j cur_ptr = Some (ln, j).
Proof. intros H. destruct fuel; simpl; by rewrite H. Qed.

(** One iteration of the loop over [. IDENT] segments. *)
Lemma dot_loop_segment (fuel : nat) (ln : list Token) (i j : nat) (cp : Z) :
  is_p ln j "." = true -> TKIs ln (j + 1) Identifier None = true ->
  dot_loop (S fuel) ln i j cp =
  if (cp =? 1)%Z then dot_loop fuel (to_arrow ln j) i (j + 2) cp
  else if (1 <? cp)%Z then
    match ln !! i, ln !! j with
    | Some ti, Some tj =>
        dot_loop fuel
          (to_arrow
             (insert_at (j + 2) (retag tj Punct ")")
                (insert_at (i + 1) (retag ti Operator "*")
                   (insert_at i (retag ti Punct "(") ln)))
             (j + 2 + 1))
          i (j + 2 + 1 + 2) (cp - 1)
    | _, _ => None
    end
  else dot_loop fuel ln i (j + 2) cp.
Proof. intros H1 H2. cbn [dot_loop]. by rewrite H1, H2. Qed.

Lemma segment_tests (d f : Token) (pre l : list Token) :
  segment (d, f) ->
  is_p (pre ++ d :: f :: l) (length pre) "." = true /\
  TKIs (pre ++ d :: f :: l) (length pre + 1) Identifier None = true.
Proof.
  intros [Hd Hf]. simpl in Hd, Hf. unfold is_p. split.
  - rewrite <- (Nat.add_0_r (length pre)), TKIs_app_add. unfold TKIs. simpl.
    by apply tok_p_true.
  - rewrite TKIs_app_add. unfold TKIs. simpl. rewrite andb_true_r.
    by apply ty_is_true.
Qed.

(** The loop over the segments of a chain, behind the expression
    [h :: rest] that starts the line. *)
Lemma dot_loop_chain (segs : list (Token * Token)) :
  forall fuel depth h rest post,
    Forall segment segs -> chain_ends post -> length segs <= fuel ->
    dot_loop fuel (h :: rest ++ chain_tokens segs ++ post) 0
      (S (length rest)) depth =
    Some (chain_rewritten depth h rest segs ++ post,
          length (chain_rewritten depth h rest segs)).
Proof.
  induction segs as [|[d f] segs IH];
    intros fuel depth h rest post Hsegs Hend Hfuel.
  - simpl. rewrite dot_loop_stops; [done|].
    change (h :: rest ++ post) with ((h :: rest) ++ post).
    change (S (length rest)) with (length (h :: rest)).
    unfold is_p.
    rewrite <- (Nat.add_0_r (length (h :: rest))) at 1.
    rewrite !TKIs_app_add. exact Hend.
  - destruct fuel as [|fuel]; [simpl in Hfuel; lia|]. simpl in Hfuel.
    apply Forall_cons in Hsegs as [Hseg Hsegs].
    change (h :: rest ++ chain_tokens ((d, f) :: segs) ++ post) with
      ((h :: rest) ++ d :: f :: (chain_tokens segs ++ post)).
    change (S (length rest)) with (length (h :: rest)).
    destruct (segment_tests d f (h :: rest) (chain_tokens segs ++ post) Hseg)
      as [Hdot Hid].
    rewrite dot_loop_segment by done. cbn [chain_rewritten].
    destruct (depth =? 1)%Z.
    + rewrite <- (Nat.add_0_r (length (h :: rest))) at 1.
      rewrite to_arrow_app_add. unfold to_arrow at 1. cbn [lookup list_lookup].
      cbn [insert list_insert].
      specialize (IH fuel depth h (rest ++ [retag d Operator "->"; f]) post
                    Hsegs Hend ltac:(lia)).
      rewrite <- IH. f_equal.
      * simpl. by rewrite <- app_assoc.
      * rewrite length_app. simpl. lia.
    + destruct (1 <? depth)%Z.
      * set (X := chain_tokens segs ++ post).
        assert (H0 : ((h :: rest) ++ d :: f :: X) !! 0 = Some h) by done.
        rewrite H0, list_lookup_middle by done.
        set (lpar := retag h Punct "(").
        set (star := retag h Operator "*").
        set (rpar := retag d Punct ")").
        assert (Hln :
          to_arrow
            (insert_at (length (h :: rest) + 2) rpar
               (insert_at (0 + 1) star
                  (insert_at 0 lpar ((h :: rest) ++ d :: f :: X))))
            (length (h :: rest) + 2 + 1) =
          lpar :: (star :: h :: rest ++ [rpar; retag d Operator "->"; f]) ++ X).
        { change (insert_at 0 lpar ((h :: rest) ++ d :: f :: X)) with
            (lpar :: (h :: rest) ++ d :: f :: X).
          change (insert_at (0 + 1) star (lpar :: (h :: rest) ++ d :: f :: X))
            with ((lpar :: star :: h :: rest) ++ d :: f :: X).
          replace (length (h :: rest) + 2 + 1)
            with (length (lpar :: star :: h :: rest) + 1) by (simpl; lia).
          replace (length (h :: rest) + 2)
            with (length (lpar :: star :: h :: rest) + 0) by (simpl; lia).
          rewrite insert_at_app_add, to_arrow_app_add.
          change (to_arrow (insert_at 0 rpar (d :: f :: X)) 1) with
            (rpar :: retag d Operator "->" :: f :: X).
          simpl. by rewrite <- app_assoc. }
        rewrite Hln.
        specialize (IH fuel (depth - 1)%Z lpar
                      (star :: h :: rest ++
                       [rpar; retag d Operator "->"; f]) post
                      Hsegs Hend ltac:(lia)).
        fold X in IH. rewrite <- IH. f_equal.
        simpl. rewrite length_app. simpl. lia.
      * specialize (IH fuel depth h (rest ++ [d; f]) post
                      Hsegs Hend ltac:(lia)).
        rewrite <- IH. f_equal.
        -- simpl. by rewrite <- app_assoc.
        -- rewrite length_app. simpl. lia.
Qed.

Lemma chain_rewritten_length (segs : list (Token * Token)) :
  forall depth h rest, 1 <= length (chain_rewritten depth h rest segs).
Proof.
  induction segs as [|[d f] segs IH]; intros depth h rest; simpl; [lia|].
  destruct (depth =? 1)%Z; [apply IH|]. destruct (1 <? depth)%Z; apply IH.
Qed.

(** The body of the scan at a base [x] followed by the expression
    [postfix], over which the postfix walk reaches the depth [depth], and
    by the chain [segs]. *)
Lemma rewrite_at_chain (scopes : list Scope)
    (scope_vars : list (gmap string VarInfo)) (sid : Z)
    (pre : list Token) (x : Token) (postfix : list Token)
    (segs : list (Token * Token)) (post : list Token)
    (ptr arr depth arr' : Z) :
  type x = Identifier ->
  resolve_ptr_level scopes scope_vars sid (text x) = Some (ptr, arr) ->
  (ptr =? 999)%Z && (arr =? 0)%Z = false ->
  (forall fuel,
     postfix_walk (S fuel) (pre ++ x :: postfix ++ chain_tokens segs ++ post)
       (length pre + 1) (if (ptr =? 999)%Z then 0%Z else ptr) arr =
     Some (length pre + S (length postfix), depth, arr')) ->
  Forall segment segs -> chain_ends post ->
  rewrite_at scopes scope_vars sid
    (pre ++ x :: postfix ++ chain_tokens segs ++ post) (length pre) =
  Some (pre ++ chain_rewritten depth x postfix segs ++ post,
        length pre + length (chain_rewritten depth x postfix segs) - 1).
Proof.
  intros Hx Hres Hknown Hwalk Hsegs Hend. unfold rewrite_at.
  rewrite list_lookup_middle by done.
  rewrite (proj2 (ty_is_true x Identifier) Hx). cbn [negb].
  rewrite Hres. cbn [mbind option_bind]. rewrite Hknown.
  set (ln := pre ++ x :: postfix ++ chain_tokens segs ++ post) in *.
  assert (Hlen : length ln = S (length pre + length postfix +
                                length (chain_tokens segs) + length post)).
  { unfold ln. rewrite length_app. simpl. rewrite !length_app. lia. }
  rewrite Hlen, Hwalk. cbn [mbind option_bind]. unfold ln.
  rewrite dot_loop_app_base.
  rewrite dot_loop_chain; [|done|done|].
  - pose proof (chain_rewritten_length segs depth x postfix).
    simpl. destruct (Nat.ltb_spec 0 (length pre +
      length (chain_rewritten depth x postfix segs))); [done|lia].
  - assert (length (chain_tokens segs) = 2 * length segs).
    { clear. induction segs as [|[d f] segs IH]; simpl; lia. }
    lia.
Qed.

Lemma postfix_walk_at_dot (fuel : nat) (pre : list Token) (d f : Token)
    (l : list Token) (p a : Z) :
  segment (d, f) ->
  postfix_walk fuel (pre ++ d :: f :: l) (length pre) p a =
  Some (length pre, p, a).
Proof.
  intros [Hd _]. simpl in Hd.
  assert (Hj : (pre ++ d :: f :: l) !! length pre = Some d)
    by (by rewrite list_lookup_middle).
  apply postfix_walk_stops; rewrite (is_p_punct _ _ _ _ Hj);
    by apply (tok_p_other d ".").
Qed.

(** C3, as amended: when the scan stands on an Identifier [x] that
    resolves to a pointer level of 2 or more (4 for [T**** x]; not 999,
    the level of a name without a declarator) and a chain of member
    accesses follows, the rewriter wraps once for each [. IDENT] segment
    while the effective depth is 2 or more, the depth going down by one
    with each wrapping, and turns the [.] of every further segment into
    [->].  The single access [x . f] becomes [( * x ) -> f] at every such
    level; at level 4 the chain [x . a . b . c . e] becomes
    [( * ( * ( * x ) -> a ) -> b ) -> c -> e]. *)
Theorem C3_multi_level_pointer (scopes : list Scope)
    (scope_vars : list (gmap string VarInfo)) (sid : Z)
    (x d f : Token) (segs : list (Token * Token)) (ptr arr : Z) :
  type x = Identifier ->
  resolve_ptr_level scopes scope_vars sid (text x) = Some (ptr, arr) ->
  (1 < ptr)%Z -> ptr <> 999%Z ->
  segment (d, f) -> Forall segment segs ->
  (forall pre post, chain_ends post ->
     rewrite_at scopes scope_vars sid
       (pre ++ x :: chain_tokens ((d, f) :: segs) ++ post) (length pre) =
     Some (pre ++ chain_rewritten ptr x [] ((d, f) :: segs) ++ post,
           length pre + length (chain_rewritten ptr x [] ((d, f) :: segs))
           - 1)) /\
  rewrite_member_chains scopes scope_vars sid
    (x :: chain_tokens ((d, f) :: segs)) =
    Some (chain_rewritten ptr x [] ((d, f) :: segs)) /\
  chain_rewritten ptr x [] [(d, f)] = wrapped_once x d f /\
  (forall d2 a2 d3 a3 d4 a4,
     chain_rewritten 4 x [] [(d, f); (d2, a2); (d3, a3); (d4, a4)] =
     [ retag x Punct "("; retag x Operator "*";
       retag x Punct "("; retag x Operator "*";
       retag x Punct "("; retag x Operator "*"; x;
       retag d Punct ")"; retag d Operator "->"; f;
       retag d2 Punct ")"; retag d2 Operator "->"; a2;
       retag d3 Punct ")"; retag d3 Operator "->"; a3;
       retag d4 Operator "->"; a4 ]).
Proof.
  intros Hx Hres Hptr Hne Hd Hsegs.
  assert (Hknown : (ptr =? 999)%Z && (arr =? 0)%Z = false).
  { destruct (Z.eqb_spec ptr 999); [done|done]. }
  assert (Hat : forall pre post, chain_ends post ->
     rewrite_at scopes scope_vars sid
       (pre ++ x :: chain_tokens ((d, f) :: segs) ++ post) (length pre) =
     Some (pre ++ chain_rewritten ptr x [] ((d, f) :: segs) ++ post,
           length pre + length (chain_rewritten ptr x [] ((d, f) :: segs))
           - 1)).
  { intros pre post Hend.
    apply (rewrite_at_chain scopes scope_vars sid pre x []
             ((d, f) :: segs) post ptr arr ptr arr); try done.
    - intros fuel. destruct (Z.eqb_spec ptr 999); [done|].
      change (pre ++ x :: [] ++ chain_tokens ((d, f) :: segs) ++ post) with
        (pre ++ [x] ++ d :: f :: (chain_tokens segs ++ post)).
      rewrite app_assoc.
      replace (length pre + 1) with (length (pre ++ [x]))
        by (rewrite length_app; simpl; lia).
      rewrite postfix_walk_at_dot by done.
      rewrite length_app. simpl. do 3 f_equal.
    - by constructor. }
  split; [exact Hat|]. split; [|split].
  - unfold rewrite_member_chains.
    specialize (Hat [] [] eq_refl). rewrite !app_nil_r in Hat.
    change ([] ++ ?l) with l in Hat.
    change (length (@nil Token) + ?n) with n in Hat.
    pose proof (chain_rewritten_length ((d, f) :: segs) ptr x []) as Hlen.
    set (ln := x :: chain_tokens ((d, f) :: segs)) in *.
    assert (Hln : length ln = S (length (chain_tokens ((d, f) :: segs))))
      by done.
    rewrite Hln.
    rewrite (rewrite_loop_step _ _ _ _ ln 0 _ _ ltac:(lia) Hat).
    apply rewrite_loop_done. simpl. lia.
  - cbn [chain_rewritten]. destruct (Z.eqb_spec ptr 1); [lia|].
    destruct (Z.ltb_spec 1 ptr); [done|lia].
  - intros. reflexivity.
Qed.

Lemma C3_multi_level_pointer_witness :
  rewrite_member_chains deep_scopes deep_vars 0
    [ mkToken Identifier "x" 2 1 0;
      mkToken Punct "." 2 2 0; mkToken Identifier "a" 2 3 0;
      mkToken Punct "." 2 4 0; mkToken Identifier "b" 2 5 0;
      mkToken Punct "." 2 6 0; mkToken Identifier "c" 2 7 0;
      mkToken Punct "." 2 8 0; mkToken Identifier "e" 2 9 0 ] =
  Some [ mkToken Punct "(" 2 1 0; mkToken Operator "*" 2 1 0;
         mkToken Punct "(" 2 1 0; mkToken Operator "*" 2 1 0;
         mkToken Punct "(" 2 1 0; mkToken Operator "*" 2 1 0;
         mkToken Identifier "x" 2 1 0;
         mkToken Punct ")" 2 2 0; mkToken Operator "->" 2 2 0;
         mkToken Identifier "a" 2 3 0;
         mkToken Punct ")" 2 4 0; mkToken Operator "->" 2 4 0;
         mkToken Identifier "b" 2 5 0;
         mkToken Punct ")" 2 6 0; mkToken Operator "->" 2 6 0;
         mkToken Identifier "c" 2 7 0;
         mkToken Operator "->" 2 8 0; mkToken Identifier "e" 2 9 0 ].
Proof.
  apply (proj1 (proj2
    (C3_multi_level_pointer deep_scopes deep_vars 0
       (mkToken Identifier "x" 2 1 0) (mkToken Punct "." 2 2 0)
       (mkToken Identifier "a" 2 3 0)
       [ (mkToken Punct "." 2 4 0, mkToken Identifier "b" 2 5 0);
         (mkToken Punct "." 2 6 0, mkToken Identifier "c" 2 7 0);
         (mkToken Punct "." 2 8 0, mkToken Identifier "e" 2 9 0) ] 4 0
       eq_refl ltac:(vm_compute; reflexivity) ltac:(lia) ltac:(lia)
       ltac:(repeat split)
       ltac:(repeat constructor)))).
Defined.

(** For [T**** x], the access [x.f] is rewritten with one wrapping, not
    three: the line reaches the emitter as [( * x ) -> f ;]. *)
Lemma C3_one_wrapping_only :
  resolve_ptr_level deep_scopes deep_vars 0 "x" = Some (4, 0)%Z /\
  (map text <$> rewrite_member_chains deep_scopes deep_vars 0 deep_line) =
    Some [ "("; "*"; "x"; ")"; "->"; "f" ]%string /\
  (map text <$> rewrite_member_chains deep_scopes deep_vars 0 deep_line) <>
    Some three_wrappings /\
  (edited_views deep_text ≫= (.!! 1)) =
    Some [ (Punct, "("); (Operator, "*"); (Identifier, "x"); (Punct, ")");
           (Operator, "->"); (Identifier, "f"); (Punct, ";") ]%string.
Proof.
  split; [vm_compute; reflexivity|].
  split; [vm_compute; reflexivity|].
  split; [vm_compute; discriminate|].
  vm_compute. reflexivity.
Qed.

(** ** Subscripts on a deposited parameter *)






(** ** Line termination *)

Lemma needs_semicolon_spec (ln : list Token) (scope_kind : string) :
  needs_semicolon ln scope_kind = true <-> needs_terminator ln scope_kind.
Proof.
  unfold needs_semicolon, needs_terminator.
  destruct ln as [|first rest]; [split; [done | by intros (? & ? & ? & _)]|].
  destruct (last (first :: rest)) as [lst|] eqn:Hlast;
    [|split; [done | by intros (? & ? & _ & ? & _)]].
  set (ln := first :: rest) in *.
  assert (Hbody : forall f : Token -> bool,
            existsb f (removelast ln) = true <->
            exists t, t ∈ removelast ln /\ f t = true)
    by (intros; apply existsb_elem_of).
  destruct (String.eqb scope_kind "Enum") eqn:Ek.
  { apply String.eqb_eq in Ek.
    split; [done | by intros (? & ? & _ & _ & ? & _)]. }
  apply String.eqb_neq in Ek.
  destruct (ty_is first Preprocessor) eqn:Ef.
  { apply ty_is_true in Ef.
    split; [done|]. intros (f & ? & Hf & _ & _ & ? & _).
    simpl in Hf. congruence. }
  apply ty_is_false in Ef.
  destruct (tok_p lst "}") eqn:Eclose.
  - apply tok_p_true in Eclose.
    rewrite andb_true_iff, !Hbody.
    split.
    + intros [(t1 & ? & ?%tok_op_true) (t2 & ? & ?%tok_p_true)].
      exists first, lst. repeat split; try done. left.
      split; [done|]. split; [by exists t1 | by exists t2].
    + intros (f & l & _ & Hl & _ & _ & H). assert (l = lst) as -> by congruence.
      destruct H as [(_ & (t1 & ? & ?) & (t2 & ? & ?)) | (? & _)]; [|done].
      split; [exists t1 | exists t2]; split; try done;
        [by apply tok_op_true | by apply tok_p_true].
  - apply tok_p_false in Eclose.
    destruct (ty_is lst Punct && (txt_is lst "{" || txt_is lst ";")) eqn:Eopen.
    { apply andb_true_iff in Eopen as [Ht%ty_is_true Hx%orb_true_iff].
      rewrite !txt_is_true in Hx.
      split; [done|]. intros (f & l & _ & Hl & _ & _ & H).
      assert (l = lst) as -> by congruence.
      destruct H as [(? & _) | (_ & H1 & H2 & _)]; [done|].
      destruct Hx; exfalso; [apply H1 | apply H2]; by split. }
    assert (~ punct lst "{" /\ ~ punct lst ";") as [Hno1 Hno2].
    { apply andb_false_iff in Eopen. unfold punct.
      rewrite ty_is_false, orb_false_iff in Eopen.
      rewrite <- !not_true_iff_false, !txt_is_true in Eopen. tauto. }
    destruct (existsb is_ctrl ln && tok_p lst ")") eqn:Ectl.
    { apply andb_true_iff in Ectl as [Hc%existsb_elem_of Hp%tok_p_true].
      split; [done|]. intros (f & l & _ & Hl & _ & _ & H).
      assert (l = lst) as -> by congruence.
      destruct H as [(? & _) | (_ & _ & _ & H & _)]; [done|].
      exfalso. apply H; [|done].
      destruct Hc as (t & ? & ?%is_ctrl_true). by exists t. }
    assert (Hctl : (exists t, t ∈ ln /\ ctrl_keyword t) -> ~ punct lst ")").
    { intros (t & Ht & Hk) Hp. apply andb_false_iff in Ectl as [Hc | Hc].
      - apply not_true_iff_false in Hc. apply Hc, existsb_elem_of.
        exists t. split; [done | by apply is_ctrl_true].
      - apply tok_p_false in Hc. done. }
    destruct (ty_is lst Identifier || ty_is lst Number || ty_is lst StringLit ||
              (ty_is lst Punct && (txt_is lst ")" || txt_is lst "]"))) eqn:Ev.
    + apply value_end_true in Ev. split; [|done]. intros _.
      exists first, lst. repeat split; try done. right. done.
    + apply not_true_iff_false in Ev. rewrite value_end_true in Ev.
      split; [done|]. intros (f & l & _ & Hl & _ & _ & H).
      assert (l = lst) as -> by congruence.
      destruct H as [(? & _) | (_ & _ & _ & _ & ?)]; done.
Qed.

(** C4, as amended: the semicolon inserter appends a terminating [;]
    Punct to a line exactly when the line is non-empty, its scope kind is
    not Enum, its first token is not a Preprocessor token, and either its
    last token is a [}] Punct and the line holds a [=] Operator and a [{]
    Punct before it, or its last token is not [}], [{] or [;], is not a
    [)] when the line holds one of the keywords [if], [for], [while],
    [switch], and is an Identifier, Number, StringLit, [)] or []];
    otherwise the line is left as it is. *)
Theorem C4_line_termination (ln : list Token) (scope_kind : string) :
  (needs_semicolon ln scope_kind = true <-> needs_terminator ln scope_kind) /\
  (needs_terminator ln scope_kind ->
   exists semi, punct semi ";" /\ terminate_line ln scope_kind = ln ++ [semi]) /\
  (~ needs_terminator ln scope_kind -> terminate_line ln scope_kind = ln).
Proof.
  pose proof (needs_semicolon_spec ln scope_kind) as Hspec.
  split; [exact Hspec|]. unfold terminate_line. split.
  - intros H. pose proof H as (first & lst & _ & -> & _).
    apply Hspec in H as ->. eexists. split; [|reflexivity]. done.
  - intros H. destruct (last ln); [|done].
    destruct (needs_semicolon ln scope_kind); [|done].
    exfalso. by apply H, Hspec.
Qed.

Lemma init_list_line_needs : needs_terminator init_list_line "Global".
Proof. apply needs_semicolon_spec. reflexivity. Qed.

Lemma C4_line_termination_witness :
  exists semi, punct semi ";" /\
    terminate_line init_list_line "Global" = init_list_line ++ [semi].
Proof.
  apply (proj1 (proj2 (C4_line_termination init_list_line "Global"))).
  exact init_list_line_needs.
Defined.

(** The conjunction as the specification lists it fails on the line
    [x = { }]: the line is terminated, but its last token is none of
    Identifier, Number, StringLit, [)], []]. *)
Lemma C4_listed_conditions_fail :
  terminate_line init_list_line "Global" =
    init_list_line ++ [mkToken Punct ";" 1 8 0] /\
  ~ listed_conditions init_list_line "Global".
Proof.
  split; [reflexivity|].
  intros (first & lst & _ & Hl & _ & _ & _ & _ & _ & _ & Hv).
  injection Hl as <-.
  destruct Hv as [H | [H | [H | [[_ H] | [_ H]]]]]; discriminate H.
Qed.

(** ** The emitter *)

(** C7 at its failing inputs: [emit_line] writes a space before and after
    a [.] and a [->] token and after a [(] and a [[] token; only the
    space before [,], [)], []], [;] and at the start of the line is left
    out.  The file [q.x = f(a, v[0])] is written as
    [q . x = f ( a, v [ 0]);]. *)
Theorem C7_emit_line_spacing :
  emit_line dot_line = ("p . x" ++ nl)%string /\
  emit_line arrow_line = ("p -> x" ++ nl)%string /\
  emit_line call_line = ("f ( a, v [ 0]);" ++ nl)%string /\
  written_text ("q.x = f(a, v[0])" ++ nl) =
    Some ("q . x = f ( a, v [ 0]);" ++ nl)%string.
Proof. repeat split; vm_compute; reflexivity. Qed.

(** ** The third scenario *)

(** The relaxed detector reports a declaration only when the token after
    the declarator and its closed subscripts is one of [;], [,], [[], [=]
    and [{]. *)
Lemma detect_relaxed_lookahead (tk : list Token) (i j : nat) (nm : string)
    (ns ar : Z) :
  detect_relaxed_declaration tk i = Some (Some (j, nm, ns, ar)) ->
  is_p tk j ";" || is_p tk j "," || is_p tk j "[" ||
  is_op tk j "=" || is_p tk j "{" = true.
Proof.
  unfold detect_relaxed_declaration. intros H.
  destruct (tk !! i) as [t|]; [|done]. destruct (negb _); [done|].
  destruct (if ty_is t Keyword then _ else _) as [j0|]; [|done].
  destruct (tk !! _) as [tn|]; [|done]. destruct (negb _); [done|].
  apply bind_Some in H as ([j3 arrays] & _ & H).
  destruct (is_p tk j3 ";" || is_p tk j3 "," || is_p tk j3 "[" ||
            is_op tk j3 "=" || is_p tk j3 "{") eqn:E; [|done].
  by injection H as <- _ _ _.
Qed.

(** C1 at its input: for the file [Vec2* p], [p.x = 3] (two lines) the
    translator writes [Vec2 * p;] and [p . x = 3;].  The declarator [p]
    ends its line, the token after it is the [p] of the next line, and the
    relaxed detector, which looks for one of [;], [,], [[], [=], [{]
    there, reports nothing: no record is made for [p] and the [.] stays.
    The declarator path for known types records the same declarator at
    the end of its line ([int* p] gives [p -> x]), and so does the relaxed
    detector when the source holds the [;] ([Vec2* p;]). *)
Theorem C1_scenario_pointer_not_recorded :
  written_text vec_text =
    Some ("Vec2 * p;" ++ nl ++ "p . x = 3;" ++ nl)%string /\
  written_text vec_text <>
    Some ("Vec2* p;" ++ nl ++ "p->x = 3;" ++ nl)%string /\
  detect_relaxed_declaration (tokens_of vec_text) 0 = Some None /\
  global_record vec_text "p" = Some (999, 0)%Z /\
  edited_views vec_text =
    Some [ [ (Identifier, "Vec2"); (Operator, "*"); (Identifier, "p");
             (Punct, ";") ];
           [ (Identifier, "p"); (Punct, "."); (Identifier, "x");
             (Operator, "="); (Number, "3"); (Punct, ";") ] ]%string /\
  (global_record int_text "p" = Some (1, 0)%Z /\
   edited_views int_text =
     Some [ [ (Keyword, "int"); (Operator, "*"); (Identifier, "p");
              (Punct, ";") ];
            [ (Identifier, "p"); (Operator, "->"); (Identifier, "x");
              (Operator, "="); (Number, "3"); (Punct, ";") ] ]%string) /\
  (detect_relaxed_declaration (tokens_of vec_text_terminated) 0 =
     Some (Some (3, "p"%string, 1%Z, 0%Z)) /\
   global_record vec_text_terminated "p" = Some (1, 0)%Z /\
   edited_views vec_text_terminated =
     Some [ [ (Identifier, "Vec2"); (Operator, "*"); (Identifier, "p");
              (Punct, ";") ];
            [ (Identifier, "p"); (Operator, "->"); (Identifier, "x");
              (Operator, "="); (Number, "3"); (Punct, ";") ] ]%string).
Proof.
  split; [vm_compute; reflexivity|].
  split; [vm_compute; discriminate|].
  repeat split; vm_compute; reflexivity.
Qed.

(** * Further properties of the code *)

(** ** The output path *)

Lemma find_last_of_app (set a b : list ascii) :
  find_last_of set (a ++ b) =
  match find_last_of set b with
  | Some k => Some (length a + k)
  | None => find_last_of set a
  end.
Proof.
  induction a as [|c a IH]; simpl.
  - by destruct (find_last_of set b).
  - rewrite IH. by destruct (find_last_of set b).
Qed.

Lemma find_last_of_none (set s : list ascii) :
  Forall (fun c => existsb (ch_eq c) set = false) s ->
  find_last_of set s = None.
Proof.
  induction 1 as [|c s Hc _ IH]; simpl; [done|]. by rewrite IH, Hc.
Qed.

Lemma find_last_of_lt (set s : list ascii) (k : nat) :
  find_last_of set s = Some k ->
  k < length s /\ exists c, s !! k = Some c /\ existsb (ch_eq c) set = true.
Proof.
  revert k. induction s as [|c s IH]; intros k; simpl; [done|].
  destruct (find_last_of set s) as [j|].
  - intros [= <-]. destruct (IH j eq_refl) as (Hlt & d & Hd & Hin).
    split; [lia|]. by exists d.
  - destruct (existsb (ch_eq c) set) eqn:Hc; [|done].
    intros [= <-]. split; [lia|]. by exists c.
Qed.

Lemma plain_no_dot (s : list ascii) :
  Forall (fun c => plain_char c = true) s ->
  Forall (fun c => existsb (ch_eq c) ["."%char] = false) s.
Proof.
  intros H. eapply Forall_impl; [exact H|].
  intros c. unfold plain_char. simpl. by destruct (ch_eq c ".").
Qed.

Lemma plain_no_sep (s : list ascii) :
  Forall (fun c => plain_char c = true) s ->
  Forall (fun c => existsb (ch_eq c) ["/"%char; ch_bs] = false) s.
Proof.
  intros H. eapply Forall_impl; [exact H|].
  intros c. unfold plain_char, is_sep. simpl.
  destruct (ch_eq c "."), (ch_eq c "/"), (ch_eq c ch_bs); done.
Qed.

Lemma replace_ext_replaces (stem ext newext : list ascii) :
  Forall (fun c => plain_char c = true) ext ->
  replace_ext (stem ++ "."%char :: ext) newext = stem ++ newext.
Proof.
  intros Hext. unfold replace_ext. rewrite !find_last_of_app. simpl.
  rewrite (find_last_of_none _ _ (plain_no_dot _ Hext)).
  rewrite (find_last_of_none _ _ (plain_no_sep _ Hext)). simpl.
  rewrite Nat.add_0_r.
  assert (Htake : take (length stem) (stem ++ "."%char :: ext) = stem)
    by (by rewrite take_app_length).
  destruct (find_last_of ["/"%char; ch_bs] stem) as [sp|] eqn:Hsp;
    [|by rewrite Htake].
  apply find_last_of_lt in Hsp as [Hlt _].
  destruct (Nat.ltb_spec (length stem) sp); [lia|]. by rewrite Htake.
Qed.

Lemma replace_ext_appends (dir base newext : list ascii) :
  dir_prefix dir ->
  Forall (fun c => ch_eq c "." = false) base ->
  replace_ext (dir ++ base) newext = dir ++ base ++ newext.
Proof.
  intros Hdir Hbase. unfold replace_ext.
  assert (Hnd : find_last_of ["."%char] base = None).
  { apply find_last_of_none. eapply Forall_impl; [exact Hbase|].
    intros c Hc. simpl. by rewrite Hc. }
  rewrite (find_last_of_app ["."%char]), Hnd.
  destruct (find_last_of ["."%char] dir) as [d|] eqn:Hd;
    [|by rewrite <- app_assoc].
  destruct Hdir as [-> | (d0 & c & -> & Hc)]; [done|].
  rewrite find_last_of_app in Hd. simpl in Hd.
  assert (Hcd : ch_eq c "." = false).
  { unfold is_sep in Hc. destruct (ch_eq c ".") eqn:E; [|done].
    apply ch_eq_true in E as ->. done. }
  rewrite Hcd in Hd. simpl in Hd.
  apply find_last_of_lt in Hd as [Hlt _].
  assert (Hsep : exists sp, find_last_of ["/"%char; ch_bs] ((d0 ++ [c]) ++ base)
                            = Some sp /\ length d0 <= sp).
  { rewrite find_last_of_app.
    destruct (find_last_of ["/"%char; ch_bs] base) as [k|].
    - exists (length (d0 ++ [c]) + k). split; [done|].
      rewrite length_app. simpl. lia.
    - rewrite find_last_of_app. simpl. unfold is_sep in Hc.
      replace (ch_eq c "/" || (ch_eq c ch_bs || false)) with true
        by (by destruct (ch_eq c "/"), (ch_eq c ch_bs)).
      eexists. split; [done|]. lia. }
  destruct Hsep as (sp & -> & Hle).
  destruct (Nat.ltb_spec d sp); [|lia]. by rewrite <- !app_assoc.
Qed.

(** X1: the output path.  A last segment without a dot gets the new
    extension appended, also when a directory before it holds a dot; a
    last dot that no separator follows starts the extension that is
    replaced. *)
Theorem replace_ext_cases (newext : list ascii) :
  (forall dir base,
     dir_prefix dir -> Forall (fun c => ch_eq c "." = false) base ->
     replace_ext (dir ++ base) newext = dir ++ base ++ newext) /\
  (forall stem ext,
     Forall (fun c => plain_char c = true) ext ->
     replace_ext (stem ++ "."%char :: ext) newext = stem ++ newext).
Proof.
  split; intros; [by apply replace_ext_appends | by apply replace_ext_replaces].
Qed.

Lemma replace_ext_cases_witness :
  replace_ext (bytes "src.d/" ++ bytes "main") (bytes ".cpp") =
    bytes "src.d/" ++ bytes "main" ++ bytes ".cpp" /\
  replace_ext (bytes "src.d/main" ++ "."%char :: bytes "cp") (bytes ".cpp") =
    bytes "src.d/main" ++ bytes ".cpp".
Proof.
  split.
  - apply (proj1 (replace_ext_cases (bytes ".cpp"))).
    + right. exists (bytes "src.d"), "/"%char. by split.
    + repeat constructor.
  - apply (proj2 (replace_ext_cases (bytes ".cpp"))). repeat constructor.
Defined.

Lemma replace_ext_stem (path newext : list ascii) :
  exists stem, replace_ext path newext = stem ++ newext.
Proof.
  unfold replace_ext.
  destruct (find_last_of ["."%char] path) as [d|]; [|by eexists].
  destruct (find_last_of _ path) as [sp|]; [|by eexists].
  destruct (d <? sp); by eexists.
Qed.

(** X2: the output path of an output path is itself: replacing the
    extension by [.ext] twice is the same as once, for an extension that
    starts with its only dot and holds no separator. *)
Theorem replace_ext_idempotent (path ext : list ascii) :
  Forall (fun c => plain_char c = true) ext ->
  replace_ext (replace_ext path ("."%char :: ext)) ("."%char :: ext) =
  replace_ext path ("."%char :: ext).
Proof.
  intros Hext. destruct (replace_ext_stem path ("."%char :: ext)) as [stem ->].
  by apply replace_ext_replaces.
Qed.

Lemma replace_ext_idempotent_witness :
  replace_ext (replace_ext (bytes "a.b/c.cp") ("."%char :: bytes "cpp"))
    ("."%char :: bytes "cpp") =
  replace_ext (bytes "a.b/c.cp") ("."%char :: bytes "cpp").
Proof. apply replace_ext_idempotent. repeat constructor. Defined.

(** ** Line continuations *)

Lemma normalize_cr_app (a b : list ascii) :
  next_is ch_nl b = false ->
  normalize_cr (a ++ b) = normalize_cr a ++ normalize_cr b.
Proof.
  intros Hb. induction a as [|c a IH]; simpl; [done|].
  rewrite IH. destruct (ch_eq c ch_cr); [|done].
  destruct a as [|d a].
  - change ([] ++ b) with b. by rewrite Hb.
  - simpl. by destruct (ch_eq d ch_nl).
Qed.

(** X3: a backslash at the end of a line joins it to the next line,
    whether the line ends in LF or in CR LF: the text before and the text
    after are normalized as they would be alone. *)
Theorem continuation_joins_lines (pre post : list ascii) :
  preprocess_physical_lines (pre ++ ch_bs :: ch_nl :: post) =
    preprocess_physical_lines pre ++ preprocess_physical_lines post /\
  preprocess_physical_lines (pre ++ ch_bs :: ch_cr :: ch_nl :: post) =
    preprocess_physical_lines pre ++ preprocess_physical_lines post.
Proof.
  unfold preprocess_physical_lines. split.
  - rewrite normalize_cr_app by done.
    change (normalize_cr (ch_bs :: ch_nl :: post)) with
      (ch_bs :: ch_nl :: normalize_cr post).
    apply splice_removes_pair.
  - rewrite normalize_cr_app by done.
    change (normalize_cr (ch_bs :: ch_cr :: ch_nl :: post)) with
      (ch_bs :: ch_nl :: normalize_cr post).
    apply splice_removes_pair.
Qed.

(** ** The tokens of the lexer *)

Lemma lex_loop_unfold (fuel : nat) (c : ascii) (r : list ascii) (ln cl : Z)
    (out : list Token) :
  lex_loop (S fuel) (c :: r) ln cl out =
  match lex_step c r ln cl with
  | StepArrow l k => Some (LexArrow l k)
  | StepNext rest ln' cl' tok =>
      lex_loop fuel rest ln' cl'
        (match tok with Some t => out ++ [t] | None => out end)
  end.
Proof.
  cbn [lex_loop]. unfold lex_step.
  repeat match goal with
  | |- context [if ?b then _ else _] => destruct b
  | |- context [let '(_, _) := ?x in _] => destruct x
  | |- context [match ?x with [] => _ | _ :: _ => _ end] => destruct x
  end; reflexivity.
Qed.

Lemma scan_line_text (s : list ascii) :
  forall cl t rest cl', scan_line s cl = (t, rest, cl') ->
    t ++ rest = s /\ (ch_nl ∉ t) /\ (cl <= cl')%Z.
Proof.
  induction s as [|c r IH]; intros cl t rest cl' H; simpl in H.
  - injection H as <- <- <-. split; [done|]. split; [apply not_elem_of_nil|lia].
  - destruct (ch_eq c ch_nl) eqn:Ec.
    + injection H as <- <- <-. split; [done|].
      split; [apply not_elem_of_nil|lia].
    + destruct (scan_line r (cl + 1)) as [[t0 rest0] cl0] eqn:Er.
      injection H as <- <- <-. destruct (IH _ _ _ _ Er) as (H1 & H2 & H3).
      split; [simpl; by rewrite H1|]. split; [|lia].
      apply not_elem_of_cons. split; [|done].
      apply ch_eq_false in Ec. congruence.
Qed.

Lemma skip_block_rest (s : list ascii) :
  forall ln cl rest ln' cl', skip_block s ln cl = (rest, ln', cl') ->
    rest `suffix_of` s /\ (ln <= ln')%Z /\ ((1 <= cl)%Z -> (1 <= cl')%Z).
Proof.
  induction s as [|c r IH]; intros ln cl rest ln' cl' H.
  - simpl in H. injection H as <- <- <-. done.
  - destruct r as [|d r'].
    + simpl in H. injection H as <- <- <-. done.
    + change (skip_block (c :: d :: r') ln cl) with
        (if ch_eq c ch_nl then skip_block (d :: r') (ln + 1) 1
         else if ch_eq c "*" && ch_eq d "/" then (r', ln, (cl + 2)%Z)
         else skip_block (d :: r') ln (cl + 1)) in H.
      destruct (ch_eq c ch_nl).
      * destruct (IH _ _ _ _ _ H) as (H1 & H2 & H3).
        split; [by apply suffix_cons_r|]. split; [lia|]. intros _. apply H3. lia.
      * destruct (ch_eq c "*" && ch_eq d "/").
        -- injection H as <- <- <-.
           split; [by do 2 apply suffix_cons_r|]. split; lia.
        -- destruct (IH _ _ _ _ _ H) as (H1 & H2 & H3).
           split; [by apply suffix_cons_r|]. split; [lia|].
           intros ?. apply H3. lia.
Qed.

Lemma scan_string_text (n : nat) :
  forall s, length s <= n ->
  forall ln cl t rest ln' cl', scan_string s ln cl = (t, rest, ln', cl') ->
    t ++ rest = s /\ (ln <= ln')%Z /\ ((1 <= cl)%Z -> (1 <= cl')%Z).
Proof.
  induction n as [|n IH]; intros s Hn ln cl t rest ln' cl' H.
  - destruct s; [|simpl in Hn; lia]. simpl in H.
    injection H as <- <- <- <-. done.
  - destruct s as [|d r]; [simpl in H; by injection H as <- <- <- <-|].
    simpl in Hn. simpl in H.
    destruct (ch_eq d ch_bs).
    + destruct r as [|e r'].
      * injection H as <- <- <- <-. split; [done|]. split; lia.
      * destruct (scan_string r' ln (cl + 2)) as [[[t0 rest0] ln0] cl0] eqn:Er.
        injection H as <- <- <- <-.
        destruct (IH r' ltac:(simpl in Hn; lia) _ _ _ _ _ _ Er) as (H1 & H2 & H3).
        split; [simpl; by rewrite H1|]. split; [lia|]. intros ?. apply H3. lia.
    + destruct (ch_eq d ch_dq).
      * injection H as <- <- <- <-. split; [done|]. split; lia.
      * destruct (ch_eq d ch_nl).
        -- destruct (scan_string r (ln + 1) 1) as [[[t0 rest0] ln0] cl0] eqn:Er.
           injection H as <- <- <- <-.
           destruct (IH r ltac:(lia) _ _ _ _ _ _ Er) as (H1 & H2 & H3).
           split; [simpl; by rewrite H1|]. split; [lia|]. intros _. apply H3. lia.
        -- destruct (scan_string r ln (cl + 1)) as [[[t0 rest0] ln0] cl0] eqn:Er.
           injection H as <- <- <- <-.
           destruct (IH r ltac:(lia) _ _ _ _ _ _ Er) as (H1 & H2 & H3).
           split; [simpl; by rewrite H1|]. split; [lia|]. intros ?. apply H3. lia.
Qed.

Lemma scan_number_text (s : list ascii) :
  forall dot t rest, scan_number s dot = (t, rest) ->
    t ++ rest = s /\ Forall (fun d => isdigit d || ch_eq d "." = true) t.
Proof.
  induction s as [|d r IH]; intros dot t rest H; simpl in H.
  - injection H as <- <-. done.
  - destruct (isdigit d) eqn:Ed.
    + destruct (scan_number r dot) as [t0 rest0] eqn:Er.
      injection H as <- <-. destruct (IH _ _ _ Er) as [H1 H2].
      split; [simpl; by rewrite H1|]. constructor; [by rewrite Ed | done].
    + destruct (ch_eq d "." && negb dot) eqn:Edot.
      * destruct (scan_number r true) as [t0 rest0] eqn:Er.
        injection H as <- <-. destruct (IH _ _ _ Er) as [H1 H2].
        split; [simpl; by rewrite H1|].
        apply andb_true_iff in Edot as [Edot _].
        constructor; [by rewrite Edot, orb_true_r | done].
      * injection H as <- <-. done.
Qed.

Lemma scan_ident_text (s : list ascii) :
  forall t rest, scan_ident s = (t, rest) ->
    t ++ rest = s /\ Forall (fun d => isIdentChar d = true) t.
Proof.
  induction s as [|d r IH]; intros t rest H; simpl in H.
  - injection H as <- <-. done.
  - destruct (isIdentChar d) eqn:Ed.
    + destruct (scan_ident r) as [t0 rest0] eqn:Er.
      injection H as <- <-. destruct (IH _ _ eq_refl) as [H1 H2].
      split; [simpl; by rewrite H1|]. by constructor.
    + injection H as <- <-. done.
Qed.

Lemma chars_lexed (ty : TokenType) (w : list ascii) (ln cl : Z) :
  chars (lexed ty w ln cl) = w.
Proof. unfold chars, lexed. simpl. apply list_ascii_of_string_of_list_ascii. Qed.

Lemma token_shape_lexed (ty : TokenType) (w : list ascii) (ln cl : Z) :
  match ty, w with
  | Identifier, c :: w' =>
      isIdentStart c = true /\ Forall (fun d => isIdentChar d = true) w' /\
      str_in (string_of_list_ascii w) make_keywords = false
  | Keyword, _ => str_in (string_of_list_ascii w) make_keywords = true
  | Number, c :: w' =>
      isdigit c = true /\
      Forall (fun d => isdigit d || ch_eq d "." = true) w'
  | StringLit, c :: _ => c = ch_dq
  | Operator, [c] => is_op_char c = true
  | Operator, _ => str_in (string_of_list_ascii w) two_char_ops = true
  | Punct, [c] => is_punct_char c = true
  | Preprocessor, c :: w' => c = "#"%char /\ ch_nl ∉ w'
  | Unknown, [c] =>
      isspace c = false /\ is_op_char c = false /\ is_punct_char c = false /\
      isIdentStart c = false /\ isdigit c = false
  | _, _ => False
  end ->
  token_shape (lexed ty w ln cl).
Proof.
  intros H. unfold token_shape. rewrite chars_lexed. split; [done|].
  exact H.
Qed.

Lemma app_length_le {A} (t rest s : list A) :
  t ++ rest = s -> length rest <= length s.
Proof. intros <-. rewrite length_app. lia. Qed.

Lemma len_nonneg (t : list ascii) : (0 <= len t)%Z.
Proof. unfold len. lia. Qed.

Lemma lex_step_facts (c : ascii) (r : list ascii) (ln cl : Z)
    (rest : list ascii) (ln' cl' : Z) (otok : option Token) :
  lex_step c r ln cl = StepNext rest ln' cl' otok -> (1 <= cl)%Z ->
  (ln <= ln')%Z /\ (1 <= cl')%Z /\ length rest <= length r /\
  match otok with
  | Some tok =>
      token_shape tok /\ (ln <= line tok <= ln')%Z /\ col tok = cl /\
      chars tok ++ rest = c :: r
  | None => rest `suffix_of` (c :: r)
  end.
Proof.
  unfold lex_step. intros H Hcl.
  destruct (ch_eq c ch_nl) eqn:Enl.
  { injection H as <- <- <- <-. lazy beta iota; split_and!; try lia; try (simpl; lia). by apply suffix_cons_r. }
  destruct (isspace c) eqn:Esp.
  { injection H as <- <- <- <-. lazy beta iota; split_and!; try lia; try (simpl; lia). by apply suffix_cons_r. }
  destruct (ch_eq c "#") eqn:Ehash.
  { simpl scan_line in H. rewrite Enl in H.
    destruct (scan_line r (cl + 1)) as [[t rest0] cl0] eqn:Er.
    injection H as <- <- <- <-.
    destruct (scan_line_text _ _ _ _ _ Er) as (H1 & H2 & H3).
    lazy beta iota; split_and!; try lia; try (simpl; lia).
    - by eapply app_length_le.
    - apply token_shape_lexed. split; [by apply ch_eq_true | done].
    - rewrite chars_lexed. simpl. by rewrite H1. }
  destruct (ch_eq c "/" && next_is "/" r) eqn:Elc.
  { destruct (scan_line (tail r) (cl + 2)) as [[t rest0] cl0] eqn:Er.
    injection H as <- <- <- <-.
    destruct (scan_line_text _ _ _ _ _ Er) as (H1 & H2 & H3).
    assert (Hsuf : rest0 `suffix_of` r).
    { transitivity (tail r); [by exists t | destruct r; [done|]].
      by apply suffix_cons_r. }
    lazy beta iota; split_and!; try lia; try (simpl; lia).
    - by apply suffix_length.
    - by apply suffix_cons_r. }
  destruct (ch_eq c "/" && next_is "*" r) eqn:Ebc.
  { destruct (skip_block (tail r) ln (cl + 2)) as [[rest0 ln0] cl0] eqn:Er.
    injection H as <- <- <- <-.
    destruct (skip_block_rest _ _ _ _ _ _ Er) as (H1 & H2 & H3).
    assert (Hsuf : rest0 `suffix_of` r).
    { transitivity (tail r); [done | destruct r; [done|]].
      by apply suffix_cons_r. }
    lazy beta iota; split_and!; try lia; try (simpl; lia).
    - by apply suffix_length.
    - by apply suffix_cons_r. }
  destruct (ch_eq c ch_dq) eqn:Edq.
  { destruct (scan_string r ln (cl + 1)) as [[[t rest0] ln0] cl0] eqn:Er.
    injection H as <- <- <- <-.
    destruct (scan_string_text _ r (le_n _) _ _ _ _ _ _ Er) as (H1 & H2 & H3).
    lazy beta iota; split_and!; try lia; try (simpl; lia).
    - by eapply app_length_le.
    - apply token_shape_lexed. by apply ch_eq_true.
    - rewrite chars_lexed. simpl. by rewrite H1. }
  destruct (isdigit c) eqn:Edig.
  { simpl scan_number in H. rewrite Edig in H.
    destruct (scan_number r false) as [t rest0] eqn:Er.
    injection H as <- <- <- <-.
    destruct (scan_number_text _ _ _ _ Er) as (H1 & H2).
    pose proof (len_nonneg (c :: t)).
    lazy beta iota; split_and!; try lia; try (simpl; lia).
    - by eapply app_length_le.
    - by apply token_shape_lexed.
    - rewrite chars_lexed. simpl. by rewrite H1. }
  destruct (isIdentStart c) eqn:Eid.
  { destruct (scan_ident r) as [t rest0] eqn:Er.
    cbv zeta in H.
    destruct (str_in (string_of_list_ascii (c :: t)) make_keywords) eqn:Ek;
      injection H as <- <- <- <-;
      destruct (scan_ident_text _ _ _ Er) as (H1 & H2);
      pose proof (len_nonneg (c :: t));
      (lazy beta iota; split_and!; try lia; try (simpl; lia);
       [ by eapply app_length_le
       | by apply token_shape_lexed
       | rewrite chars_lexed; simpl; by rewrite H1 ]). }
  destruct (is_op_char c) eqn:Eop.
  { destruct r as [|d r'].
    - injection H as <- <- <- <-. lazy beta iota; split_and!; try lia; try (simpl; lia).
      + by apply token_shape_lexed.
      + by rewrite chars_lexed.
    - destruct (ch_eq c "-" && ch_eq d ">"); [done|].
      destruct (str_in (string_of_list_ascii [c; d]) two_char_ops) eqn:Etwo.
      + injection H as <- <- <- <-. lazy beta iota; split_and!; try lia; try (simpl; lia).
        * by apply token_shape_lexed.
        * by rewrite chars_lexed.
      + injection H as <- <- <- <-. lazy beta iota; split_and!; try lia; try (simpl; lia).
        * by apply token_shape_lexed.
        * by rewrite chars_lexed. }
  destruct (is_punct_char c) eqn:Ep.
  - injection H as <- <- <- <-. lazy beta iota; split_and!; try lia; try (simpl; lia).
    + by apply token_shape_lexed.
    + by rewrite chars_lexed.
  - injection H as <- <- <- <-. lazy beta iota; split_and!; try lia; try (simpl; lia).
    + by apply token_shape_lexed.
    + by rewrite chars_lexed.
Qed.

Lemma lex_loop_tokens (fuel : nat) :
  forall s ln cl out toks,
    (1 <= cl)%Z ->
    lex_loop fuel s ln cl out = Some (LexOk toks) ->
    exists new,
      toks = out ++ new /\
      Forall token_shape new /\
      Forall (fun t => (ln <= line t)%Z /\ (1 <= col t)%Z) new /\
      StronglySorted by_line new /\
      concat (chars <$> new) `sublist_of` s.
Proof.
  induction fuel as [|fuel IH]; intros s ln cl out toks Hcl H.
  { destruct s; [|done]. injection H as <-. exists [].
    rewrite app_nil_r. repeat split; constructor. }
  destruct s as [|c r].
  { injection H as <-. exists [].
    rewrite app_nil_r. repeat split; constructor. }
  rewrite lex_loop_unfold in H.
  destruct (lex_step c r ln cl) as [|rest ln' cl' otok] eqn:Hstep; [done|].
  destruct (lex_step_facts _ _ _ _ _ _ _ _ Hstep Hcl) as (Hln & Hcl' & _ & Htok).
  destruct (IH _ _ _ _ _ Hcl' H) as (new & -> & Hshape & Hpos & Hsort & Hsub).
  destruct otok as [t|].
  - destruct Htok as (Ht & Hline & Hcol & Hchars).
    exists (t :: new). rewrite <- app_assoc. split; [done|].
    split; [by constructor|]. split; [|split].
    + constructor; [lia|]. eapply Forall_impl; [exact Hpos|].
      intros u [? ?]. lia.
    + constructor; [done|]. eapply Forall_impl; [exact Hpos|].
      intros u [? ?]. unfold by_line. lia.
    + rewrite fmap_cons. simpl. rewrite <- Hchars. by apply sublist_app.
  - exists new. split; [done|]. split; [done|]. split; [|split; [done|]].
    + eapply Forall_impl; [exact Hpos|]. intros u [? ?]. lia.
    + destruct Htok as [k ->]. by apply sublist_inserts_l.
Qed.

Lemma token_shape_not_arrow (t : Token) : token_shape t -> text t <> "->"%string.
Proof.
  intros [_ H] Heq. unfold chars in H. rewrite Heq in H.
  destruct (type t); simpl in H; try done.
  - by destruct H as [H _].
  - by destruct H as [H _].
  - by destruct H as [H _].
Qed.

(** X4: every token that [lex] returns has the text of its type (an
    Identifier is a word that is no keyword, a Keyword is one of the
    keyword list, an Operator is one character that [is_op_char] accepts,
    the character of code 0 among them, or one of the two-character
    operators, and so on), carries the scope id 0, and none has the text
    [->]: an arrow in the output is always the rewriter's. *)
Theorem lex_token_shapes (src : list ascii) (toks : list Token) :
  lex src = Some (LexOk toks) ->
  Forall token_shape toks /\ Forall (fun t => text t <> "->"%string) toks.
Proof.
  intros H. apply lex_loop_tokens in H as (new & -> & Hshape & _); [|done].
  split; [done|]. eapply Forall_impl; [exact Hshape|].
  apply token_shape_not_arrow.
Qed.

Lemma lex_token_shapes_witness :
  let s := ("if (n-->0) s = f(1.5) " ++ String "000" " @ # x")%string in
  (type <$> tokens_of s) =
    [ Keyword; Punct; Identifier; Operator; Operator; Number; Punct;
      Identifier; Operator; Identifier; Punct; Number; Punct;
      Operator; Unknown; Preprocessor ] /\
  Forall token_shape (tokens_of s) /\
  Forall (fun t => text t <> "->"%string) (tokens_of s).
Proof.
  split; [vm_compute; reflexivity|].
  apply (lex_token_shapes
           (bytes ("if (n-->0) s = f(1.5) " ++ String "000" " @ # x"))).
  vm_compute. reflexivity.
Defined.



(** X6: the lexer writes no character of its own: the texts of the
    tokens, one after the other, are characters of the source in the
    order of the source (what is left out is white space and comments). *)
Theorem lex_texts_from_source (src : list ascii) (toks : list Token) :
  lex src = Some (LexOk toks) ->
  concat (chars <$> toks) `sublist_of` src.
Proof.
  intros H. apply lex_loop_tokens in H as (new & -> & _ & _ & _ & Hsub);
    [|done].
  done.
Qed.

Lemma lex_texts_from_source_witness :
  concat (chars <$> tokens_of vec_text) `sublist_of` bytes vec_text.
Proof.
  apply (lex_texts_from_source (bytes vec_text)). vm_compute. reflexivity.
Defined.

(** ** The analysis: tokens and scope tree *)

Lemma same_token_refl (t : Token) : same_token t t.
Proof. done. Qed.

Lemma same_token_set_scope_id (t u : Token) (c : Z) :
  same_token t u -> same_token t (set_scope_id u c).
Proof. done. Qed.

Lemma pending_kind_opened (pk : string) :
  pk ∈ pending_kinds ->
  (if String.eqb pk EmptyString then "Block"%string else pk) ∈ opened_kinds.
Proof.
  unfold pending_kinds, opened_kinds. rewrite !elem_of_cons.
  intros [->|[->|[->|[->|[->|H]]]]]; simpl; try tauto.
  by apply elem_of_nil in H.
Qed.

Lemma drop_insert_scope (tk : list Token) (i : nat) (u : Token) :
  drop (S i) (<[i := u]> tk) = drop (S i) tk.
Proof. by rewrite drop_insert_lt by lia. Qed.

Lemma analyze_step_inv (tk : list Token) (i : nat) (st st' : analysis) :
  analyze_step i st = Some st' ->
  analysis_inv tk i st -> analysis_inv tk (S i) st'.
Proof.
  unfold analyze_step.
  intros H (Hsame & Hdrop & Hids & Hlen & Hroot & Hsc & Hpend & Hwf).
  apply bind_Some in H as (t & Ht & H).
  set (tk1 := <[i := set_scope_id t (a_cur st)]> (a_tk st)) in *.
  destruct (if is_tag_kw tk1 i then _ else _) as [pk1 pn1] eqn:Epk1 in H.
  apply bind_Some in H as ([[pk2 pn2] params] & Hpk2 & H).
  apply bind_Some in H as (m & _ & H).
  apply bind_Some in H as ([m1 handled] & _ & H).
  apply bind_Some in H as (m2 & _ & H).
  assert (Hpk1 : pk1 ∈ pending_kinds).
  { destruct (is_tag_kw tk1 i).
    - injection Epk1 as <- _. unfold pending_kinds. rewrite !elem_of_cons.
      destruct (is_kw tk1 i "struct"); [tauto|].
      destruct (is_kw tk1 i "enum"); tauto.
    - by injection Epk1 as <- _. }
  assert (Hpk2' : pk2 ∈ pending_kinds).
  { destruct (if type_start_tok _ t then _ else _)
      as [[[[i_name [i_lbrace|]] lp] rp]|] in Hpk2.
    - apply bind_Some in Hpk2 as (ps & _ & [= <- _ _]).
      unfold pending_kinds. rewrite !elem_of_cons. tauto.
    - by injection Hpk2 as <- _ _.
    - by injection Hpk2 as <- _ _. }
  assert (Hsame1 : Forall2 same_token tk tk1).
  { apply Forall2_same_length_lookup. split.
    - unfold tk1. rewrite length_insert. by eapply Forall2_length.
    - intros k x y Hx Hy. unfold tk1 in Hy.
      destruct (decide (i = k)) as [->|Hne].
      + rewrite list_lookup_insert_eq in Hy by (by eapply lookup_lt_Some).
        injection Hy as <-. apply same_token_set_scope_id.
        by eapply Forall2_lookup_lr.
      + rewrite list_lookup_insert_ne in Hy by done.
        by eapply Forall2_lookup_lr. }
  assert (Hdrop1 : drop (S i) tk1 = drop (S i) tk).
  { unfold tk1. rewrite drop_insert_scope.
    replace (S i) with (i + 1) by lia. rewrite <- !drop_drop. by rewrite Hdrop. }
  assert (Hids1 : forall k u, k < S i -> tk1 !! k = Some u ->
            (0 <= scope_id u < Z.of_nat (length (a_scopes st)))%Z).
  { intros k u Hk Hu. unfold tk1 in Hu.
    destruct (decide (i = k)) as [->|Hne].
    - rewrite list_lookup_insert_eq in Hu by (by eapply lookup_lt_Some).
      injection Hu as <-. simpl. by destruct Hwf as (_ & _ & ?).
    - rewrite list_lookup_insert_ne in Hu by done.
      apply (Hids k); [lia | done]. }
  clear Epk1 Hpk2.
  pose proof (pending_kind_opened _ Hpk2') as Hkind.
  assert (Hempty : EmptyString ∈ pending_kinds)
    by (unfold pending_kinds; rewrite elem_of_cons; tauto).
  destruct (is_p tk1 i "{") eqn:Eopen.
  - rewrite (is_p_other _ _ _ "}" Eopen) in H by done.
    simpl in H. injection H as <-. unfold analysis_inv. simpl. split_and!.
    + done.
    + done.
    + intros k u Hk Hu. rewrite length_app. simpl.
      specialize (Hids1 k u Hk Hu). lia.
    + rewrite !length_app, length_insert. simpl. lia.
    + rewrite lookup_app_l; [done|]. by eapply lookup_lt_Some.
    + intros k sc Hk. apply lookup_app_Some in Hk as [Hk | [Hlen' Hk]].
      * by apply Hsc.
      * apply list_lookup_singleton_Some in Hk as [Hk0 <-]. simpl.
        split; [lia | done].
    + done.
    + by apply scopes_wf_open.
  - destruct (is_p tk1 i "}").
    + destruct (a_cur st =? 0)%Z eqn:Ecur; simpl in H.
      * injection H as <-. unfold analysis_inv. simpl.
        rewrite length_insert. by split_and!.
      * apply bind_Some in H as ([[cur4 pk4] pn4] & Hsc' & H).
        apply bind_Some in Hsc' as (sc & Hsc' & [= <- <- <-]).
        injection H as <-. unfold analysis_inv. simpl.
        rewrite length_insert. split_and!; try done.
        apply (scopes_wf_close _ (a_cur st)); [done| |done].
        by apply Z.eqb_neq.
    + simpl in H. injection H as <-. unfold analysis_inv. simpl.
      rewrite length_insert. by split_and!.
Qed.

Lemma analyze_loop_inv (tk : list Token) (k : nat) :
  forall i st st',
    analyze_loop k i st = Some st' ->
    analysis_inv tk i st -> analysis_inv tk (k + i) st'.
Proof.
  induction k as [|k IH]; intros i st st' H Hinv; simpl in H.
  - by injection H as <-.
  - apply bind_Some in H as (st1 & H1 & H).
    replace (S k + i) with (k + S i) by lia.
    eapply IH; [exact H|]. by eapply analyze_step_inv.
Qed.

Lemma analysis_inv_initial (tk : list Token) (known : gset string) :
  analysis_inv tk 0
    (mkAnalysis tk [mkScope 0 (-1) "Global" EmptyString] [∅] known 0
       EmptyString EmptyString ∅).
Proof.
  unfold analysis_inv. simpl. split_and!; try done.
  - apply Forall2_same_length_lookup. split; [done|].
    intros k x y Hx Hy. rewrite Hx in Hy. injection Hy as <-. done.
  - intros k u Hk. lia.
  - intros [|k] sc Hk; simpl in Hk.
    + injection Hk as <-. done.
    + by destruct k.
  - unfold pending_kinds. rewrite elem_of_cons. tauto.
  - split; [by apply parents_first_singleton|]. split.
    + intros [|k] sc Hk Hne; [done | by destruct k].
    + simpl. lia.
Qed.

Lemma analysis_inv_final (tk : list Token) (known : gset string)
    (a : analysis) :
  analyze_scopes_and_vars tk known = Some a ->
  analysis_inv tk (length tk) a.
Proof.
  intros H. unfold analyze_scopes_and_vars in H.
  apply (analyze_loop_inv tk) in H; [|apply analysis_inv_initial].
  by rewrite Nat.add_0_r in H.
Qed.

(** X7: the analysis changes nothing of a token but its scope id, and
    the scope id it writes is the index of a scope of the table it
    returns, which has one variable table per scope: the later passes
    index [scopes] and [scope_vars] with it inside their bounds. *)
Theorem analysis_keeps_tokens (tk : list Token) (known : gset string)
    (a : analysis) :
  analyze_scopes_and_vars tk known = Some a ->
  Forall2 same_token tk (a_tk a) /\
  Forall (fun u => exists sc m,
            at_scope (a_scopes a) (scope_id u) = Some sc /\
            at_scope (a_scope_vars a) (scope_id u) = Some m) (a_tk a).
Proof.
  intros H. apply analysis_inv_final in H
    as (Hsame & _ & Hids & Hlen & _).
  split; [done|]. apply Forall_lookup. intros k u Hu.
  destruct (Hids k u) as [Hlo Hhi]; [|done|].
  { apply lookup_lt_Some in Hu. apply Forall2_length in Hsame. lia. }
  rewrite !at_scope_nonneg by done.
  destruct (lookup_lt_is_Some_2 (a_scopes a) (Z.to_nat (scope_id u)))
    as [sc Hsc]; [lia|].
  destruct (lookup_lt_is_Some_2 (a_scope_vars a) (Z.to_nat (scope_id u)))
    as [m Hm]; [lia|].
  by exists sc, m.
Qed.

Lemma analysis_keeps_tokens_witness :
  exists a, analysis_of vec_text = Some a /\
    Forall2 same_token (tokens_of vec_text) (a_tk a) /\
    Forall (fun u => exists sc m,
              at_scope (a_scopes a) (scope_id u) = Some sc /\
              at_scope (a_scope_vars a) (scope_id u) = Some m) (a_tk a).
Proof.
  eexists. split; [vm_compute; reflexivity|].
  apply (analysis_keeps_tokens (tokens_of vec_text) builtin_types).
  vm_compute. reflexivity.
Defined.

(** X8: the scope table of the analysis is a tree rooted at the Global
    scope 0: the id of a scope is its index, the root has parent -1 and
    is the only Global scope, and every other scope has one of the kinds
    Function, Struct, Enum, Union, Block and a parent that is an earlier
    scope. *)
Theorem analysis_scope_tree (tk : list Token) (known : gset string)
    (a : analysis) :
  analyze_scopes_and_vars tk known = Some a ->
  a_scopes a !! 0 = Some (mkScope 0 (-1) "Global" EmptyString) /\
  forall k sc, a_scopes a !! k = Some sc ->
    id sc = Z.of_nat k /\
    (k <> 0 -> kind sc ∈ opened_kinds /\ (0 <= parent sc < Z.of_nat k)%Z).
Proof.
  intros H. apply analysis_inv_final in H
    as (_ & _ & _ & _ & Hroot & Hsc & _ & Hpf & Hpar & _).
  split; [done|]. intros k sc Hk. destruct (Hsc k sc Hk) as [Hid Hkind].
  split; [done|]. intros Hne. split; [by apply Hkind|].
  split; [by eapply Hpar | by apply Hpf].
Qed.

Lemma analysis_scope_tree_witness :
  exists a, analysis_of struct_text = Some a /\
    a_scopes a !! 0 = Some (mkScope 0 (-1) "Global" EmptyString) /\
    forall k sc, a_scopes a !! k = Some sc ->
      id sc = Z.of_nat k /\
      (k <> 0 -> kind sc ∈ opened_kinds /\ (0 <= parent sc < Z.of_nat k)%Z).
Proof.
  eexists. split; [vm_compute; reflexivity|].
  apply (analysis_scope_tree (tokens_of struct_text) builtin_types).
  vm_compute. reflexivity.
Defined.

(** ** The known types *)

Lemma lookup_of_drop {A} (l1 l2 : list A) (i j : nat) :
  drop i l1 = drop i l2 -> i <= j -> l1 !! j = l2 !! j.
Proof.
  intros H Hij. replace j with (i + (j - i)) by lia.
  by rewrite <- !lookup_drop, H.
Qed.

Lemma analyze_step_declares (tk : list Token) (i : nat) (st st' : analysis) :
  analyze_step i st = Some st' ->
  drop i (a_tk st) = drop i tk ->
  forall nm, nm ∈ a_known_types st' <->
             nm ∈ a_known_types st \/ declares_type tk i nm.
Proof.
  intros H Hdrop nm.
  apply analyze_step_known_types in H as (t & Ht & H). cbv zeta in H.
  rewrite H. clear H.
  set (tk1 := <[i := set_scope_id t (a_cur st)]> (a_tk st)).
  assert (Hkw : forall k, is_kw tk1 i k = is_kw tk i k).
  { intros k. unfold tk1, is_kw. rewrite TKIs_insert_scope by done.
    unfold TKIs. by rewrite (lookup_of_drop _ _ i i Hdrop). }
  assert (Htag : is_tag_kw tk1 i = is_tag_kw tk i).
  { unfold is_tag_kw. by rewrite !Hkw. }
  assert (Hnext : tk1 !! (i + 1) = tk !! (i + 1)).
  { unfold tk1. rewrite list_lookup_insert_ne by lia.
    apply (lookup_of_drop _ _ i); [done | lia]. }
  assert (Hname : typedef_name tk1 i = typedef_name tk i).
  { unfold tk1. rewrite typedef_name_insert_scope. unfold typedef_name.
    replace (S i) with (i + 1) by lia. by rewrite <- !drop_drop, Hdrop. }
  rewrite Htag, Hkw, typedef_observe_spec, Hname.
  unfold TKIs, declares_type. rewrite Hnext.
  destruct (is_kw tk i "typedef") eqn:Etd.
  - rewrite (is_tag_kw_typedef _ _ Etd). simpl.
    destruct (typedef_name tk i) as [nm'|].
    + rewrite elem_of_union, elem_of_singleton. split.
      * intros [->|?]; [right; left; done | by left].
      * intros [?|[[_ [= ->]]|[? _]]]; [by right | by left | done].
    + split; [by left|]. intros [?|[[_ ?]|[? _]]]; done.
  - destruct (is_tag_kw tk i); simpl.
    + destruct (tk !! (i + 1)) as [u|]; simpl.
      * unfold ty_is. destruct (decide (type u = Identifier)) as [Hu|Hu].
        -- rewrite bool_decide_eq_true_2 by done. simpl.
           rewrite elem_of_union, elem_of_singleton. split.
           ++ intros [->|?]; [|by left]. right. right. split; [done|].
              by exists u.
           ++ intros [?|[[? _]|[_ (u' & [= <-] & _ & <-)]]];
                [by right | done | by left].
        -- rewrite bool_decide_eq_false_2 by done. simpl. split; [by left|].
           intros [?|[[? _]|[_ (u' & [= <-] & ? & _)]]]; done.
      * split; [by left|].
        intros [?|[[? _]|[_ (u' & ? & _)]]]; done.
    + split; [by left|]. intros [?|[[? _]|[? _]]]; done.
Qed.

Lemma analyze_loop_declares (tk : list Token) (k : nat) :
  forall i st st',
    analyze_loop k i st = Some st' ->
    analysis_inv tk i st ->
    forall nm, nm ∈ a_known_types st' <->
               nm ∈ a_known_types st \/
               exists j, i <= j < k + i /\ declares_type tk j nm.
Proof.
  induction k as [|k IH]; intros i st st' H Hinv nm; simpl in H.
  - injection H as <-. split; [by left|]. intros [?|(j & ? & _)]; [done|lia].
  - apply bind_Some in H as (st1 & H1 & H).
    rewrite (IH _ _ _ H (analyze_step_inv _ _ _ _ H1 Hinv)).
    destruct Hinv as (_ & Hdrop & _).
    rewrite (analyze_step_declares tk _ _ _ H1 Hdrop). split.
    + intros [[?|?]|(j & ? & ?)]; [by left| |].
      * right. exists i. split; [lia | done].
      * right. exists j. split; [lia | done].
    + intros [?|(j & Hj & Hd)]; [by left; left|].
      destruct (decide (j = i)) as [->|Hne]; [by left; right|].
      right. exists j. split; [lia | done].
Qed.

(** X9: the known types after the analysis are exactly the given ones,
    the name each [typedef] scan ends on, and the Identifier after each
    [struct], [enum] or [union] keyword; nothing else is added and nothing
    is removed. *)
Theorem analysis_known_types (tk : list Token) (known : gset string)
    (a : analysis) :
  analyze_scopes_and_vars tk known = Some a ->
  forall nm, nm ∈ a_known_types a <->
             nm ∈ known \/ exists k, declares_type tk k nm.
Proof.
  intros H nm. unfold analyze_scopes_and_vars in H.
  rewrite (analyze_loop_declares tk _ _ _ _ H (analysis_inv_initial tk known)).
  simpl. split.
  - intros [?|(j & _ & ?)]; [by left | right; by exists j].
  - intros [?|(j & Hd)]; [by left|]. right. exists j. split; [|done].
    assert (is_Some (tk !! j)) as Hj.
    { destruct Hd as [[Hkw _]|[Htag _]].
      - unfold is_kw, TKIs in Hkw. by destruct (tk !! j).
      - unfold is_tag_kw, is_kw, TKIs in Htag. by destruct (tk !! j). }
    apply lookup_lt_is_Some in Hj. lia.
Qed.

Lemma analysis_known_types_witness :
  exists a, analysis_of struct_text = Some a /\
    forall nm, nm ∈ a_known_types a <->
               nm ∈ builtin_types \/
               exists k, declares_type (tokens_of struct_text) k nm.
Proof.
  eexists. split; [vm_compute; reflexivity|].
  apply (analysis_known_types (tokens_of struct_text) builtin_types).
  vm_compute. reflexivity.
Defined.

(** ** Name resolution *)

Lemma resolve_loop_fuel (scopes : list Scope)
    (scope_vars : list (gmap string VarInfo)) (nm : string) :
  parents_first scopes ->
  forall f1 f2 cur, (cur < Z.of_nat f1)%Z -> (cur < Z.of_nat f2)%Z ->
    resolve_loop f1 scopes scope_vars cur nm =
    resolve_loop f2 scopes scope_vars cur nm.
Proof.
  intros Hpf. induction f1 as [|f1 IH]; intros f2 cur H1 H2.
  - destruct f2 as [|f2]; [done|]. simpl.
    destruct (Z.eqb_spec cur (-1)); [done|].
    unfold at_scope. destruct (Z.ltb_spec cur 0); [done | lia].
  - destruct f2 as [|f2].
    + simpl. destruct (Z.eqb_spec cur (-1)); [done|].
      unfold at_scope. destruct (Z.ltb_spec cur 0); [done | lia].
    + simpl. destruct (Z.eqb_spec cur (-1)); [done|].
      destruct (at_scope scope_vars cur) as [m|]; [|done]. simpl.
      destruct (m !! nm); [done|].
      destruct (at_scope scopes cur) as [sc|] eqn:Esc; [|done]. simpl.
      unfold at_scope in Esc. destruct (Z.ltb_spec cur 0); [done|].
      apply Hpf in Esc. apply IH; lia.
Qed.

Lemma resolve_loop_defined (scopes : list Scope)
    (scope_vars : list (gmap string VarInfo)) (nm : string) :
  length scope_vars = length scopes ->
  (forall k sc, scopes !! k = Some sc -> (-1 <= parent sc < Z.of_nat k)%Z) ->
  forall fuel cur,
    (-1 <= cur < Z.of_nat (length scopes))%Z -> (cur < Z.of_nat fuel)%Z ->
    exists pl ar,
      resolve_loop fuel scopes scope_vars cur nm = Some (pl, ar) /\
      ((pl = 999 /\ ar = 0)%Z \/
       exists k m vi, (Z.of_nat k <= cur)%Z /\ scope_vars !! k = Some m /\
         m !! nm = Some vi /\ pl = pointer_level vi /\ ar = array_rank vi).
Proof.
  intros Hlen Hpar. induction fuel as [|fuel IH]; intros cur Hcur Hfuel.
  - exists 999%Z, 0%Z. assert (cur = -1)%Z as -> by lia. split; [done|].
    by left.
  - simpl. destruct (Z.eqb_spec cur (-1)).
    { exists 999%Z, 0%Z. split; [done | by left]. }
    rewrite !at_scope_nonneg by lia.
    destruct (lookup_lt_is_Some_2 scope_vars (Z.to_nat cur)) as [m Hm]; [lia|].
    destruct (lookup_lt_is_Some_2 scopes (Z.to_nat cur)) as [sc Hsc]; [lia|].
    rewrite Hm. simpl. destruct (m !! nm) as [vi|] eqn:Evi.
    + exists (pointer_level vi), (array_rank vi). split; [done|]. right.
      exists (Z.to_nat cur), m, vi. split; [lia | done].
    + rewrite Hsc. simpl. pose proof (Hpar _ _ Hsc) as Hp.
      destruct (IH (parent sc)) as (pl & ar & Hres & Hfrom); [lia | lia |].
      exists pl, ar. split; [done|]. destruct Hfrom as [?|(k & m' & vi & ?)].
      * by left.
      * right. exists k, m', vi. split; [lia | tauto].
Qed.

(** X10: looking a name up from the scope of any token of the analysis
    always ends inside the tables: it returns the sentinel pair (999, 0),
    or the pointer level and array rank of a record held by that scope or
    an earlier one. *)
Theorem resolve_ptr_level_defined (tk : list Token) (known : gset string)
    (a : analysis) (u : Token) (nm : string) :
  analyze_scopes_and_vars tk known = Some a ->
  u ∈ a_tk a ->
  exists pl ar,
    resolve_ptr_level (a_scopes a) (a_scope_vars a) (scope_id u) nm =
      Some (pl, ar) /\
    ((pl = 999 /\ ar = 0)%Z \/
     exists k m vi, (Z.of_nat k <= scope_id u)%Z /\
       a_scope_vars a !! k = Some m /\ m !! nm = Some vi /\
       pl = pointer_level vi /\ ar = array_rank vi).
Proof.
  intros H Hu. apply analysis_inv_final in H
    as (Hsame & _ & Hids & Hlen & Hroot & _ & _ & Hpf & Hpar & _).
  apply list_elem_of_lookup in Hu as (i & Hi).
  destruct (Hids i u) as [Hlo Hhi]; [|done|].
  { apply lookup_lt_Some in Hi. apply Forall2_length in Hsame. lia. }
  apply resolve_loop_defined; [done| |lia|lia].
  intros k sc Hk. pose proof (Hpf _ _ Hk). destruct k as [|k].
  - rewrite Hroot in Hk. injection Hk as <-. simpl. lia.
  - pose proof (Hpar _ _ Hk ltac:(lia)). lia.
Qed.

Lemma resolve_ptr_level_defined_witness :
  let a := shadow_analysis in
  let u := default (mkToken Unknown EmptyString 0 0 0) (a_tk a !! 14) in
  exists pl ar,
    resolve_ptr_level (a_scopes a) (a_scope_vars a) (scope_id u) "p" =
      Some (pl, ar) /\
    ((pl = 999 /\ ar = 0)%Z \/
     exists k m vi, (Z.of_nat k <= scope_id u)%Z /\
       a_scope_vars a !! k = Some m /\ m !! "p"%string = Some vi /\
       pl = pointer_level vi /\ ar = array_rank vi).
Proof.
  apply (resolve_ptr_level_defined (tokens_of shadow_text) builtin_types).
  - vm_compute. reflexivity.
  - eapply (list_elem_of_lookup_2 _ 14). vm_compute. reflexivity.
Defined.

(** X11: a record of the scope itself hides the records of the enclosing
    scopes, and a name the scope has no record of resolves as it does from
    the parent scope. *)
Theorem resolve_ptr_level_nearest (scopes : list Scope)
    (scope_vars : list (gmap string VarInfo)) (k : nat) (sc : Scope)
    (m : gmap string VarInfo) (nm : string) :
  parents_first scopes ->
  scopes !! k = Some sc -> scope_vars !! k = Some m ->
  resolve_ptr_level scopes scope_vars (Z.of_nat k) nm =
  match m !! nm with
  | Some vi => Some (pointer_level vi, array_rank vi)
  | None => resolve_ptr_level scopes scope_vars (parent sc) nm
  end.
Proof.
  intros Hpf Hsc Hm. unfold resolve_ptr_level.
  pose proof (lookup_lt_Some _ _ _ Hsc) as Hk.
  assert (Hstep : forall n,
            resolve_loop (S n) scopes scope_vars (Z.of_nat k) nm =
            match m !! nm with
            | Some vi => Some (pointer_level vi, array_rank vi)
            | None => resolve_loop n scopes scope_vars (parent sc) nm
            end).
  { intros n. cbn [resolve_loop].
    destruct (Z.eqb_spec (Z.of_nat k) (-1)); [lia|].
    rewrite !at_scope_nonneg by lia. rewrite Nat2Z.id, Hm, Hsc. done. }
  destruct (length scopes) as [|n] eqn:En; [lia|].
  rewrite Hstep. destruct (m !! nm); [done|].
  apply resolve_loop_fuel; [done| |]; apply Hpf in Hsc; lia.
Qed.

Lemma resolve_ptr_level_nearest_witness :
  let a := shadow_analysis in
  resolve_ptr_level (a_scopes a) (a_scope_vars a) 1 "p" = Some (1, 0)%Z /\
  resolve_ptr_level (a_scopes a) (a_scope_vars a) 1 "q" =
    resolve_ptr_level (a_scopes a) (a_scope_vars a) 0 "q".
Proof.
  assert (Hpf : parents_first (a_scopes shadow_analysis)).
  { apply (analysis_parents_first (tokens_of shadow_text) builtin_types).
    vm_compute. reflexivity. }
  change 1%Z with (Z.of_nat 1). split.
  - rewrite (resolve_ptr_level_nearest (a_scopes shadow_analysis)
               (a_scope_vars shadow_analysis) 1
               (mkScope 1 0 "Function" "f")
               {[ "p"%string := mkVarInfo 1 0 ]} "p" Hpf);
      vm_compute; reflexivity.
  - rewrite (resolve_ptr_level_nearest (a_scopes shadow_analysis)
               (a_scope_vars shadow_analysis) 1
               (mkScope 1 0 "Function" "f")
               {[ "p"%string := mkVarInfo 1 0 ]} "q" Hpf);
      vm_compute; reflexivity.
Defined.

(** ** The lines *)

Lemma last_snoc_app {A} (l : list A) (x : A) :
  last (l ++ [x]) = Some x /\ removelast (l ++ [x]) = l.
Proof. split; [apply last_snoc | apply removelast_last]. Qed.

Lemma split_loop_spec (toks : list Token) :
  forall cur bs g ls,
    exists g' G S,
      split_loop toks cur (bs ++ [g]) ls = (bs ++ (g ++ g') :: G, ls ++ S) /\
      g' ++ concat G = toks /\
      Forall (fun u => line u = cur) g' /\
      Forall2 line_group G S /\
      (forall g1, head G = Some g1 -> line_of g1 <> Some cur) /\
      lines_change G.
Proof.
  induction toks as [|t toks IH]; intros cur bs g ls.
  { exists [], [], []. simpl. rewrite !app_nil_r.
    split_and!; try done; try constructor. }
  cbn [split_loop]. destruct (Z.eqb_spec (line t) cur) as [Heq|Hne]; cbn [negb].
  - destruct (last_snoc_app bs g) as [-> ->].
    destruct (IH cur bs (g ++ [t]) ls) as (g' & G & S & -> & <- & Hg' & HG & Hhd & Hch).
    exists (t :: g'), G, S. rewrite <- app_assoc. simpl.
    split_and!; try done. by constructor.
  - destruct (last_snoc_app (bs ++ [g]) []) as [-> ->].
    change ([] ++ [t]) with [t].
    destruct (IH (line t) (bs ++ [g]) [t] (ls ++ [scope_id t]))
      as (g' & G & S & -> & <- & Hg' & HG & Hhd & Hch).
    exists [], ((t :: g') :: G), (scope_id t :: S).
    rewrite <- !app_assoc, app_nil_r. simpl. split_and!; try done.
    + constructor; [|done]. by exists t, g'.
    + intros g1 [= <-]. unfold line_of. simpl. congruence.
    + intros [|k] g1 g2 Hk HSk; simpl in Hk, HSk.
      * injection Hk as <-. unfold line_of at 1. simpl.
        intros Heq. apply (Hhd g2); [|done].
        by destruct G; simplify_eq/=.
      * by eapply Hch.
Qed.

(** X12: [split_into_lines] cuts the token sequence, without losing or
    reordering a token, into non-empty groups of tokens of one line; a
    new group starts exactly where the line number changes, and the scope
    recorded for a group is that of its first token. *)
Theorem split_into_lines_groups (toks : list Token) :
  let '(lines, line_scope) := split_into_lines toks in
  concat lines = toks /\
  Forall2 line_group lines line_scope /\
  lines_change lines.
Proof.
  unfold split_into_lines. destruct toks as [|t toks].
  { split_and!; [done | constructor | by intros k g1 g2 Hk]. }
  destruct (split_loop_spec (t :: toks) (line t) [] [] [scope_id t])
    as (g' & G & S & Heq & Hcat & Hg' & HG & Hhd & Hch).
  simpl app in Heq. rewrite Heq. clear Heq.
  destruct g' as [|t' g'].
  { exfalso. simpl in Hcat. destruct G as [|g1 G]; [done|].
    apply (Hhd g1 eq_refl). inversion HG as [|? s ? ? (u & r & -> & _) _];
      subst. simpl in Hcat. injection Hcat as -> _. done. }
  simpl in Hcat. injection Hcat as -> Hcat. split_and!.
  - simpl. by rewrite Hcat.
  - simpl. constructor; [|done]. exists t, g'. split_and!; try done.
    by inversion Hg'.
  - intros [|k] g1 g2 Hk HSk; simpl in Hk, HSk.
    + injection Hk as <-. intros Heq. apply (Hhd g2); [|by rewrite <- Heq].
      by destruct G; simplify_eq/=.
    + by eapply Hch.
Qed.

(** ** Terminators are added once *)

Lemma needs_semicolon_terminated (ln : list Token) (knd : string)
    (ln0 cl0 sc0 : Z) :
  needs_semicolon (ln ++ [mkToken Punct ";" ln0 cl0 sc0]) knd = false.
Proof.
  unfold needs_semicolon.
  destruct (ln ++ [_]) as [|first rest] eqn:E; [done|].
  rewrite <- E at 1. rewrite last_snoc.
  destruct (String.eqb knd "Enum"); [done|].
  destruct (ty_is first Preprocessor); [done|]. done.
Qed.

(** X13: terminating a line twice is terminating it once: a line that
    received its [;] never receives a second one. *)
Theorem terminate_line_idempotent (ln : list Token) (knd : string) :
  terminate_line (terminate_line ln knd) knd = terminate_line ln knd.
Proof.
  unfold terminate_line. destruct (last ln) as [lst|] eqn:Hlast.
  2: by rewrite Hlast.
  destruct (needs_semicolon ln knd) eqn:Hneeds.
  - rewrite last_snoc. by rewrite needs_semicolon_terminated.
  - by rewrite Hlast, Hneeds.
Qed.

(** ** Semicolons before a closing brace *)

Lemma separator_not_value (p : Token) :
  ty_is p Punct && (txt_is p ";" || txt_is p "{") = true ->
  value_closing p = false.
Proof.
  rewrite andb_true_iff, orb_true_iff, ty_is_true, !txt_is_true.
  intros [Hty Htx]. unfold value_closing, ty_is, txt_is. rewrite Hty.
  destruct Htx as [-> | ->]; done.
Qed.

Lemma before_brace_loop_spec (l : list Token) :
  forall k pre p, length l <= k ->
    before_brace_loop k (pre ++ p :: l) (length pre + 1) =
    Some (pre ++ p :: semis_before_braces p l).
Proof.
  induction l as [|t l IH]; intros k pre p Hk.
  - destruct k; simpl;
      rewrite lookup_ge_None_2 by (rewrite length_app; simpl; lia); done.
  - destruct k as [|k]; [simpl in Hk; lia|]. simpl in Hk.
    assert (Ht : (pre ++ p :: t :: l) !! (length pre + 1) = Some t).
    { rewrite lookup_app_r by lia.
      by replace (length pre + 1 - length pre) with 1 by lia. }
    assert (Hp : (pre ++ p :: t :: l) !! (length pre + 1 - 1) = Some p).
    { replace (length pre + 1 - 1) with (length pre) by lia.
      by rewrite list_lookup_middle. }
    assert (Hnext : before_brace_loop k (pre ++ p :: t :: l)
                      (length pre + 1 + 1) =
                    Some (pre ++ p :: t :: semis_before_braces t l)).
    { specialize (IH k (pre ++ [p]) t ltac:(lia)).
      rewrite length_app, <- app_assoc in IH. simpl in IH.
      by rewrite <- app_assoc in IH. }
    cbn [before_brace_loop semis_before_braces]. rewrite Ht, Hp.
    destruct (tok_p t "}") eqn:Eclose; [|done]. cbn [andb].
    destruct (ty_is p Punct && (txt_is p ";" || txt_is p "{")) eqn:Esep.
    { by rewrite (separator_not_value _ Esep). }
    destruct (value_closing p); [|done].
    replace (length pre + 1 + 2)
      with (length (pre ++ [p; retag p Punct ";"]) + 1)
      by (rewrite length_app; simpl; lia).
    replace (insert_at (length pre + 1) (retag p Punct ";")
               (pre ++ p :: t :: l))
      with ((pre ++ [p; retag p Punct ";"]) ++ t :: l).
    + rewrite IH by lia. by rewrite <- app_assoc.
    + unfold insert_at. rewrite take_app_add', drop_app_add' by done.
      simpl. by rewrite <- !app_assoc.
Qed.

Lemma semis_before_braces_idempotent (l : list Token) :
  forall p, semis_before_braces p (semis_before_braces p l) =
            semis_before_braces p l.
Proof.
  induction l as [|t l IH]; intros p; [done|].
  cbn [semis_before_braces].
  destruct (tok_p t "}" && value_closing p) eqn:E.
  - apply andb_true_iff in E as [Ht Hp]. simpl.
    rewrite Ht. simpl. by rewrite IH.
  - simpl. by rewrite E, IH.
Qed.

(** X14: outside an enum body the pass always returns, and its result is
    the line with one [;], a copy of the token before, put before every
    [}] whose predecessor on the line is an Identifier, Number, StringLit,
    [)], []] or an Operator; inside an enum body it returns the line as it
    is.  Applying it to its own result changes nothing. *)
Theorem insert_semicolon_before_closing_brace_spec (ln : list Token)
    (scope_kind : string) :
  insert_semicolon_before_closing_brace_on_line ln scope_kind =
    Some (if String.eqb scope_kind "Enum" then ln else close_values ln) /\
  close_values (close_values ln) = close_values ln.
Proof.
  split.
  - unfold insert_semicolon_before_closing_brace_on_line.
    destruct (String.eqb scope_kind "Enum"); [done|].
    destruct ln as [|p l]; [done|].
    apply (before_brace_loop_spec l (length (p :: l)) [] p). simpl. lia.
  - destruct ln as [|p l]; [done|]. simpl.
    by rewrite semis_before_braces_idempotent.
Qed.

(** ** Directives in the emitter *)

Lemma string_app_assoc (a b c : string) :
  ((a ++ b) ++ c)%string = (a ++ (b ++ c))%string.
Proof.
  induction a as [|x a IH]; [done|].
  change (String x ((a ++ b) ++ c) = String x (a ++ (b ++ c)))%string.
  by f_equal.
Qed.

Lemma emit_tokens_directive (pre : list Token) (p : Token) (post : list Token) :
  Forall (fun t => type t <> Preprocessor) pre ->
  type p = Preprocessor ->
  forall bol,
    emit_tokens (pre ++ p :: post) bol =
    match pre with
    | [] => ((if bol then EmptyString else nl) ++ text p ++ nl)%string
    | _ => (emit_tokens pre bol ++ text p ++ nl)%string
    end.
Proof.
  intros Hpre Hp. induction Hpre as [|t pre Ht Hpre IH]; intros bol.
  - simpl. apply ty_is_true in Hp. by rewrite Hp.
  - cbn [app emit_tokens]. apply ty_is_false in Ht. rewrite Ht.
    rewrite IH. rewrite !string_app_assoc. do 2 f_equal.
    by destruct pre.
Qed.

(** X15: a Preprocessor token ends the emitted line: what stands before
    it on the line is written as a line of its own, the directive follows
    on the next line, and the tokens after it on the line are not
    written. *)
Theorem emit_line_directive (pre : list Token) (p : Token)
    (post : list Token) :
  Forall (fun t => type t <> Preprocessor) pre ->
  type p = Preprocessor ->
  emit_line (pre ++ p :: post) =
  ((match pre with [] => EmptyString | _ => emit_line pre end) ++
   text p ++ nl)%string.
Proof.
  intros Hpre Hp. unfold emit_line.
  destruct pre as [|t pre].
  - simpl. apply ty_is_true in Hp. by rewrite Hp.
  - change ((t :: pre) ++ p :: post) with (t :: (pre ++ p :: post)).
    cbv iota. change (t :: (pre ++ p :: post)) with ((t :: pre) ++ p :: post).
    by rewrite emit_tokens_directive.
Qed.

Lemma emit_line_directive_witness :
  emit_line ([mkToken Identifier "x" 1 1 0] ++
             mkToken Preprocessor "#define A 1" 1 3 0 ::
             [mkToken Identifier "y" 1 15 0]) =
  ((emit_line [mkToken Identifier "x" 1 1 0]) ++ "#define A 1" ++ nl)%string.
Proof.
  apply (emit_line_directive [mkToken Identifier "x" 1 1 0]
           (mkToken Preprocessor "#define A 1" 1 3 0)
           [mkToken Identifier "y" 1 15 0]).
  - repeat constructor; done.
  - reflexivity.
Defined.

(** ** The exit code of [main] *)

Lemma translate_wrote_clean (known known' : gset string) (src : list ascii)
    (out : string) :
  translate known src = Some (Wrote out known') -> clean (Some src).
Proof.
  intros H. simpl.
  destruct (arrow_in_code InCode (preprocess_physical_lines src)) eqn:E;
    [|done].
  apply (translate_exits_iff known) in E as (ln & cl & E). congruence.
Qed.

Lemma translate_exit_arrow (known : gset string) (src : list ascii)
    (ln cl : Z) :
  translate known src = Some (Exit2 ln cl) ->
  arrow_in_code InCode (preprocess_physical_lines src) = true.
Proof. intros H. apply (translate_exits_iff known). by exists ln, cl. Qed.

Lemma main_loop_code (files : list (option (list ascii))) :
  forall known c0 w0 c w,
    main_loop files known c0 w0 = Some (c, w) ->
    (exists pre src post,
       files = pre ++ Some src :: post /\ Forall clean pre /\
       arrow_in_code InCode (preprocess_physical_lines src) = true /\
       c = 2%Z /\ length w = length w0 + length (readable pre)) \/
    (Forall clean files /\
     c = (if bool_decide (None ∈ files) then 1%Z else c0) /\
     length w = length w0 + length (readable files)).
Proof.
  induction files as [|[src|] files IH]; intros known c0 w0 c w H.
  - right. injection H as <- <-. split_and!; [constructor|done|simpl; lia].
  - simpl in H. apply bind_Some in H as (r & Hr & H).
    destruct r as [ln cl | out known'].
    + injection H as <- <-. left. exists [], src, files.
      split_and!; try done. by eapply translate_exit_arrow.
    + apply translate_wrote_clean in Hr.
      destruct (IH _ _ _ _ _ H)
        as [(pre & src' & post & -> & Hpre & Harrow & -> & Hlen)
           |(Hclean & -> & Hlen)].
      * left. exists (Some src :: pre), src', post.
        split_and!; try done; [by constructor|].
        rewrite length_app in Hlen. simpl in *. lia.
      * right. split_and!; [by constructor| |].
        -- destruct (decide (None ∈ files)) as [Hin|Hin].
           ++ rewrite (bool_decide_eq_true_2 (None ∈ files)) by done.
              by rewrite (bool_decide_eq_true_2 (None ∈ Some src :: files))
                by (by right).
           ++ rewrite (bool_decide_eq_false_2 (None ∈ files)) by done.
              rewrite (bool_decide_eq_false_2 (None ∈ Some src :: files));
                [done|].
              intros [?|?]%elem_of_cons; done.
        -- rewrite length_app in Hlen. simpl in *. lia.
  - simpl in H.
    destruct (IH _ _ _ _ _ H)
      as [(pre & src' & post & -> & Hpre & Harrow & -> & Hlen)
         |(Hclean & -> & Hlen)].
    + left. exists (None :: pre), src', post.
      split_and!; try done. by constructor.
    + right. split_and!; [by constructor| |done].
      rewrite (bool_decide_eq_true_2 (None ∈ None :: files)) by left.
      by destruct (bool_decide _).
Qed.

(** X16: what the exit code of [main] says.  Code 2: some file has an
    arrow where the lexer starts an operator, the files before it do not,
    and only the readable files before it were written.  Code 1: there
    was no argument or some file could not be read, no file has such an
    arrow, and every readable file was written.  Code 0: there were
    arguments, every file was read and written, and none has such an
    arrow. *)
Theorem main_exit_code (files : list (option (list ascii))) (c : Z)
    (w : list string) :
  main files = Some (c, w) ->
  (c = 2%Z /\ exists pre src post,
     files = pre ++ Some src :: post /\ Forall clean pre /\
     arrow_in_code InCode (preprocess_physical_lines src) = true /\
     length w = length (readable pre)) \/
  (c = 1%Z /\ (files = [] \/ None ∈ files) /\ Forall clean files /\
   length w = length (readable files)) \/
  (c = 0%Z /\ files <> [] /\ (None ∉ files) /\ Forall clean files /\
   length w = length files).
Proof.
  intros H. destruct files as [|f files].
  { injection H as <- <-. right. left.
    split_and!; try done; by left. }
  unfold main in H. apply main_loop_code in H
    as [(pre & src & post & Heq & Hpre & Harrow & -> & Hlen)
       |(Hclean & Hc & Hlen)].
  - left. split; [done|]. by exists pre, src, post.
  - right. destruct (decide (None ∈ f :: files)) as [Hin|Hin].
    + rewrite bool_decide_eq_true_2 in Hc by done. left.
      split_and!; try done. by right.
    + rewrite bool_decide_eq_false_2 in Hc by done. right.
      split_and!; try done. rewrite Hlen. simpl length at 1.
      unfold readable. clear -Hin.
      induction (f :: files) as [|[s|] l IH]; [done| |].
      * simpl. f_equal. apply IH. intros ?. apply Hin. by right.
      * exfalso. apply Hin. by left.
Qed.

Lemma main_exit_code_witness :
  let files := [Some (bytes vec_text); None; Some arrow_text;
                Some (bytes vec_text)] in
  exists c w, main files = Some (c, w) /\
  ((c = 2%Z /\ exists pre src post,
      files = pre ++ Some src :: post /\ Forall clean pre /\
      arrow_in_code InCode (preprocess_physical_lines src) = true /\
      length w = length (readable pre)) \/
   (c = 1%Z /\ (files = [] \/ None ∈ files) /\ Forall clean files /\
    length w = length (readable files)) \/
   (c = 0%Z /\ files <> [] /\ (None ∉ files) /\ Forall clean files /\
    length w = length files)).
Proof.
  do 2 eexists. split; [vm_compute; reflexivity|].
  apply main_exit_code. vm_compute. reflexivity.
Defined.

(** ** Declarations of the relaxed path *)

Lemma scan_while_spec (p : Token -> bool) (tk : list Token) :
  forall l i, drop i tk = l ->
    i <= scan_while p l i /\
    (forall d t, i <= d < scan_while p l i -> tk !! d = Some t -> p t = true) /\
    (forall t, tk !! scan_while p l i = Some t -> p t = false).
Proof.
  induction l as [|u l IH]; intros i Hdrop; simpl.
  - split; [lia|]. split; [intros d t ?; lia|].
    intros t Ht. apply lookup_lt_Some in Ht.
    assert (length (drop i tk) = 0) as Hlen by (by rewrite Hdrop).
    rewrite length_drop in Hlen. lia.
  - assert (Hi : tk !! i = Some u).
    { rewrite <- (Nat.add_0_r i), <- lookup_drop, Hdrop. done. }
    destruct (p u) eqn:Hp.
    + destruct (IH (S i)) as (Hle & Hin & Hout).
      { erewrite drop_S in Hdrop by done. by injection Hdrop. }
      split; [lia|]. split; [|done].
      intros d t Hd Ht. destruct (decide (d = i)) as [->|Hne].
      * congruence.
      * apply (Hin d); [lia | done].
    + split; [lia|]. split; [intros d t ?; lia|].
      intros t Ht. congruence.
Qed.

Lemma skip_while_spec (p : Token -> bool) (tk : list Token) (i : nat) :
  i <= skip_while p tk i /\
  (forall d t, i <= d < skip_while p tk i -> tk !! d = Some t -> p t = true) /\
  (forall t, tk !! skip_while p tk i = Some t -> p t = false).
Proof. by apply scan_while_spec. Qed.

Lemma relaxed_arrays_bounds (tk : list Token) (fuel : nat) :
  forall j a j3 ar,
    relaxed_arrays fuel tk j a = Some (j3, ar) -> j <= j3 /\ (a <= ar)%Z.
Proof.
  induction fuel as [|fuel IH]; intros j a j3 ar H; simpl in H.
  - destruct (is_p tk j "["); [done|]. injection H as <- <-. lia.
  - destruct (is_p tk j "["); [|injection H as <- <-; lia].
    set (k := skip_while _ tk (j + 1)) in *.
    pose proof (skip_while_spec (fun t => negb (tok_p t "]")) tk (j + 1))
      as (Hk & _). fold k in Hk.
    destruct (k =? length tk); [injection H as <- <-; lia|].
    apply IH in H. lia.
Qed.

Lemma TKIs_lt (tk : list Token) (j : nat) (ty : TokenType)
    (txt : option string) :
  TKIs tk j ty txt = true -> j < length tk.
Proof.
  unfold TKIs. destruct (tk !! j) eqn:E; [|done]. intros _.
  by eapply lookup_lt_Some.
Qed.

(** X17: the relaxed detector reports pointers only.  When it reports a
    declaration, the name is an Identifier right after one star or more
    (the stars it counts), the array count is not negative, and the
    position it returns is that of a token after the name: a declaration
    whose type is not known and whose declarator has no star, such as
    [Vec2 v;], is never reported. *)
Theorem detect_relaxed_only_pointers (tk : list Token) (i j : nat)
    (nm : string) (ns ar : Z) :
  detect_relaxed_declaration tk i = Some (Some (j, nm, ns, ar)) ->
  (1 <= ns)%Z /\ (0 <= ar)%Z /\ j < length tk /\
  exists k t, tk !! k = Some t /\ type t = Identifier /\ text t = nm /\
    i < k - Z.to_nat ns /\ k < j /\
    forall d, k - Z.to_nat ns <= d < k -> is_op tk d "*" = true.
Proof.
  unfold detect_relaxed_declaration. intros H.
  destruct (tk !! i) as [t|] eqn:Ht; [|done].
  destruct (negb _); [done|].
  destruct (if ty_is t Keyword then _ else _) as [j0|] eqn:Ej0; [|done].
  assert (Hj0 : i < j0).
  { destruct (ty_is t Keyword); [|injection Ej0 as <-; lia].
    destruct (TKIs tk (i + 1) Identifier None); [|done].
    injection Ej0 as <-. lia. }
  clear Ej0.
  pose proof (skip_while_spec kw_or_ident tk j0) as (Hj1 & _ & Hstop).
  set (j1 := skip_while kw_or_ident tk j0) in *.
  pose proof (skip_while_spec (fun t => tok_op t "*") tk j1)
    as (Hj2 & Hstars & _).
  set (j2 := skip_while (fun t => tok_op t "*") tk j1) in *.
  destruct (tk !! j2) as [tn|] eqn:Htn; [|done].
  destruct (ty_is tn Identifier) eqn:Hid; [|done]. cbn [negb] in H.
  apply bind_Some in H as ([j3 arrays] & Harr & H).
  apply relaxed_arrays_bounds in Harr as [Hj3 Har].
  destruct (is_p tk j3 ";" || is_p tk j3 "," || is_p tk j3 "[" ||
            is_op tk j3 "=" || is_p tk j3 "{") eqn:Eend; [|done].
  injection H as <- <- <- <-.
  assert (Hlt : j1 < j2).
  { destruct (decide (j1 = j2)) as [Heq|]; [|lia].
    rewrite <- Heq in Htn. apply Hstop in Htn. unfold kw_or_ident in Htn.
    rewrite Hid in Htn. by rewrite orb_true_r in Htn. }
  rewrite Nat2Z.id. split; [lia|]. split; [lia|]. split.
  { rewrite !orb_true_iff in Eend. unfold is_p, is_op in Eend.
    destruct Eend as [[[[?|?]|?]|?]|?]; by eapply TKIs_lt. }
  exists j2, tn. apply ty_is_true in Hid.
  split_and!; try done; try lia.
  intros d Hd. unfold is_op, TKIs.
  destruct (lookup_lt_is_Some_2 tk d) as [u Hu].
  { apply lookup_lt_Some in Htn. lia. }
  rewrite Hu. specialize (Hstars d u ltac:(lia) Hu). unfold tok_op in Hstars.
  done.
Qed.

Lemma detect_relaxed_only_pointers_witness :
  let tk := tokens_of vec_text_terminated in
  (1 <= 1)%Z /\ (0 <= 0)%Z /\ 3 < length tk /\
  exists k t, tk !! k = Some t /\ type t = Identifier /\
    text t = "p"%string /\
    0 < k - Z.to_nat 1 /\ k < 3 /\
    forall d, k - Z.to_nat 1 <= d < k -> is_op tk d "*" = true.
Proof.
  apply (detect_relaxed_only_pointers (tokens_of vec_text_terminated)
           0 3 "p" 1 0).
  vm_compute. reflexivity.
Defined.

(** ** What the member rewriter does to a line *)

Lemma rewritten_refl (l : list Token) : rewritten l l.
Proof. induction l; by constructor. Qed.

Lemma rewritten_trans (l1 l2 l3 : list Token) :
  rewritten l1 l2 -> rewritten l2 l3 -> rewritten l1 l3.
Proof.
  intros H12 H23. revert l1 H12.
  induction H23 as [|t l2 l3 H23 IH|t l2 l3 Hdot H23 IH|u l2 l3 Hu H23 IH];
    intros l1 H12.
  - done.
  - inversion H12 as [|? l1' ? H|t0 l1' ? Ht0 H|? ? ? Hins H]; subst.
    + constructor. by apply IH.
    + constructor; [done|]. by apply IH.
    + apply rewritten_insert; [done|]. by apply IH.
  - inversion H12 as [|? l1' ? H|t0 l1' ? Ht0 H|? ? ? Hins H]; subst.
    + apply rewritten_arrow; [done|]. by apply IH.
    + done.
    + exfalso. apply tok_p_true in Hdot as [Hty Htx].
      unfold tok_p, tok_op, ty_is, txt_is in Hins. rewrite Hty, Htx in Hins.
      done.
  - apply rewritten_insert; [done|]. by apply IH.
Qed.

Lemma rewritten_app (p l l' : list Token) :
  rewritten l l' -> rewritten (p ++ l) (p ++ l').
Proof. intros H. induction p; [done|]. simpl. by constructor. Qed.

Lemma rewritten_insert_at (k : nat) (u : Token) (l : list Token) :
  tok_p u "(" || tok_op u "*" || tok_p u ")" = true ->
  rewritten l (insert_at k u l).
Proof.
  intros Hu. unfold insert_at. rewrite <- (take_drop k l) at 1.
  apply rewritten_app. apply rewritten_insert; [done|]. apply rewritten_refl.
Qed.

Lemma rewritten_to_arrow (ln : list Token) (j : nat) :
  is_p ln j "." = true -> rewritten ln (to_arrow ln j).
Proof.
  unfold is_p, TKIs, to_arrow. destruct (ln !! j) as [t|] eqn:Ht; [|done].
  fold (tok_p t "."). intros Hdot. revert j Ht.
  induction ln as [|u ln IH]; intros j Ht; [done|].
  destruct j as [|j]; simpl in *.
  - injection Ht as ->. apply rewritten_arrow; [done|]. apply rewritten_refl.
  - constructor. by apply IH.
Qed.

Lemma insert_at_lookup_ge {A} (k m : nat) (x : A) (l : list A) :
  k <= m -> k <= length l -> insert_at k x l !! S m = l !! m.
Proof.
  intros Hkm Hk. unfold insert_at.
  assert (Hlen : length (take k l) = k) by (rewrite length_take; lia).
  rewrite lookup_app_r by lia. rewrite Hlen.
  replace (S m - k) with (S (m - k)) by lia. simpl.
  rewrite lookup_drop. f_equal. lia.
Qed.

Lemma match_close_ge (o c : string) (l : list Token) :
  forall k depth r, match_close o c l k depth = Some r -> k <= r.
Proof.
  induction l as [|t l IH]; intros k depth r H; simpl in H; [done|].
  destruct (tok_p t o); [apply IH in H; lia|].
  destruct (tok_p t c); [|apply IH in H; lia].
  destruct (depth - 1 =? 0)%Z; [injection H as <-; lia|].
  apply IH in H. lia.
Qed.

Lemma postfix_walk_ge (fuel : nat) (ln : list Token) :
  forall j p a j' p' a',
    postfix_walk fuel ln j p a = Some (j', p', a') -> j <= j'.
Proof.
  induction fuel as [|fuel IH]; intros j p a j' p' a' H; simpl in H.
  - destruct (is_p ln j "[").
    { destruct (match_close _ _ _ _ _); [done|]. injection H as <- _ _. lia. }
    destruct (is_p ln j "(").
    { destruct (match_close _ _ _ _ _); [done|]. injection H as <- _ _. lia. }
    injection H as <- _ _. lia.
  - destruct (is_p ln j "[").
    { destruct (match_close _ _ _ _ _) as [k|] eqn:Ek;
        [|injection H as <- _ _; lia].
      apply match_close_ge in Ek. destruct (subscript p a) as [p1 a1].
      apply IH in H. lia. }
    destruct (is_p ln j "(").
    { destruct (match_close _ _ _ _ _) as [k|] eqn:Ek;
        [|injection H as <- _ _; lia].
      apply match_close_ge in Ek. apply IH in H. lia. }
    injection H as <- _ _. lia.
Qed.

Lemma dot_loop_rewritten (fuel : nat) :
  forall ln i j cp ln' j',
    i < j -> dot_loop fuel ln i j cp = Some (ln', j') -> rewritten ln ln'.
Proof.
  induction fuel as [|fuel IH]; intros ln i j cp ln' j' Hij H; simpl in H.
  - destruct (is_p ln j "." && _); [done|]. injection H as <- _.
    apply rewritten_refl.
  - destruct (is_p ln j "." && _) eqn:Edot;
      [|injection H as <- _; apply rewritten_refl].
    apply andb_true_iff in Edot as [Edot _].
    destruct (cp =? 1)%Z.
    { apply IH in H; [|lia].
      eapply rewritten_trans; [|exact H]. by apply rewritten_to_arrow. }
    destruct (1 <? cp)%Z; [|by apply IH in H; [|lia]].
    destruct (ln !! i) as [ti|] eqn:Hti; [|done].
    destruct (ln !! j) as [tj|] eqn:Htj; [|done].
    pose proof (lookup_lt_Some _ _ _ Hti) as Hi.
    pose proof (lookup_lt_Some _ _ _ Htj) as Hj.
    apply IH in H; [|lia].
    eapply rewritten_trans; [|exact H].
    eapply rewritten_trans;
      [apply (rewritten_insert_at i (retag ti Punct "(")); vm_compute; reflexivity|].
    eapply rewritten_trans;
      [apply (rewritten_insert_at (i + 1) (retag ti Operator "*")); vm_compute; reflexivity|].
    eapply rewritten_trans;
      [apply (rewritten_insert_at (j + 2) (retag tj Punct ")")); vm_compute; reflexivity|].
    apply rewritten_to_arrow. unfold is_p, TKIs.
    replace (j + 2 + 1) with (S (j + 2)) by lia.
    rewrite insert_at_lookup_ge; [|lia|rewrite !length_insert_at; lia].
    replace (j + 2) with (S (S j)) by lia.
    rewrite insert_at_lookup_ge; [|lia|rewrite !length_insert_at; lia].
    rewrite insert_at_lookup_ge by lia. exact Edot.
Qed.

Lemma rewrite_at_rewritten (scopes : list Scope)
    (scope_vars : list (gmap string VarInfo)) (sid : Z)
    (ln : list Token) (i : nat) (ln' : list Token) (i' : nat) :
  rewrite_at scopes scope_vars sid ln i = Some (ln', i') -> rewritten ln ln'.
Proof.
  unfold rewrite_at. intros H. destruct (ln !! i) as [t|]; [|done].
  destruct (negb _); [injection H as <- _; apply rewritten_refl|].
  apply bind_Some in H as ([ptr arr] & _ & H).
  destruct ((ptr =? 999)%Z && _); [injection H as <- _; apply rewritten_refl|].
  apply bind_Some in H as ([[j cp] a] & Hwalk & H).
  apply bind_Some in H as ([ln1 j1] & Hdots & H).
  injection H as <- _. apply postfix_walk_ge in Hwalk.
  eapply dot_loop_rewritten; [|exact Hdots]. lia.
Qed.

Lemma rewrite_loop_rewritten (scopes : list Scope)
    (scope_vars : list (gmap string VarInfo)) (sid : Z) (fuel : nat) :
  forall ln i ln',
    rewrite_loop scopes scope_vars sid fuel ln i = Some ln' ->
    rewritten ln ln'.
Proof.
  induction fuel as [|fuel IH]; intros ln i ln' H; simpl in H.
  - destruct (i <? length ln); [done|]. injection H as <-.
    apply rewritten_refl.
  - destruct (i <? length ln); [|injection H as <-; apply rewritten_refl].
    apply bind_Some in H as ([ln1 i1] & Hat & H).
    apply rewrite_at_rewritten in Hat. apply IH in H.
    by eapply rewritten_trans.
Qed.

(** X18: the member rewriter never removes, reorders or changes a token
    other than a [.]: its result is the line with some [.] Punct tokens
    turned into [->] Operator tokens (line, column and scope kept) and
    some [(], [*] and [)] tokens inserted, whatever the scopes hold. *)
Theorem rewrite_member_chains_edits (scopes : list Scope)
    (scope_vars : list (gmap string VarInfo)) (sid : Z)
    (ln ln' : list Token) :
  rewrite_member_chains scopes scope_vars sid ln = Some ln' ->
  rewritten ln ln'.
Proof. apply rewrite_loop_rewritten. Qed.

Lemma rewrite_member_chains_edits_witness :
  exists ln',
    rewrite_member_chains deep_scopes deep_vars 0 deep_line = Some ln' /\
    text <$> ln' = ["("; "*"; "x"; ")"; "->"; "f"]%string /\
    rewritten deep_line ln'.
Proof.
  eexists. split; [vm_compute; reflexivity|]. split; [vm_compute; reflexivity|].
  apply (rewrite_member_chains_edits deep_scopes deep_vars 0 deep_line).
  vm_compute. reflexivity.
Defined.

(** ** Lines without a pointer *)

Lemma is_p_lt (ln : list Token) (j : nat) (p : string) :
  is_p ln j p = true -> j < length ln.
Proof. apply TKIs_lt. Qed.

Lemma subscript_value (p a : Z) :
  (p < 1)%Z -> (fst (subscript p a) < 1)%Z.
Proof.
  intros Hp. unfold subscript. destruct (0 <? a)%Z; [done|].
  destruct (Z.ltb_spec 0 p); simpl; lia.
Qed.

Lemma postfix_walk_value (ln : list Token) (fuel : nat) :
  forall j p a, (p < 1)%Z -> length ln - j <= fuel ->
    exists j' p' a',
      postfix_walk fuel ln j p a = Some (j', p', a') /\ j <= j' /\ (p' < 1)%Z.
Proof.
  induction fuel as [|fuel IH]; intros j p a Hp Hfuel.
  - assert (Hno : forall s, is_p ln j s = false).
    { intros s. destruct (is_p ln j s) eqn:E; [|done].
      apply is_p_lt in E. lia. }
    simpl. rewrite !Hno. by exists j, p, a.
  - simpl. destruct (is_p ln j "[") eqn:Eb.
    { destruct (match_close _ _ _ _ _) as [k|] eqn:Ek; [|by exists j, p, a].
      apply match_close_ge in Ek.
      pose proof (subscript_value p a Hp) as Hs.
      destruct (subscript p a) as [p1 a1]. simpl in Hs.
      destruct (IH (k + 1) p1 a1 Hs) as (j' & p' & a' & -> & Hj' & Hp');
        [lia|].
      exists j', p', a'. split; [done|]. split; [lia | done]. }
    destruct (is_p ln j "(") eqn:Ec; [|by exists j, p, a].
    destruct (match_close _ _ _ _ _) as [k|] eqn:Ek; [|by exists j, p, a].
    apply match_close_ge in Ek.
    destruct (IH (k + 1) p a Hp) as (j' & p' & a' & -> & Hj' & Hp'); [lia|].
    exists j', p', a'. split; [done|]. split; [lia | done].
Qed.

Lemma dot_loop_value (ln : list Token) (i : nat) (cp : Z) (fuel : nat) :
  (cp < 1)%Z ->
  forall j, length ln - j <= fuel ->
    exists j', dot_loop fuel ln i j cp = Some (ln, j') /\ j <= j'.
Proof.
  intros Hcp. induction fuel as [|fuel IH]; intros j Hfuel; simpl.
  - destruct (is_p ln j ".") eqn:E; [apply is_p_lt in E; lia|].
    by exists j.
  - destruct (is_p ln j "." && _); [|by exists j].
    destruct (Z.eqb_spec cp 1); [lia|]. destruct (Z.ltb_spec 1 cp); [lia|].
    destruct (IH (j + 2)) as (j' & -> & Hj'); [lia|].
    exists j'. split; [done | lia].
Qed.

Lemma rewrite_at_value (scopes : list Scope)
    (scope_vars : list (gmap string VarInfo)) (sid : Z)
    (ln : list Token) (i : nat) (t : Token) :
  ln !! i = Some t ->
  (type t = Identifier -> exists pl ar,
     resolve_ptr_level scopes scope_vars sid (text t) = Some (pl, ar) /\
     (pl < 1 \/ pl = 999)%Z) ->
  exists i', rewrite_at scopes scope_vars sid ln i = Some (ln, i') /\ i <= i'.
Proof.
  intros Ht Hres. unfold rewrite_at. rewrite Ht.
  destruct (ty_is t Identifier) eqn:Hty; [|by exists i].
  apply ty_is_true in Hty. destruct (Hres Hty) as (pl & ar & -> & Hpl).
  simpl. destruct ((pl =? 999)%Z && _); [by exists i|].
  set (cp := if (pl =? 999)%Z then 0%Z else pl).
  assert (Hcp : (cp < 1)%Z).
  { unfold cp. destruct (Z.eqb_spec pl 999); lia. }
  destruct (postfix_walk_value ln (length ln) (i + 1) cp ar Hcp)
    as (j & p & a & -> & Hj & Hp); [lia|].
  simpl. destruct (dot_loop_value ln i p (length ln) Hp j)
    as (j' & -> & Hj'); [lia|].
  simpl. destruct (Nat.ltb_spec 0 j'); [|lia].
  eexists. split; [done | lia].
Qed.

Lemma rewrite_loop_value (scopes : list Scope)
    (scope_vars : list (gmap string VarInfo)) (sid : Z) (ln : list Token) :
  Forall (fun t => type t = Identifier -> exists pl ar,
            resolve_ptr_level scopes scope_vars sid (text t) = Some (pl, ar) /\
            (pl < 1 \/ pl = 999)%Z) ln ->
  forall fuel i, length ln - i <= fuel ->
    rewrite_loop scopes scope_vars sid fuel ln i = Some ln.
Proof.
  intros Hall. induction fuel as [|fuel IH]; intros i Hi; simpl.
  - destruct (Nat.ltb_spec i (length ln)); [lia | done].
  - destruct (Nat.ltb_spec i (length ln)) as [Hlt|]; [|done].
    destruct (lookup_lt_is_Some_2 _ _ Hlt) as [t Ht].
    destruct (rewrite_at_value scopes scope_vars sid ln i t Ht)
      as (i' & -> & Hi').
    + by eapply (Forall_lookup_1 _ _ _ _ Hall).
    + simpl. apply IH. lia.
Qed.

(** X19: objects held by value keep their dots.  When every Identifier of
    a line resolves to a record of pointer level 0, or to the level 999
    of a name never seen with a star, the member rewriter returns the line
    as it is, whatever subscripts, calls and member chains it holds. *)
Theorem rewrite_member_chains_values (scopes : list Scope)
    (scope_vars : list (gmap string VarInfo)) (sid : Z) (ln : list Token) :
  Forall (fun t => type t = Identifier -> exists pl ar,
            resolve_ptr_level scopes scope_vars sid (text t) = Some (pl, ar) /\
            (pl < 1 \/ pl = 999)%Z) ln ->
  rewrite_member_chains scopes scope_vars sid ln = Some ln.
Proof.
  intros Hall. unfold rewrite_member_chains.
  apply rewrite_loop_value; [done | lia].
Qed.

Lemma rewrite_member_chains_values_witness :
  rewrite_member_chains (a_scopes value_analysis)
    (a_scope_vars value_analysis) 0 value_line = Some value_line /\
  resolve_ptr_level (a_scopes value_analysis) (a_scope_vars value_analysis)
    0 "w" = Some (0, 1)%Z.
Proof.
  split; [|vm_compute; reflexivity].
  apply (rewrite_member_chains_values (a_scopes value_analysis)
           (a_scope_vars value_analysis) 0 value_line).
  let v := eval vm_compute in value_line in
    replace value_line with v by (vm_compute; reflexivity).
  repeat (apply Forall_cons; split;
          [intros _; do 2 eexists; split; [vm_compute; reflexivity | lia]|]).
  apply Forall_nil_2.
Defined.

(** ** Recorded parameters *)

Lemma scan_while_le (p : Token -> bool) (l : list Token) :
  forall i, scan_while p l i <= i + length l.
Proof.
  induction l as [|t l IH]; intros i; simpl; [lia|].
  destruct (p t); [|lia]. specialize (IH (S i)). lia.
Qed.

Lemma skip_while_lt_spec (p : Token -> bool) (tk : list Token) (i rp : nat) :
  i <= skip_while_lt p tk i rp /\
  (forall d t, i <= d < skip_while_lt p tk i rp -> tk !! d = Some t ->
     p t = true) /\
  (forall t, skip_while_lt p tk i rp < rp ->
     tk !! skip_while_lt p tk i rp = Some t -> p t = false).
Proof.
  unfold skip_while_lt. set (l := take (rp - i) (drop i tk)).
  assert (Hdrop : drop i (take (i + (rp - i)) tk) = l).
  { unfold l. by rewrite take_drop_commute. }
  pose proof (scan_while_le p l i) as Hle.
  assert (Hlen : length l <= rp - i) by (unfold l; rewrite length_take; lia).
  destruct (scan_while_spec p _ l i Hdrop) as (Hge & Hin & Hout).
  split; [done|]. split.
  - intros d t Hd Ht. apply (Hin d); [done|].
    rewrite lookup_take_lt by lia. done.
  - intros t Hlt Ht. apply Hout. rewrite lookup_take_lt by lia. done.
Qed.

Lemma skip_param_brackets_ge (tk : list Token) (rp : nat) (fuel : nat) :
  forall j j', skip_param_brackets fuel tk j rp = Some j' -> j <= j'.
Proof.
  induction fuel as [|fuel IH]; intros j j' H; simpl in H.
  - destruct ((j <? rp) && _); [done|]. injection H as <-. lia.
  - destruct ((j <? rp) && _); [|injection H as <-; lia].
    pose proof (skip_while_lt_spec (fun t => negb (tok_p t "]")) tk j rp)
      as (Hj1 & _).
    apply IH in H. destruct (_ <? rp); lia.
Qed.

Lemma parse_params_loop_recorded (tk : list Token) (lp rp : nat)
    (known : gset string) (Q : Param -> Prop) :
  (forall k t ns,
     lp < k - ns -> k < rp -> tk !! k = Some t -> type t = Identifier ->
     (forall d, k - ns <= d < k -> is_op tk d "*" = true) ->
     (ns = 0 -> is_tag_kw tk (k - 2) = true /\ 2 <= k /\ lp < k - 2) ->
     Q (mkParam (text t) (Z.of_nat ns))) ->
  forall fuel i out ps,
    lp < i -> Forall Q out ->
    parse_params_loop fuel tk i rp known out = Some ps -> Forall Q ps.
Proof.
  intros HQ. induction fuel as [|fuel IH]; intros i out ps Hi Hout H;
    simpl in H.
  - destruct (negb (i <? rp)); [by injection H as <-|done].
  - destruct (negb (i <? rp)); [by injection H as <-|].
    destruct (is_p tk i ","); [apply IH in H; [done|lia|done]|].
    destruct (tk !! i) as [t|] eqn:Ht; [|done].
    destruct (negb (type_start_tok known t));
      [apply IH in H; [done|lia|done]|].
    destruct (is_tag_kw tk i) eqn:Etag.
    + destruct ((i + 1 <? rp) && TKIs tk (i + 1) Identifier None);
        [|apply IH in H; [done|lia|done]].
      pose proof (skip_while_lt_spec (fun t => tok_op t "*") tk (i + 2) rp)
        as (Hj1 & Hstars & _).
      set (j1 := skip_while_lt _ tk (i + 2) rp) in *.
      destruct (tk !! j1) as [tn|] eqn:Htn;
        [|apply IH in H; [done|lia|done]].
      destruct (Nat.ltb_spec j1 rp) as [Hlt|];
        [|apply IH in H; [done|lia|done]].
      destruct (ty_is tn Identifier) eqn:Hid;
        [|apply IH in H; [done|lia|done]].
      cbn [andb] in H.
      destruct (skip_param_brackets _ tk (j1 + 1) rp) as [j2|] eqn:Ej2;
        [|done].
      apply skip_param_brackets_ge in Ej2.
      pose proof (skip_while_lt_spec (fun t => negb (tok_p t ",")) tk j2 rp)
        as (Hj3 & _).
      apply IH in H; [done|lia|]. apply Forall_app. split; [done|].
      constructor; [|done]. apply ty_is_true in Hid.
      apply (HQ j1 tn (j1 - (i + 2))); try done; try lia.
      * intros d Hd. unfold is_op, TKIs.
        destruct (lookup_lt_is_Some_2 tk d) as [u Hu].
        { apply lookup_lt_Some in Htn. lia. }
        rewrite Hu. by apply (Hstars d u ltac:(lia)).
      * intros Hz. replace (j1 - 2) with i by lia.
        split; [done|lia].
    + pose proof (skip_while_lt_spec kw_or_ident tk i rp)
        as (Hj & _ & Hstop).
      set (j := skip_while_lt kw_or_ident tk i rp) in *.
      pose proof (skip_while_lt_spec (fun t => tok_op t "*") tk j rp)
        as (Hj1 & Hstars & _).
      set (j1 := skip_while_lt _ tk j rp) in *.
      destruct (tk !! j1) as [tn|] eqn:Htn;
        [|apply IH in H; [done|lia|done]].
      destruct (Nat.ltb_spec j1 rp) as [Hlt|];
        [|apply IH in H; [done|lia|done]].
      destruct (ty_is tn Identifier) eqn:Hid;
        [|apply IH in H; [done|lia|done]].
      cbn [andb] in H.
      destruct (skip_param_brackets _ tk (j1 + 1) rp) as [j2|] eqn:Ej2;
        [|done].
      apply skip_param_brackets_ge in Ej2.
      pose proof (skip_while_lt_spec (fun t => negb (tok_p t ",")) tk j2 rp)
        as (Hj3 & _).
      apply IH in H; [done|lia|]. apply Forall_app. split; [done|].
      constructor; [|done].
      assert (Hne : j < j1).
      { destruct (decide (j = j1)) as [Heq|]; [|lia].
        rewrite <- Heq in Htn. apply Hstop in Htn; [|lia].
        unfold kw_or_ident in Htn. rewrite Hid in Htn.
        by rewrite orb_true_r in Htn. }
      apply ty_is_true in Hid.
      apply (HQ j1 tn (j1 - j)); try done; try lia.
      intros d Hd. unfold is_op, TKIs.
      destruct (lookup_lt_is_Some_2 tk d) as [u Hu].
      { apply lookup_lt_Some in Htn. lia. }
      rewrite Hu. by apply (Hstars d u ltac:(lia)).
Qed.

(** X20: every parameter that [parse_params] records is an Identifier
    between the parentheses that follows the stars it counts; a parameter
    is recorded without a star only behind the tag of a [struct], [enum]
    or [union]: a by-value parameter of a built-in or known type, such as
    the [n] of [int n], is never recorded. *)
Theorem parse_params_recorded (tk : list Token) (lp rp : nat)
    (known : gset string) (ps : list Param) :
  parse_params tk lp rp known = Some ps ->
  Forall (recorded_param tk lp rp) ps.
Proof.
  unfold parse_params. intros H.
  eapply (parse_params_loop_recorded tk lp rp known); [| |constructor|exact H];
    [|lia].
  intros k t ns Hk Hrp Ht Hty Hstars Htag. exists k, t, ns.
  split_and!; try done. intros Hz. destruct (Htag Hz) as (? & ? & ?). done.
Qed.

Lemma parse_params_recorded_witness :
  exists ps,
    parse_params (tokens_of array_param_text) 9 16
      ({[ "Vec2"%string ]} ∪ builtin_types) = Some ps /\
    p_name <$> ps = ["a"%string] /\
    Forall (recorded_param (tokens_of array_param_text) 9 16) ps.
Proof.
  eexists. split; [vm_compute; reflexivity|]. split; [vm_compute; reflexivity|].
  apply (parse_params_recorded (tokens_of array_param_text) 9 16
           ({[ "Vec2"%string ]} ∪ builtin_types)).
  vm_compute. reflexivity.
Defined.

(** ** Records of declarators *)

Lemma observe_var_lookup (m : gmap string VarInfo) (nm : string) (s a : Z) :
  observe_var m nm s a !! nm =
  Some (let vi := default (mkVarInfo 999 0) (m !! nm) in
        mkVarInfo
          (if (pointer_level vi =? 999)%Z then s
           else Z.min s (pointer_level vi))
          (Z.max a (array_rank vi))).
Proof.
  unfold observe_var. rewrite lookup_insert_eq. cbv zeta. do 2 f_equal.
  - destruct (_ =? 999)%Z; [done|].
    destruct (Z.ltb_spec s (pointer_level (default (mkVarInfo 999 0) (m !! nm))));
      lia.
  - destruct (Z.ltb_spec (array_rank (default (mkVarInfo 999 0) (m !! nm))) a);
      lia.
Qed.

Lemma observe_var_lookup_ne (m : gmap string VarInfo) (nm nm' : string)
    (s a : Z) :
  nm <> nm' -> observe_var m nm s a !! nm' = m !! nm'.
Proof. intros Hne. unfold observe_var. by rewrite lookup_insert_ne. Qed.

(** X21: the record of a name does not depend on the order in which its
    declarators are seen: it keeps the smallest star count and the largest
    array count.  The star counts must differ from 999, the value that
    marks a record without a declarator. *)
Theorem observe_var_order (m : gmap string VarInfo) (n1 n2 : string)
    (s1 a1 s2 a2 : Z) :
  s1 <> 999%Z -> s2 <> 999%Z ->
  observe_var (observe_var m n1 s1 a1) n2 s2 a2 =
  observe_var (observe_var m n2 s2 a2) n1 s1 a1 /\
  (m !! n1 = None ->
   observe_var (observe_var m n1 s1 a1) n1 s2 a2 !! n1 =
   Some (mkVarInfo (Z.min s1 s2) (Z.max 0 (Z.max a1 a2)))).
Proof.
  intros H1 H2. split.
  - apply map_eq. intros k.
    destruct (decide (n1 = n2)) as [<-|Hne].
    + destruct (decide (k = n1)) as [->|Hk].
      * rewrite !observe_var_lookup. cbv zeta. simpl.
        set (vi := default (mkVarInfo 999 0) (m !! n1)).
        destruct (Z.eqb_spec (pointer_level vi) 999) as [E|E].
        -- destruct (Z.eqb_spec s1 999); [done|].
           destruct (Z.eqb_spec s2 999); [done|]. do 2 f_equal; lia.
        -- destruct (Z.eqb_spec (Z.min s1 (pointer_level vi)) 999); [lia|].
           destruct (Z.eqb_spec (Z.min s2 (pointer_level vi)) 999); [lia|].
           do 2 f_equal; lia.
      * by rewrite !observe_var_lookup_ne.
    + destruct (decide (k = n1)) as [->|Hk1].
      * rewrite observe_var_lookup_ne by done.
        rewrite !observe_var_lookup.
        by rewrite observe_var_lookup_ne by done.
      * rewrite (observe_var_lookup_ne _ n1 k) by done.
        destruct (decide (k = n2)) as [->|Hk2].
        -- rewrite !observe_var_lookup.
           by rewrite observe_var_lookup_ne by done.
        -- by rewrite !observe_var_lookup_ne.
  - intros Hm. rewrite !observe_var_lookup, Hm. cbv zeta. simpl.
    destruct (Z.eqb_spec s1 999); [done|]. do 2 f_equal; lia.
Qed.

Lemma observe_var_order_witness :
  observe_var (observe_var ∅ "p" 2 0) "p" 1 3 =
  observe_var (observe_var ∅ "p" 1 3) "p" 2 0 /\
  ((∅ : gmap string VarInfo) !! "p"%string = None ->
   observe_var (observe_var ∅ "p" 2 0) "p" 1 3 !! "p"%string =
   Some (mkVarInfo (Z.min 2 1) (Z.max 0 (Z.max 0 3)))).
Proof. apply (observe_var_order ∅ "p" "p" 2 0 1 3); lia. Defined.

(** ** Function signatures *)

Lemma nesting_cons (o c : string) (t : Token) (l : list Token) :
  nesting o c (t :: l) =
  ((if tok_p t o then 1 else if tok_p t c then -1 else 0) + nesting o c l)%Z.
Proof. done. Qed.

Lemma match_close_nesting (o c : string) (l : list Token) :
  forall k depth r,
    (1 <= depth)%Z -> match_close o c l k depth = Some r ->
    k <= r /\
    (exists t, l !! (r - k) = Some t /\ tok_p t c = true) /\
    (depth + nesting o c (take (S (r - k)) l) = 0)%Z /\
    forall n, n <= r - k -> (1 <= depth + nesting o c (take n l))%Z.
Proof.
  induction l as [|t l IH]; intros k depth r Hd H; simpl in H; [done|].
  destruct (tok_p t o) eqn:Eo.
  - apply IH in H as (Hk & (u & Hu & Hc) & Hzero & Hpre); [|lia].
    replace (r - k) with (S (r - S k)) by lia.
    split; [lia|]. split; [by exists u|]. split.
    + rewrite firstn_cons, nesting_cons. rewrite Eo. lia.
    + intros [|n] Hn; [simpl; lia|].
      rewrite firstn_cons, nesting_cons. rewrite Eo.
      specialize (Hpre n ltac:(lia)). lia.
  - destruct (tok_p t c) eqn:Ec.
    + destruct (Z.eqb_spec (depth - 1) 0) as [Hz|Hz].
      * injection H as <-. rewrite Nat.sub_diag.
        split; [lia|]. split; [by exists t|]. split.
        -- rewrite firstn_cons, nesting_cons, Eo, Ec. simpl. lia.
        -- intros n Hn. assert (n = 0) as -> by lia. simpl. lia.
      * apply IH in H as (Hk & (u & Hu & Hc) & Hzero & Hpre); [|lia].
        replace (r - k) with (S (r - S k)) by lia.
        split; [lia|]. split; [by exists u|]. split.
        -- rewrite firstn_cons, nesting_cons. rewrite Eo, Ec. lia.
        -- intros [|n] Hn; [simpl; lia|].
           rewrite firstn_cons, nesting_cons. rewrite Eo, Ec. specialize (Hpre n ltac:(lia)). lia.
    + apply IH in H as (Hk & (u & Hu & Hc) & Hzero & Hpre); [|lia].
      replace (r - k) with (S (r - S k)) by lia.
      split; [lia|]. split; [by exists u|]. split.
      * rewrite firstn_cons, nesting_cons. rewrite Eo, Ec. lia.
      * intros [|n] Hn; [simpl; lia|].
        rewrite firstn_cons, nesting_cons. rewrite Eo, Ec. specialize (Hpre n ltac:(lia)). lia.
Qed.

Lemma match_close_closes (o c : string) (tk : list Token) (j k : nat) :
  is_p tk j o = true ->
  match_close o c (drop j tk) j 0 = Some k -> closes o c tk j k.
Proof.
  intros Hopen H. pose proof Hopen as Hj. unfold is_p, TKIs in Hj.
  destruct (tk !! j) as [t|] eqn:Ht; [|done]. fold (tok_p t o) in Hj.
  rewrite (drop_S _ _ _ Ht) in *. simpl in H. rewrite Hj in H.
  apply match_close_nesting in H as (Hk & (u & Hu & Hc) & Hzero & Hpre);
    [|lia].
  rewrite lookup_drop in Hu. replace (S j + (k - S j)) with k in Hu by lia.
  unfold closes. split; [lia|]. split; [done|]. split.
  { unfold is_p, TKIs. by rewrite Hu. }
  replace (k - j) with (S (k - S j)) by lia.
  rewrite (drop_S _ _ _ Ht). split.
  - rewrite firstn_cons, nesting_cons. rewrite Hj. lia.
  - intros [|n] Hn; [lia|]. rewrite firstn_cons, nesting_cons. rewrite Hj.
    specialize (Hpre n ltac:(lia)). lia.
Qed.

(** X22: what [looks_like_func_signature] returns when it accepts: the
    name is an Identifier after the type token, the token after it is the
    opening parenthesis, the closing parenthesis reported is the one that
    matches it, at least one token follows that parenthesis, and the
    brace reported, if any, is a [{] after it.  A signature whose closing
    parenthesis is the last token is not accepted. *)
Theorem looks_like_func_signature_shape (tk : list Token) (i_type : nat)
    (i_name : nat) (i_lbrace : option nat) (i_lp i_rp : nat) :
  looks_like_func_signature tk i_type = Some (i_name, i_lbrace, i_lp, i_rp) ->
  i_type < i_name /\ TKIs tk i_name Identifier None = true /\
  i_lp = i_name + 1 /\ closes "(" ")" tk i_lp i_rp /\
  i_rp + 1 < length tk /\
  match i_lbrace with
  | Some b => i_rp < b /\ is_p tk b "{" = true
  | None => True
  end.
Proof.
  unfold looks_like_func_signature. intros H.
  pose proof (skip_while_spec sig_prefix tk (i_type + 1)) as (Hi & _).
  set (i := skip_while sig_prefix tk (i_type + 1)) in *.
  destruct (TKIs tk i Identifier None) eqn:Eid; [|done]. cbn [negb] in H.
  destruct (is_p tk (i + 1) "(") eqn:Elp; [|done].
  destruct (match_close _ _ _ _ _) as [rp|] eqn:Erp; [|done].
  destruct (Nat.ltb_spec (rp + 1) (length tk)) as [Hlt|]; [|done].
  pose proof (skip_while_spec sig_suffix tk (rp + 1)) as (Hj & _).
  injection H as <- <- <- <-.
  split; [lia|]. split; [done|]. split; [done|].
  split; [by apply match_close_closes|]. split; [done|].
  destruct (is_p tk _ "{") eqn:Elb; [|done]. split; [lia | done].
Qed.

Lemma looks_like_func_signature_shape_witness :
  let tk := tokens_of array_param_text in
  7 < 8 /\ TKIs tk 8 Identifier None = true /\
  9 = 8 + 1 /\ closes "(" ")" tk 9 16 /\
  16 + 1 < length tk /\ (16 < 17 /\ is_p tk 17 "{" = true).
Proof.
  apply (looks_like_func_signature_shape (tokens_of array_param_text)
           7 8 (Some 17) 9 16).
  vm_compute. reflexivity.
Defined.

(** ** Directives in the lexer *)







(** ** The translation always returns *)

Lemma skip_while_lt_step (p : Token -> bool) (tk : list Token) (i rp : nat)
    (t : Token) :
  tk !! i = Some t -> p t = true -> i < rp -> i < skip_while_lt p tk i rp.
Proof.
  intros Ht Hp Hi.
  destruct (skip_while_lt_spec p tk i rp) as (Hge & _ & Hstop).
  destruct (decide (skip_while_lt p tk i rp = i)) as [Heq|]; [|lia].
  rewrite Heq in Hstop. specialize (Hstop t Hi Ht). congruence.
Qed.

Lemma skip_while_step (p : Token -> bool) (tk : list Token) (i : nat)
    (t : Token) :
  tk !! i = Some t -> p t = true -> i < skip_while p tk i.
Proof.
  intros Ht Hp.
  destruct (skip_while_spec p tk i) as (Hge & _ & Hstop).
  destruct (decide (skip_while p tk i = i)) as [Heq|]; [|lia].
  rewrite Heq in Hstop. specialize (Hstop t Ht). congruence.
Qed.

Lemma is_p_lookup (tk : list Token) (j : nat) (s : string) :
  is_p tk j s = true -> exists t, tk !! j = Some t /\ tok_p t s = true.
Proof.
  unfold is_p, TKIs. destruct (tk !! j) as [t|]; [|done]. by exists t.
Qed.

Lemma open_not_close (t : Token) :
  tok_p t "[" = true -> negb (tok_p t "]") = true.
Proof.
  intros H. apply tok_p_true in H. by rewrite (tok_p_other t "[" "]").
Qed.

Lemma skip_param_brackets_total (tk : list Token) (rp : nat) (fuel : nat) :
  forall j, rp - j <= fuel -> is_Some (skip_param_brackets fuel tk j rp).
Proof.
  induction fuel as [|fuel IH]; intros j Hfuel; simpl.
  - destruct (Nat.ltb_spec j rp); [lia|]. by eexists.
  - destruct (Nat.ltb_spec j rp) as [Hlt|]; [|by eexists]. simpl.
    destruct (is_p tk j "[") eqn:Eb; [|by eexists].
    apply is_p_lookup in Eb as (t & Ht & Hb).
    pose proof (skip_while_lt_step (fun t => negb (tok_p t "]")) tk j rp t Ht
                  (open_not_close t Hb) Hlt).
    apply IH. destruct (_ <? rp); lia.
Qed.

Lemma type_start_kw_or_ident (known : gset string) (t : Token) :
  type_start_tok known t = true -> kw_or_ident t = true.
Proof.
  unfold type_start_tok, kw_or_ident.
  by destruct (ty_is t Identifier), (ty_is t Keyword).
Qed.

Lemma parse_params_loop_total (tk : list Token) (rp : nat)
    (known : gset string) (fuel : nat) :
  rp <= length tk ->
  forall i out, rp - i <= fuel ->
    is_Some (parse_params_loop fuel tk i rp known out).
Proof.
  intros Hrp. induction fuel as [|fuel IH]; intros i out Hfuel; simpl.
  - destruct (Nat.ltb_spec i rp); [lia|]. by eexists.
  - destruct (Nat.ltb_spec i rp) as [Hlt|]; [|by eexists]. simpl.
    destruct (is_p tk i ","); [apply IH; lia|].
    destruct (lookup_lt_is_Some_2 tk i) as [t Ht]; [lia|]. rewrite Ht.
    destruct (type_start_tok known t) eqn:Ets; [|apply IH; lia]. simpl.
    assert (Hrec : forall j, i < j ->
      is_Some
        (let j1 := skip_while_lt (fun t => tok_op t "*") tk j rp in
         let nstars := Z.of_nat (j1 - j) in
         match tk !! j1 with
         | Some tn =>
             if (j1 <? rp) && ty_is tn Identifier then
               match skip_param_brackets (length tk) tk (j1 + 1) rp with
               | None => None
               | Some j2 =>
                   let j3 :=
                     skip_while_lt (fun t => negb (tok_p t ",")) tk j2 rp in
                   parse_params_loop fuel tk j3 rp known
                     (out ++ [mkParam (text tn) nstars])
               end
             else parse_params_loop fuel tk j1 rp known out
         | None => parse_params_loop fuel tk j1 rp known out
         end)).
    { intros j Hj. cbv zeta.
      pose proof (skip_while_lt_spec (fun t => tok_op t "*") tk j rp)
        as (Hj1 & _).
      set (j1 := skip_while_lt _ tk j rp) in *.
      destruct (tk !! j1) as [tn|]; [|apply IH; lia].
      destruct ((j1 <? rp) && ty_is tn Identifier); [|apply IH; lia].
      destruct (skip_param_brackets_total tk rp (length tk) (j1 + 1))
        as [j2 Hj2]; [lia|].
      rewrite Hj2. apply skip_param_brackets_ge in Hj2.
      pose proof (skip_while_lt_spec (fun t => negb (tok_p t ",")) tk j2 rp)
        as (Hj3 & _).
      apply IH. lia. }
    destruct (is_tag_kw tk i).
    + destruct ((i + 1 <? rp) && _); [|apply IH; lia]. apply Hrec. lia.
    + apply Hrec.
      apply (skip_while_lt_step kw_or_ident tk i rp t Ht); [|done].
      by eapply type_start_kw_or_ident.
Qed.

Lemma strict_arrays_total (tk : list Token) (fuel : nat) :
  forall j a, length tk - j <= fuel ->
    exists j' a', strict_arrays fuel tk j a = Some (j', a') /\ j <= j'.
Proof.
  induction fuel as [|fuel IH]; intros j a Hfuel; simpl.
  - destruct (is_p tk j "[") eqn:Eb; [|by exists j, a].
    apply is_p_lt in Eb. lia.
  - destruct (is_p tk j "[") eqn:Eb; [|by exists j, a].
    apply is_p_lookup in Eb as (t & Ht & Hb).
    pose proof (skip_while_step (fun t => negb (tok_p t "]")) tk j t Ht
                  (open_not_close t Hb)) as Hstep.
    set (j1 := skip_while _ tk j) in *.
    destruct (IH (if j1 <? length tk then j1 + 1 else j1) (a + 1)%Z)
      as (j' & a' & -> & Hj').
    { destruct (j1 <? length tk); lia. }
    exists j', a'. split; [done|]. destruct (j1 <? length tk); lia.
Qed.

Lemma declarators_loop_total (tk : list Token) (fuel : nat) :
  forall j m h, length tk - j <= fuel ->
    is_Some (declarators_loop fuel tk j m h).
Proof.
  induction fuel as [|fuel IH]; intros j m h Hfuel; simpl.
  - destruct (Nat.ltb_spec j (length tk)); [lia|]. by eexists.
  - destruct (Nat.ltb_spec j (length tk)) as [Hlt|]; [|by eexists]. simpl.
    pose proof (skip_while_spec (fun t => tok_op t "*") tk j) as (Hj1 & _).
    set (j1 := skip_while _ tk j) in *.
    destruct (tk !! j1) as [tn|]; [|by eexists].
    destruct (ty_is tn Identifier); [|by eexists]. simpl.
    destruct (strict_arrays_total tk (length tk) (j1 + 1) 0)
      as (j2 & a2 & -> & Hj2); [lia|].
    simpl. destruct (is_p tk j2 ","); [|by eexists]. apply IH. lia.
Qed.

Lemma relaxed_arrays_total (tk : list Token) (fuel : nat) :
  forall j a, length tk - j <= fuel ->
    is_Some (relaxed_arrays fuel tk j a).
Proof.
  induction fuel as [|fuel IH]; intros j a Hfuel; simpl.
  - destruct (is_p tk j "[") eqn:Eb; [|by eexists].
    apply is_p_lt in Eb. lia.
  - destruct (is_p tk j "[") eqn:Eb; [|by eexists].
    pose proof (skip_while_spec (fun t => negb (tok_p t "]")) tk (j + 1))
      as (Hk & _).
    destruct (_ =? length tk); [by eexists|]. apply IH. lia.
Qed.

Lemma detect_relaxed_declaration_total (tk : list Token) (i : nat) :
  i < length tk -> is_Some (detect_relaxed_declaration tk i).
Proof.
  intros Hi. unfold detect_relaxed_declaration.
  destruct (lookup_lt_is_Some_2 tk i Hi) as [t ->].
  destruct (negb _); [by eexists|].
  destruct (if ty_is t Keyword then _ else _) as [j|]; [|by eexists].
  destruct (tk !! _) as [tn|]; [|by eexists].
  destruct (negb _); [by eexists|].
  destruct (relaxed_arrays_total tk (length tk)
              (skip_while (fun t => tok_op t "*") tk
                 (skip_while kw_or_ident tk j) + 1) 0) as [[j3 a3] ->]; [lia|].
  by eexists.
Qed.

Lemma bind_is_Some {A B} (m : option A) (f : A -> option B) (x : A) :
  m = Some x -> is_Some (f x) -> is_Some (m ≫= f).
Proof. intros -> H. done. Qed.

Lemma looks_like_func_signature_rp (tk : list Token) (i nm : nat)
    (olb : option nat) (lp rp : nat) :
  looks_like_func_signature tk i = Some (nm, olb, lp, rp) -> rp < length tk.
Proof.
  unfold looks_like_func_signature. intros H.
  destruct (negb _); [done|]. destruct (is_p tk _ "("); [|done].
  destruct (match_close _ _ _ _ _) as [r|]; [|done].
  destruct (Nat.ltb_spec (r + 1) (length tk)); [|done].
  injection H as _ _ _ <-. lia.
Qed.

Lemma analyze_step_total (tk : list Token) (i : nat) (st : analysis) :
  analysis_inv tk i st -> i < length tk -> is_Some (analyze_step i st).
Proof.
  intros (Hsame & _ & _ & Hlen & _ & _ & _ & Hwf) Hi.
  pose proof (Forall2_length _ _ _ Hsame) as Hlen_tk.
  destruct (lookup_lt_is_Some_2 (a_tk st) i) as [t Ht]; [lia|].
  unfold analyze_step. eapply bind_is_Some; [exact Ht|]. cbv beta zeta.
  set (tk1 := <[i := set_scope_id t (a_cur st)]> (a_tk st)).
  assert (Hlen1 : length tk1 = length tk).
  { unfold tk1. rewrite length_insert. lia. }
  destruct (if is_tag_kw tk1 i then _ else _) as [pk1 pn1].
  set (known2 := if is_tag_kw tk1 i && _ then _ else _).
  assert (Hparams : exists x,
    match (if type_start_tok known2 t then looks_like_func_signature tk1 i
           else None) with
    | Some (i_name, Some i_lbrace, lp, rp) =>
        parse_params tk1 lp rp known2 ≫= fun ps : list Param =>
          Some ("Function"%string, default EmptyString (text <$> tk1 !! i_name),
                <[i_lbrace := ps]> (a_params_at_lbrace st))
    | _ => Some (pk1, pn1, a_params_at_lbrace st)
    end = Some x).
  { destruct (if type_start_tok known2 t then _ else _)
      as [[[[nm [lb|]] lp] rp]|] eqn:Esig; [|by eexists|by eexists].
    assert (Hrp : rp < length tk1).
    { destruct (type_start_tok known2 t); [|done].
      by eapply looks_like_func_signature_rp. }
    destruct (parse_params_loop_total tk1 rp known2 (length tk1)
                ltac:(lia) (lp + 1) []) as [ps Hps]; [lia|].
    unfold parse_params. rewrite Hps. by eexists. }
  destruct Hparams as ([[pk2 pn2] params] & Hparams).
  eapply bind_is_Some; [exact Hparams|]. cbv beta iota.
  destruct Hwf as (Hpf & Hpar & Hcur).
  destruct (lookup_lt_is_Some_2 (a_scope_vars st) (Z.to_nat (a_cur st)))
    as [m Hm]; [lia|].
  eapply bind_is_Some; [by rewrite at_scope_nonneg by lia|]. cbv beta.
  assert (Hdecl : exists x,
    (if type_start_tok known2 t then
       match (if type_start_tok known2 t then looks_like_func_signature tk1 i
              else None) with
       | Some _ => Some (m, false)
       | None =>
           declarators_loop (length tk1) tk1
             (if is_tag_kw tk1 i
              then if TKIs tk1 (i + 1) Identifier None then i + 2 else i
              else skip_while kw_or_ident tk1 i) m false
       end
     else Some (m, false)) = Some x).
  { destruct (type_start_tok known2 t); [|by eexists].
    destruct (looks_like_func_signature tk1 i); [by eexists|].
    apply declarators_loop_total. lia. }
  destruct Hdecl as ([m1 handled] & Hdecl).
  eapply bind_is_Some; [exact Hdecl|]. cbv beta iota.
  assert (Hrelaxed : exists m2,
    (if negb handled && ty_is t Identifier then
       detect_relaxed_declaration tk1 i ≫=
         fun r : option (nat * string * Z * Z) =>
           match r with
           | Some (_, vname, nstars, arrays) =>
               Some (observe_var m1 vname nstars arrays)
           | None => Some m1
           end
     else Some m1) = Some m2).
  { destruct (negb handled && ty_is t Identifier); [|by eexists].
    destruct (detect_relaxed_declaration_total tk1 i) as [r ->]; [lia|].
    simpl. destruct r as [[[[? ?] ?] ?]|]; by eexists. }
  destruct Hrelaxed as (m2 & Hrelaxed).
  eapply bind_is_Some; [exact Hrelaxed|]. cbv beta.
  destruct (is_p tk1 i "{") eqn:Eopen.
  - rewrite (is_p_other _ _ _ "}" Eopen) by done. by eexists.
  - destruct (is_p tk1 i "}"); [|by eexists].
    destruct (a_cur st =? 0)%Z; [by eexists|].
    destruct (lookup_lt_is_Some_2 (a_scopes st) (Z.to_nat (a_cur st)))
      as [sc Hsc]; [lia|].
    rewrite at_scope_nonneg by lia. rewrite Hsc. by eexists.
Qed.

Lemma analyze_loop_total (tk : list Token) (k : nat) :
  forall i st,
    analysis_inv tk i st -> k + i <= length tk ->
    is_Some (analyze_loop k i st).
Proof.
  induction k as [|k IH]; intros i st Hinv Hk; simpl; [by eexists|].
  destruct (analyze_step_total tk i st Hinv) as [st1 Hst1]; [lia|].
  rewrite Hst1. simpl. apply IH; [|lia]. by eapply analyze_step_inv.
Qed.

Lemma analyze_scopes_and_vars_total (tk : list Token) (known : gset string) :
  is_Some (analyze_scopes_and_vars tk known).
Proof.
  unfold analyze_scopes_and_vars.
  apply (analyze_loop_total tk); [apply analysis_inv_initial | lia].
Qed.

Lemma length_to_arrow (ln : list Token) (j : nat) :
  length (to_arrow ln j) = length ln.
Proof.
  unfold to_arrow. destruct (ln !! j); [|done]. by rewrite length_insert.
Qed.

Lemma postfix_walk_total (ln : list Token) (fuel : nat) :
  forall j p a, length ln - j <= fuel ->
    exists j' p' a', postfix_walk fuel ln j p a = Some (j', p', a') /\ j <= j'.
Proof.
  induction fuel as [|fuel IH]; intros j p a Hfuel.
  - assert (Hno : forall s, is_p ln j s = false).
    { intros s. destruct (is_p ln j s) eqn:E; [|done].
      apply is_p_lt in E. lia. }
    simpl. rewrite !Hno. by exists j, p, a.
  - simpl. destruct (is_p ln j "[") eqn:Eb.
    { destruct (match_close _ _ _ _ _) as [k|] eqn:Ek; [|by exists j, p, a].
      apply match_close_ge in Ek. destruct (subscript p a) as [p1 a1].
      destruct (IH (k + 1) p1 a1) as (j' & p' & a' & -> & Hj'); [lia|].
      exists j', p', a'. split; [done | lia]. }
    destruct (is_p ln j "(") eqn:Ec; [|by exists j, p, a].
    destruct (match_close _ _ _ _ _) as [k|] eqn:Ek; [|by exists j, p, a].
    apply match_close_ge in Ek.
    destruct (IH (k + 1) p a) as (j' & p' & a' & -> & Hj'); [lia|].
    exists j', p', a'. split; [done | lia].
Qed.

Lemma dot_loop_total (fuel : nat) :
  forall ln i j cp, i < j -> length ln - j <= fuel ->
    exists ln' j',
      dot_loop fuel ln i j cp = Some (ln', j') /\ j <= j' /\
      length ln' - j' <= length ln - j.
Proof.
  induction fuel as [|fuel IH]; intros ln i j cp Hij Hfuel; simpl.
  - destruct (is_p ln j ".") eqn:E; [apply is_p_lt in E; lia|].
    by exists ln, j.
  - destruct (is_p ln j ".") eqn:Edot; [|by exists ln, j].
    destruct (TKIs ln (j + 1) Identifier None) eqn:Eid; [|by exists ln, j].
    apply TKIs_lt in Eid. simpl.
    destruct (cp =? 1)%Z.
    { destruct (IH (to_arrow ln j) i (j + 2) cp) as (ln' & j' & -> & Hj' & Hl);
        [lia|rewrite length_to_arrow; lia|].
      rewrite length_to_arrow in Hl. exists ln', j'. split; [done|lia]. }
    destruct (1 <? cp)%Z.
    + destruct (lookup_lt_is_Some_2 ln i) as [ti ->]; [lia|].
      destruct (lookup_lt_is_Some_2 ln j) as [tj ->]; [lia|].
      set (ln3 := to_arrow _ (j + 2 + 1)).
      assert (Hlen3 : length ln3 = length ln + 3).
      { unfold ln3. rewrite length_to_arrow, !length_insert_at. lia. }
      destruct (IH ln3 i (j + 2 + 1 + 2) (cp - 1)%Z)
        as (ln' & j' & -> & Hj' & Hl); [lia|lia|].
      exists ln', j'. split; [done|lia].
    + destruct (IH ln i (j + 2) cp) as (ln' & j' & -> & Hj' & Hl);
        [lia|lia|].
      exists ln', j'. split; [done|lia].
Qed.

Section RewriterReturns.
Variable scopes : list Scope.
Variable scope_vars : list (gmap string VarInfo).
Variable sid : Z.
Hypothesis resolves :
  forall nm, is_Some (resolve_ptr_level scopes scope_vars sid nm).

Lemma rewrite_at_total (ln : list Token) (i : nat) :
  i < length ln ->
  exists ln' i',
    rewrite_at scopes scope_vars sid ln i = Some (ln', i') /\
    length ln' - (i' + 1) <= length ln - (i + 1).
Proof.
  intros Hi. unfold rewrite_at.
  destruct (lookup_lt_is_Some_2 ln i Hi) as [t ->].
  destruct (negb _); [by exists ln, i|].
  destruct (resolves (text t)) as [[ptr arr] ->]. simpl.
  destruct ((ptr =? 999)%Z && _); [by exists ln, i|].
  set (cp := if (ptr =? 999)%Z then 0%Z else ptr).
  destruct (postfix_walk_total ln (length ln) (i + 1) cp arr)
    as (j & p & a & -> & Hj); [lia|].
  simpl. destruct (dot_loop_total (length ln) ln i j p)
    as (ln' & j' & -> & Hj' & Hl); [lia|lia|].
  simpl. destruct (Nat.ltb_spec 0 j'); [|lia].
  exists ln', (j' - 1). split; [done|].
  replace (j' - 1 + 1) with j' by lia. lia.
Qed.

Lemma rewrite_loop_total (fuel : nat) :
  forall ln i, length ln - i <= fuel ->
    is_Some (rewrite_loop scopes scope_vars sid fuel ln i).
Proof.
  induction fuel as [|fuel IH]; intros ln i Hfuel; simpl.
  - destruct (Nat.ltb_spec i (length ln)); [lia | by eexists].
  - destruct (Nat.ltb_spec i (length ln)) as [Hlt|]; [|by eexists].
    destruct (rewrite_at_total ln i Hlt) as (ln' & i' & -> & Hl).
    simpl. apply IH. lia.
Qed.

Lemma process_line_total (ln : list Token) :
  is_Some (process_line scopes scope_vars ln sid).
Proof.
  unfold process_line, rewrite_member_chains.
  destruct (rewrite_loop_total (length ln) ln 0) as [ln1 ->]; [lia|]. simpl.
  unfold insert_semicolon_before_closing_brace_on_line.
  destruct (String.eqb _ "Enum"); [by eexists|].
  destruct ln1 as [|p l]; [by eexists|].
  pose proof (before_brace_loop_spec l (length (p :: l)) [] p) as H.
  simpl in H. simpl. rewrite H by lia. by eexists.
Qed.
End RewriterReturns.

Lemma terminate_type_blocks_scopes (scopes : list Scope) (P : Z -> Prop)
    (toks : list Token) :
  Forall (fun u => P (scope_id u)) toks ->
  Forall (fun u => P (scope_id u)) (terminate_type_blocks scopes toks).
Proof.
  induction 1 as [|t toks Ht Htoks IH]; simpl; [constructor|].
  destruct (closes_type_block scopes t && _); repeat constructor; done.
Qed.

Lemma split_into_lines_scopes (P : Z -> Prop) (toks : list Token) :
  Forall (fun u => P (scope_id u)) toks ->
  Forall P (snd (split_into_lines toks)).
Proof.
  intros Hall. unfold split_into_lines. destruct toks as [|t toks]; [done|].
  destruct (split_loop_spec (t :: toks) (line t) [] [] [scope_id t])
    as (g' & G & S & Heq & Hcat & _ & HG & _).
  simpl app in Heq. rewrite Heq. simpl. constructor; [by inversion Hall|].
  assert (HGall : Forall (Forall (fun u => P (scope_id u))) G).
  { rewrite <- Hcat in Hall. apply Forall_app in Hall as [_ Hall].
    clear -Hall. induction G as [|g G IH]; [constructor|].
    simpl in Hall. apply Forall_app in Hall as [Hg Hall].
    constructor; [done | by apply IH]. }
  clear -HG HGall. induction HG as [|g s G S (u & r & -> & -> & _) HG IH];
    [constructor|].
  inversion HGall as [|? ? Hg HGall']; subst.
  constructor; [by inversion Hg | by apply IH].
Qed.

Lemma resolve_ptr_level_total (tk : list Token) (i : nat) (st : analysis)
    (sid : Z) (nm : string) :
  analysis_inv tk i st ->
  (0 <= sid < Z.of_nat (length (a_scopes st)))%Z ->
  is_Some (resolve_ptr_level (a_scopes st) (a_scope_vars st) sid nm).
Proof.
  intros (_ & _ & _ & Hlen & Hroot & _ & _ & Hpf & Hpar & _) Hsid.
  destruct (resolve_loop_defined (a_scopes st) (a_scope_vars st) nm Hlen)
    with (fuel := length (a_scopes st)) (cur := sid)
    as (pl & ar & Hres & _); [|lia|lia|by eexists].
  intros k sc Hk. pose proof (Hpf _ _ Hk). destruct k as [|k].
  - rewrite Hroot in Hk. injection Hk as <-. simpl. lia.
  - pose proof (Hpar _ _ Hk ltac:(lia)). lia.
Qed.

Lemma process_lines_total (scopes : list Scope)
    (scope_vars : list (gmap string VarInfo)) (line_scope : list Z) :
  (forall li nm,
     is_Some (resolve_ptr_level scopes scope_vars
                (default 0%Z (line_scope !! li)) nm)) ->
  forall lines li,
    is_Some (process_lines scopes scope_vars lines line_scope li).
Proof.
  intros Hres. induction lines as [|ln lines IH]; intros li; simpl;
    [by eexists|].
  destruct (process_line_total scopes scope_vars _ (Hres li) ln) as [ln' ->].
  simpl. destruct (IH (S li)) as [rest ->]. by eexists.
Qed.

Lemma edited_lines_total (known : gset string) (toks : list Token) :
  is_Some (edited_lines known toks).
Proof.
  unfold edited_lines.
  destruct (analyze_scopes_and_vars_total toks known) as [a Ha].
  rewrite Ha. simpl. rewrite add_semicolon_after_type_blocks_spec. simpl.
  pose proof (analysis_inv_final _ _ _ Ha) as Hinv.
  set (valid := fun s : Z => (0 <= s < Z.of_nat (length (a_scopes a)))%Z).
  assert (Htoks : Forall (fun u => valid (scope_id u)) (a_tk a)).
  { destruct Hinv as (Hsame & _ & Hids & _).
    apply Forall_lookup. intros k u Hu. apply (Hids k u); [|done].
    apply lookup_lt_Some in Hu. apply Forall2_length in Hsame. lia. }
  assert (Hzero : valid 0%Z).
  { destruct Hinv as (_ & _ & _ & _ & Hroot & _).
    apply lookup_lt_Some in Hroot. unfold valid. lia. }
  set (toks2 := terminate_type_blocks _ _).
  assert (Hscopes : Forall valid (snd (split_into_lines toks2))).
  { apply split_into_lines_scopes, terminate_type_blocks_scopes.
    unfold remove_semicolons_inside_enums. apply Forall_forall.
    intros u [_ Hu]%list_elem_of_filter.
    by apply (proj1 (Forall_forall _ _) Htoks). }
  destruct (split_into_lines toks2) as [lines line_scope]. simpl in Hscopes.
  destruct (process_lines_total (a_scopes a) (a_scope_vars a) line_scope)
    with (lines := lines) (li := 0) as [ls ->]; [|by eexists].
  intros li nm. eapply resolve_ptr_level_total; [exact Hinv|].
  destruct (line_scope !! li) as [s|] eqn:Es; simpl; [|done].
  by apply (Forall_lookup_1 _ _ _ _ Hscopes Es).
Qed.

Lemma translate_total (known : gset string) (src : list ascii) :
  is_Some (translate known src).
Proof.
  unfold translate.
  destruct (lex_total (preprocess_physical_lines src)) as [r ->]. simpl.
  destruct r as [toks | ln cl]; [|by eexists].
  destruct (edited_lines_total known toks) as [[ls a] ->]. by eexists.
Qed.

Lemma main_loop_total (files : list (option (list ascii))) :
  forall known c w, is_Some (main_loop files known c w).
Proof.
  induction files as [|[src|] files IH]; intros known c w; simpl;
    [by eexists| |by apply IH].
  destruct (translate_total known src) as [r ->]. simpl.
  destruct r; [by eexists | by apply IH].
Qed.

(** X24: the analysis always returns, on every token sequence and every
    set of known types, and keeps the number of tokens.  In the embedding
    every scan of the analysis runs with the size of the token vector as
    its bound, and the unguarded accesses [tk[i]], [scope_vars[cur]] and
    [scopes[cur]] are checked: no bound is reached and no check fails. *)
Theorem analysis_returns (tk : list Token) (known : gset string) :
  exists a, analyze_scopes_and_vars tk known = Some a /\
            length (a_tk a) = length tk.
Proof.
  destruct (analyze_scopes_and_vars_total tk known) as [a Ha].
  exists a. split; [done|].
  apply analysis_inv_final in Ha as (Hsame & _).
  by apply Forall2_length in Hsame.
Qed.

(** X25: the translation of a file always returns, either with the exit
    of the lexer at an arrow or with the text to write, and so does the
    run over any list of files.  In the embedding every loop of the
    passes runs with the size of its vector as its bound and the unguarded
    vector accesses are checked: no bound is reached, also where the
    member rewriter makes the line longer, and no check fails. *)
Theorem translation_returns :
  (forall known src,
     (exists ln cl, translate known src = Some (Exit2 ln cl)) \/
     (exists out known', translate known src = Some (Wrote out known'))) /\
  (forall files, exists c w, main files = Some (c, w)).
Proof.
  split.
  - intros known src. destruct (translate_total known src) as [[ln cl|out k] H].
    + left. by exists ln, cl.
    + right. by exists out, k.
  - intros files. unfold main. destruct files as [|f files]; [by eexists _, _|].
    destruct (main_loop_total (f :: files) builtin_types 0%Z []) as [[c w] H].
    by exists c, w.
Qed.

(** ** Known types from file to file *)

(** X26: the known types only grow from one file to the next: the set
    that the translation of a file hands on holds every type it was given,
    and it is the set the next file of the run is analysed with. *)
Theorem known_types_carry_over (known known' : gset string)
    (src : list ascii) (out : string) :
  translate known src = Some (Wrote out known') ->
  known ⊆ known' /\
  forall files c w,
    main_loop (Some src :: files) known c w =
    main_loop files known' c (w ++ [out]).
Proof.
  intros H. split.
  - unfold translate in H. apply bind_Some in H as (r & _ & H).
    destruct r as [toks|]; [|done].
    apply bind_Some in H as ([ls a] & Hed & [= _ <-]).
    unfold edited_lines in Hed. apply bind_Some in Hed as (a' & Ha & Hed).
    apply bind_Some in Hed as (toks2 & _ & Hed).
    destruct (split_into_lines toks2) as [lines line_scope].
    apply bind_Some in Hed as (ls' & _ & [= _ <-]).
    intros nm Hnm. unfold analyze_scopes_and_vars in Ha.
    apply (analyze_loop_declares toks _ _ _ _ Ha
             (analysis_inv_initial toks known)). by left.
  - intros files c w. simpl. by rewrite H.
Qed.

Lemma known_types_carry_over_witness :
  exists out,
    translate builtin_types (bytes ("typedef int T;" ++ nl)) =
      Some (Wrote out ({[ "T"%string ]} ∪ builtin_types)) /\
    builtin_types ⊆ {[ "T"%string ]} ∪ builtin_types /\
    forall files c w,
      main_loop (Some (bytes ("typedef int T;" ++ nl)) :: files)
        builtin_types c w =
      main_loop files ({[ "T"%string ]} ∪ builtin_types) c (w ++ [out]).
Proof.
  eexists. split; [vm_compute; reflexivity|].
  apply (known_types_carry_over builtin_types).
  vm_compute. reflexivity.
Defined.
